(** * ore-lang front end (Sources/main.c): lexer, parser, error collector
      and keyword prefix tree, as a shallow embedding.

    Conventions of the embedding.
    - A C [char] is the [Z] it promotes to; nothing below depends on the
      signedness of [char].
    - A source buffer is a [list Z]; a pointer into it is an offset ([Z]).
      A read outside the list yields the terminator 0: the buffer is taken
      to be followed by zero bytes.  The C program reads past the terminator
      only on inputs such as a string constant that is never closed or an
      integer value that no [;] follows; none of the inputs evaluated below
      is one.
    - [int] values are [Z]; buffers are shorter than 2^31, so no [int]
      arithmetic of the lexer overflows.  The one narrowing conversion of the
      program, the [i8] result of [GetValue], is written out, and so is the
      one [int] sum whose operands the caller chooses freely, the allocation
      position plus the request size in the arena ([to_int]).
    - Structure sizes are those of an LP64 target. *)

From Stdlib Require Import String.
From Stdlib Require Import ZArith List Ascii Lia Bool.
From stdpp Require Import list.
Import ListNotations.
Local Open Scope Z_scope.

(** ** Characters and C strings *)

Definition ch (a : ascii) : Z := Z.of_nat (nat_of_ascii a).

Definition str (s : String.string) : list Z := map ch (String.list_ascii_of_string s).

(** The double quote, the backslash and the newline character. *)
Definition quote : Z := 34.
Definition backslash : Z := 92.
Definition newline : Z := 10.

(** [s[i]] for a pointer [s] given as the characters from that pointer on. *)
Definition idx (s : list Z) (i : Z) : Z :=
  if i <? 0 then 0 else nth (Z.to_nat i) s 0.

(** The characters of buffer [b] from offset [p] on ([b + p]). *)
Definition suffix (b : list Z) (p : Z) : list Z :=
  if p <? 0 then [] else skipn (Z.to_nat p) b.

(** [b[p]]. *)
Definition rd (b : list Z) (p : Z) : Z := idx (suffix b p) 0.

Fixpoint CalculateCStringLength (s : list Z) : Z :=
  match s with
  | [] => 0
  | c :: s' => if c =? 0 then 0 else 1 + CalculateCStringLength s'
  end.

Definition CharIsAlpha (c : Z) : bool :=
  ((ch "A" <=? c) && (c <=? ch "Z")) || ((ch "a" <=? c) && (c <=? ch "z")).

Definition CharIsDigit (c : Z) : bool := (ch "0" <=? c) && (c <=? ch "9").

Definition CharIsSpace (c : Z) : bool := c <=? 32.

(** [static char symbols[6]]: the array has no terminator, the loop bound
    [strlen(symbols)] is taken to be its six elements. *)
Definition symbols : list Z :=
  [ch "="; ch "{"; ch "}"; ch "*"; ch "|"; ch "`"].

Definition CharIsSymbol (c : Z) : bool := existsb (fun s => s =? c) symbols.

Definition CharIsText (c : Z) : bool := negb (CharIsSymbol c) && negb (c =? ch "@").

Fixpoint match_chars (a b : list Z) (n : nat) : bool :=
  match n with
  | O => true
  | S n' => if idx a 0 =? idx b 0 then match_chars (tl a) (tl b) n' else false
  end.

(** Both pointers are non-null at every call site. *)
Definition CStringMatchCaseSensitiveN (a b : list Z) (n : Z) : bool :=
  if n =? 0 then false else match_chars a b (Z.to_nat n).

(** ** Tokens *)

Inductive TokenType : Set :=
| Token_None
| Token_Var
| Token_Const
| Token_Func
| Token_Int
| Token_Float
| Token_DoubleNewline
| Token_Symbol
| Token_StringConstant.

Definition TokenType_eqb (a b : TokenType) : bool :=
  match a, b with
  | Token_None, Token_None | Token_Var, Token_Var | Token_Const, Token_Const
  | Token_Func, Token_Func | Token_Int, Token_Int | Token_Float, Token_Float
  | Token_DoubleNewline, Token_DoubleNewline | Token_Symbol, Token_Symbol
  | Token_StringConstant, Token_StringConstant => true
  | _, _ => false
  end.

(** [string] is an offset into the source buffer; in the zero token it is
    the null pointer, which is never dereferenced. *)
#[warnings="-register-all"] Inductive Token : Type := mkToken {
  type : TokenType;
  tokens : option Token;
  string : Z;
  string_length : Z;
  lines_traversed : Z
}.

Definition Token_zero : Token := mkToken Token_None None 0 0 0.

Record Tokenizer : Type := mkTokenizer {
  at_ : Z;
  line : Z;
  file : String.string;
  break_text_by_commas : Z
}.

(** ** Lexer *)

(** The escape-aware scans of the Var, Const and StringConstant rules:
    [for(; (s[len] != stop || escaped) && s[len]; ++len)]. *)
Fixpoint scan_escaped (stop : Z -> bool) (s : list Z) (escaped : bool) : Z :=
  match s with
  | [] => 0
  | c :: s' =>
      if (negb (stop c) || escaped) && negb (c =? 0)
      then 1 + scan_escaped stop s' (if escaped then false else c =? backslash)
      else 0
  end.

Definition var_stop (c : Z) : bool := (c =? ch "=") || (c =? ch ":").
Definition const_stop (c : Z) : bool := c =? ch ";".
Definition quote_stop (c : Z) : bool := c =? quote.

(** The Int rule: digits and whitespace up to [;], the terminator or the
    first other character. *)
Fixpoint scan_int (s : list Z) : Z :=
  match s with
  | [] => 0
  | c :: s' =>
      if negb (c =? ch ";") && negb (c =? 0)
      then if CharIsDigit c || CharIsSpace c then 1 + scan_int s' else 0
      else 0
  end.

(** [for(j=i+1; buffer[j] && CharIsSymbol(buffer[j]); ++j);] counted from
    [buffer+i+1]. *)
Fixpoint symbol_run (s : list Z) : Z :=
  match s with
  | [] => 0
  | c :: s' => if negb (c =? 0) && CharIsSymbol c then 1 + symbol_run s' else 0
  end.

Definition symbolic_blocks_to_break_out : list (list Z) :=
  [str "="; str "*"; str "_"; str "`"; str "{"; str "}"; str "|"; str ";"].

(** The loop over the break-out literals; [s] is [buffer+i]. *)
Fixpoint break_out (blocks : list (list Z)) (s : list Z) (i j : Z) : Z :=
  match blocks with
  | [] => j
  | blk :: rest =>
      let length_to_compare := CalculateCStringLength blk in
      if CStringMatchCaseSensitiveN blk s length_to_compare
      then i + length_to_compare
      else break_out rest s i j
  end.

(** The main loop [for(int i = 0; buffer[i]; ++i)]: [buffer] is the cursor,
    [s] the characters from [buffer+i] on, [token] the token under
    construction. *)
Fixpoint scan_tokens (buffer : Z) (s : list Z) (i : Z) (token : Token) : Token :=
  match s with
  | [] => token
  | c :: s' =>
      if c =? 0 then token
      else if (c =? newline) && (idx s' 0 =? newline) then
        mkToken Token_DoubleNewline (tokens token) (buffer + i) 2 (lines_traversed token)
      else if (c =? ch "v") && (idx s' 0 =? ch "a") && (idx s' 1 =? ch "r") then
        mkToken Token_Var (tokens token) (buffer + i)
                (scan_escaped var_stop s true) (lines_traversed token)
      else if (c =? ch "c") && (idx s' 0 =? ch "o") && (idx s' 1 =? ch "n")
              && (idx s' 2 =? ch "s") && (idx s' 3 =? ch "t") then
        mkToken Token_Const (tokens token) (buffer + i)
                (scan_escaped const_stop s true) (lines_traversed token)
      else if c =? quote then
        mkToken Token_StringConstant (tokens token) (buffer + i)
                (scan_escaped quote_stop s true + 1) (lines_traversed token)
      else if CharIsDigit c then
        mkToken Token_Int (tokens token) (buffer + i) (scan_int s) (lines_traversed token)
      else if negb (CharIsSpace c) then
        let j := if CharIsSymbol c
                 then break_out symbolic_blocks_to_break_out s i (i + 1 + symbol_run s')
                 else 0 in
        let token := if CharIsSymbol c
                     then mkToken Token_Symbol (tokens token) (string token)
                                  (string_length token) (lines_traversed token)
                     else token in
        if negb (j =? 0)
        then mkToken (type token) (tokens token) (buffer + i) (j - i) (lines_traversed token)
        else scan_tokens buffer s' (i + 1) token
      else scan_tokens buffer s' (i + 1) token
  end.

(** [for(int i = 0; i < token.string_length; ++i) if(token.string[i] == '\n')
    ++token.lines_traversed;] over the characters [s] of the token. *)
Fixpoint count_newlines (s : list Z) (n : nat) : Z :=
  match n with
  | O => 0
  | S n' => (if idx s 0 =? newline then 1 else 0) + count_newlines (tl s) n'
  end.

Definition GetNextTokenFromBuffer (b : list Z) (tokenizer : Tokenizer) : Token :=
  let buffer := at_ tokenizer in
  let token := scan_tokens buffer (suffix b buffer) 0 Token_zero in
  mkToken (type token) (tokens token) (string token) (string_length token)
          (lines_traversed token
           + count_newlines (suffix b (string token)) (Z.to_nat (string_length token))).

Definition PeekToken (b : list Z) (tokenizer : Tokenizer) : Token :=
  GetNextTokenFromBuffer b tokenizer.

Definition advance (tokenizer : Tokenizer) (token : Token) : Tokenizer :=
  mkTokenizer (string token + string_length token)
              (line tokenizer + lines_traversed token)
              (file tokenizer) (break_text_by_commas tokenizer).

Definition NextToken (b : list Z) (tokenizer : Tokenizer) : Token * Tokenizer :=
  let token := GetNextTokenFromBuffer b tokenizer in
  (token, advance tokenizer token).

(** [Some (token, tokenizer')] when the next token has the required type (the
    token is what is stored through [token_ptr]); [None] when it does not,
    and then neither the tokenizer nor [*token_ptr] changes. *)
Definition RequireTokenType (b : list Z) (tokenizer : Tokenizer) (ty : TokenType)
  : option (Token * Tokenizer) :=
  let token := GetNextTokenFromBuffer b tokenizer in
  if TokenType_eqb (type token) ty
  then Some (token, advance tokenizer token)
  else None.

Definition TokenMatch (b : list Z) (token : Token) (s : list Z) : bool :=
  negb (TokenType_eqb (type token) Token_None)
  && CStringMatchCaseSensitiveN (suffix b (string token)) s (string_length token)
  && (idx s (string_length token) =? 0).

Definition RequireToken (b : list Z) (tokenizer : Tokenizer) (s : list Z)
  : option (Token * Tokenizer) :=
  let token := GetNextTokenFromBuffer b tokenizer in
  if TokenMatch b token s
  then Some (token, advance tokenizer token)
  else None.

(** The text of a token, as a list of characters. *)
Definition token_text (b : list Z) (token : Token) : list Z :=
  firstn (Z.to_nat (string_length token)) (suffix b (string token)).

(** ** Arena and error collector *)

Definition PARSE_CONTEXT_MEMORY_BLOCK_SIZE_DEFAULT : Z := 4096.
Definition sizeof_Token : Z := 32.
Definition sizeof_ExprNode : Z := 48.
Definition sizeof_ParseError : Z := 24.
Definition sizeof_KeywordPrefixTreeNode : Z := 48.

Record ParseContextMemoryBlock : Type := mkBlock {
  size : Z;
  alloc_position : Z
}.

Record ParseError : Type := mkParseError {
  error_file : String.string;
  error_line : Z;
  message : String.string
}.

(** [blocks] is the chain from [head]; [active] is always its last block.
    [error_stack] is [None] for the null pointer, otherwise the array of
    [error_stack_size_max] slots, a slot being [None] until it is written. *)
Record ParseContext : Type := mkParseContext {
  blocks : list ParseContextMemoryBlock;
  error_stack_size : Z;
  error_stack_size_max : Z;
  error_stack : option (list (option ParseError))
}.

(** The zero-initialised context of [main]. *)
Definition ParseContext_zero : ParseContext := mkParseContext [] 0 0 None.

(** The value of an [int] expression whose mathematical value is [z]: the
    wrap-around of a two's complement target (the C standard leaves a sum
    that overflows undefined). *)
Definition to_int (z : Z) : Z := (z + 2147483648) mod 4294967296 - 2147483648.

Definition new_block (sz : Z) : ParseContextMemoryBlock :=
  let needed_bytes :=
    if sz <? PARSE_CONTEXT_MEMORY_BLOCK_SIZE_DEFAULT
    then PARSE_CONTEXT_MEMORY_BLOCK_SIZE_DEFAULT else sz in
  mkBlock needed_bytes (0 + sz).

(** Bump allocation in the active (last) block, or in a new block appended
    after it.  The sum [chunk->alloc_position + size] is an [int] sum, in the
    capacity test as in the update of the position. *)
Fixpoint bump (chain : list ParseContextMemoryBlock) (sz : Z)
  : list ParseContextMemoryBlock :=
  match chain with
  | [] => [new_block sz]
  | [chunk] =>
      if to_int (alloc_position chunk + sz) >? size chunk
      then [chunk; new_block sz]
      else [mkBlock (size chunk) (to_int (alloc_position chunk + sz))]
  | chunk :: rest => chunk :: bump rest sz
  end.

Definition ParseContextAllocateMemory (context : ParseContext) (sz : Z) : ParseContext :=
  mkParseContext (bump (blocks context) sz) (error_stack_size context)
                 (error_stack_size_max context) (error_stack context).

Definition ParseContextAllocateNode (context : ParseContext) : ParseContext :=
  ParseContextAllocateMemory context sizeof_ExprNode.

Definition ParseContextAllocateToken (context : ParseContext) : ParseContext :=
  ParseContextAllocateMemory context sizeof_Token.

(** [message] is the rendered format; [vsnprintf] returns its length. *)
Definition PushParseError (context : ParseContext) (tokenizer : Tokenizer)
           (message : String.string) : ParseContext :=
  let context :=
    match error_stack context with
    | Some _ => context
    | None =>
        let context := mkParseContext (blocks context) 0 32 None in
        let context :=
          ParseContextAllocateMemory context
            (sizeof_ParseError * error_stack_size_max context) in
        mkParseContext (blocks context) (error_stack_size context)
                       (error_stack_size_max context)
                       (Some (replicate (Z.to_nat (error_stack_size_max context)) None))
    end in
  if error_stack_size context <? error_stack_size_max context then
    let needed_bytes := Z.of_nat (String.length message) + 1 in
    let context := ParseContextAllocateMemory context needed_bytes in
    let error := mkParseError (file tokenizer) (line tokenizer) message in
    mkParseContext (blocks context) (error_stack_size context + 1)
                   (error_stack_size_max context)
                   (option_map
                      (fun stack => <[Z.to_nat (error_stack_size context) := Some error]> stack)
                      (error_stack context))
  else context.

(** The diagnostics held by the collector, oldest first. *)
Definition retained_errors (context : ParseContext) : list ParseError :=
  match error_stack context with
  | None => []
  | Some stack => omap id (firstn (Z.to_nat (error_stack_size context)) stack)
  end.

(** ** Rendered diagnostics *)

Definition ascii_of_char (c : Z) : ascii := ascii_of_nat (Z.to_nat (c mod 256)).

Fixpoint string_of_chars (l : list Z) : String.string :=
  match l with
  | [] => EmptyString
  | c :: l' => String (ascii_of_char c) (string_of_chars l')
  end.

(** What [%.*s] prints of [s] with precision [n]. *)
Fixpoint take_cstr (n : nat) (s : list Z) : list Z :=
  match n, s with
  | S n', c :: s' => if c =? 0 then [] else c :: take_cstr n' s'
  | _, _ => []
  end.

Definition msg_expected_quote : String.string :=
  String.append "Expected " (String.append (String (ascii_of_char quote) EmptyString)
                                           " to follow String assignation.").
Definition msg_bad_int (c : Z) : String.string :=
  String.append "Expected Int value but had incorrect char "
                (String (ascii_of_char c) ".").
Definition msg_expected_value : String.string := "Expected value before endline".
Definition msg_malformed_tag : String.string := "Malformed tag.".
Definition msg_unexpected_symbol (b : list Z) (symbol : Token) : String.string :=
  String.append "Unexpected symbol '"
    (String.append
       (string_of_chars (take_cstr (Z.to_nat (string_length symbol))
                                   (suffix b (string symbol))))
       "'").

(** ** Parser *)

Inductive ExprType : Set :=
| ExprType_Invalid
| ExprType_Var
| ExprType_Const
| ExprType_Func.

(** A node of the result list; the [next] links are the list order.
    [first_parameter] and the list unions stay zero in every node built. *)
Record ExprNode : Type := mkExprNode {
  expr_type : ExprType;
  expr_tokens : option Token;
  tokens_length : Z
}.

(** Conversion of an [int] to [i8]. *)
Definition to_i8 (z : Z) : Z := (z + 128) mod 256 - 128.

(** The variables of [GetValue] that its loop updates. *)
Record GetValueState : Type := mkGetValueState {
  link_length : Z;
  isSet : bool;
  bracket_stack : Z;
  gv_context : ParseContext;
  gv_tokenizer : Tokenizer;
  gv_value : Token
}.

(** One run of the body of the loop [for(int i = 0; link[i]; ++i)] of
    [GetValue], entered with [link[i]] not zero: the variables after it, and
    [Some] of the index with which the loop goes on (after its [++i]) or
    [None] when the body leaves the loop by [break]. *)
Definition GetValue_body (b : list Z) (link : Z) (i : Z) (st : GetValueState)
  : GetValueState * option Z :=
  let c := rd b (link + i) in
  if c =? quote then
    match RequireTokenType b (gv_tokenizer st) Token_StringConstant with
    | Some (token, tokenizer') =>
        (mkGetValueState (link_length st) true (bracket_stack st)
                         (gv_context st) tokenizer' token, None)
    | None =>
        (mkGetValueState (link_length st) (isSet st) (bracket_stack st)
                         (PushParseError (gv_context st) (gv_tokenizer st)
                                         msg_expected_quote)
                         (gv_tokenizer st) (gv_value st), None)
    end
  else
    let '(i, st) :=
      if c =? ch "[" then
        (i, mkGetValueState (link_length st) (isSet st) (bracket_stack st + 1)
                            (gv_context st) (gv_tokenizer st) (gv_value st))
      else if c =? ch "]" then
        (i, mkGetValueState (link_length st) (isSet st) (bracket_stack st - 1)
                            (gv_context st) (gv_tokenizer st) (gv_value st))
      else if CharIsDigit c then
        match RequireTokenType b (gv_tokenizer st) Token_Int with
        | Some (value, tokenizer') =>
            let last := rd b (string value + (string_length value - 1)) in
            (i + string_length value,
             if CharIsDigit last
             then mkGetValueState (link_length st) true (bracket_stack st)
                                  (gv_context st) tokenizer' value
             else mkGetValueState (link_length st) (isSet st) (bracket_stack st)
                                  (PushParseError (gv_context st) tokenizer'
                                                  (msg_bad_int last))
                                  tokenizer' value)
        | None => (i, st)
        end
      else (i, st) in
    let st' := mkGetValueState (link_length st + 1) (isSet st) (bracket_stack st)
                               (gv_context st) (gv_tokenizer st) (gv_value st) in
    if rd b (link + i) =? ch ";" then (st', None) else (st', Some (i + 1)).

(** The loop itself.  The index grows with every iteration and the loop
    ends at a zero character, so it runs at most once per character of the
    buffer; [fuel] is that bound (see [GetValue_loop_fuel_enough]). *)
Fixpoint GetValue_loop (b : list Z) (link : Z) (fuel : nat) (i : Z)
         (st : GetValueState) : GetValueState :=
  match fuel with
  | O => st
  | S fuel' =>
      if rd b (link + i) =? 0 then st
      else
        match GetValue_body b link i st with
        | (st', Some i') => GetValue_loop b link fuel' i' st'
        | (st', None) => st'
        end
  end.

(** Returns the [i8] result with the context, the tokenizer and [*value]
    as the call leaves them. *)
Definition GetValue (b : list Z) (context : ParseContext) (tokenizer : Tokenizer)
           (link : Z) (value : Token) : Z * ParseContext * Tokenizer * Token :=
  let st := GetValue_loop b link (S (length b)) 0
                          (mkGetValueState 0 false 0 context tokenizer value) in
  let context :=
    if isSet st then gv_context st
    else PushParseError (gv_context st) (gv_tokenizer st) msg_expected_value in
  (to_i8 (if isSet st then link_length st else 0),
   context, gv_tokenizer st, gv_value st).

(** [to] is a freshly zeroed token: its [tokens] link stays null. *)
Definition setTokenFromOther (to from : Token) : Token :=
  mkToken (type from) (tokens to) (string from) (string_length from)
          (lines_traversed from).

(** What [ParseText] holds across iterations: the context and the tokenizer
    it was given, and the list built through [node_store_target]. *)
Record ParseState : Type := mkParseState {
  context : ParseContext;
  tokenizer : Tokenizer;
  result : list ExprNode
}.

(** One run of the body of the [while] loop, up to the re-peek. *)
Definition ParseText_body (b : list Z) (st : ParseState) : ParseState :=
  match RequireTokenType b (tokenizer st) Token_Var with
  | Some (isVar, tokenizer1) =>
      let context1 := ParseContextAllocateToken (context st) in
      let var := setTokenFromOther Token_zero isVar in
      let tokenizer2 :=
        mkTokenizer (string var + string_length var) (line tokenizer1)
                    (file tokenizer1) (break_text_by_commas tokenizer1) in
      match RequireToken b tokenizer2 (str "=") with
      | Some (isAssign, tokenizer3) =>
          let context2 := ParseContextAllocateToken context1 in
          let assign := setTokenFromOther Token_zero isAssign in
          let link := string assign + 1 in
          let context3 := ParseContextAllocateToken context2 in
          let '(link_length, context4, tokenizer4, value) :=
            GetValue b context3 tokenizer3 link Token_zero in
          if negb (link_length =? 0) then
            let context5 := ParseContextAllocateNode context4 in
            let assign := mkToken (type assign) (Some value) (string assign)
                                  (string_length assign) (lines_traversed assign) in
            let var := mkToken (type var) (Some assign) (string var)
                               (string_length var) (lines_traversed var) in
            let node := mkExprNode ExprType_Var (Some var) 3 in
            mkParseState context5
                         (mkTokenizer (link + link_length) (line tokenizer4)
                                      (file tokenizer4) (break_text_by_commas tokenizer4))
                         (result st ++ [node])
          else mkParseState context4 tokenizer4 (result st)
      | None =>
          mkParseState (PushParseError context1 tokenizer2 msg_malformed_tag)
                       tokenizer2 (result st)
      end
  | None =>
      match RequireTokenType b (tokenizer st) Token_Symbol with
      | Some (symbol, tokenizer1) =>
          if TokenMatch b symbol (str "*") then
            mkParseState (context st) tokenizer1 (result st)
          else if TokenMatch b symbol (str "|") then
            mkParseState (context st) tokenizer1 (result st)
          else if TokenMatch b symbol (str "`") then
            mkParseState (context st) tokenizer1 (result st)
          else
            mkParseState (PushParseError (context st) tokenizer1
                                         (msg_unexpected_symbol b symbol))
                         tokenizer1 (result st)
      | None =>
          match RequireTokenType b (tokenizer st) Token_DoubleNewline with
          | Some (_, tokenizer1) => mkParseState (context st) tokenizer1 (result st)
          | None => st
          end
      end
  end.

(** The [while(token.type != Token_None)] loop.  The C loop has no bound;
    [None] is a run that has not left the loop within [fuel] iterations. *)
Fixpoint ParseText_loop (b : list Z) (fuel : nat) (st : ParseState) (token : Token)
  : option ParseState :=
  match fuel with
  | O => None
  | S fuel' =>
      if TokenType_eqb (type token) Token_None then Some st
      else
        let st := ParseText_body b st in
        let token := PeekToken b (tokenizer st) in
        if error_stack_size (context st) >? 0 then Some st
        else ParseText_loop b fuel' st token
  end.

Definition ParseText (b : list Z) (fuel : nat) (context : ParseContext)
           (tokenizer : Tokenizer) : option ParseState :=
  ParseText_loop b fuel (mkParseState context tokenizer []) (PeekToken b tokenizer).

(** The tokenizer that [ProcessFile] builds over a loaded file. *)
Definition Tokenizer_start (filename : String.string) : Tokenizer :=
  mkTokenizer 0 1 filename 0.

(** The texts of the token chain of a node, head first. *)
Fixpoint chain_texts (b : list Z) (fuel : nat) (t : option Token) : list String.string :=
  match fuel, t with
  | S fuel', Some tok =>
      string_of_chars (token_text b tok) :: chain_texts b fuel' (tokens tok)
  | _, _ => []
  end.

Definition node_texts (b : list Z) (n : ExprNode) : list String.string :=
  chain_texts b 8 (expr_tokens n).

(** ** Keyword prefix tree *)

(** Nodes live in the arena; a node pointer is [None] for null or the index
    of the node in allocation order.  [prefix] and [value] are the borrowed
    character pointers, [value] being null in a split node. *)
Record KeywordPrefixTreeNode : Type := mkKeywordPrefixTreeNode {
  prefix : list Z;
  prefix_length : Z;
  value : option (list Z);
  value_length : Z;
  have_child : option nat;
  no_have_child : option nat
}.

(** What a [KeywordPrefixTreeNode **] can point at: the caller's root
    pointer, or the [have_child] or [no_have_child] field of a node.  The
    field of the null node is the address the C code computes from a null
    [node]; a store through it faults. *)
Inductive NodeTarget : Type :=
| target_tree
| target_have_child (node : option nat)
| target_no_have_child (node : option nat).

(** How a call ends: it returns, it stores through an invalid pointer, or it
    is still looping after [fuel] iterations. *)
Inductive Outcome (A : Type) : Type :=
| Returns (a : A)
| Faults
| OutOfFuel.
Arguments Returns {A} a.
Arguments Faults {A}.
Arguments OutOfFuel {A}.

Definition store_target (heap : list KeywordPrefixTreeNode) (tree : option nat)
           (node_target : NodeTarget) (p : option nat)
  : option (list KeywordPrefixTreeNode * option nat) :=
  match node_target with
  | target_tree => Some (heap, p)
  | target_have_child (Some n) =>
      match heap !! n with
      | Some nd =>
          Some (<[n := mkKeywordPrefixTreeNode (prefix nd) (prefix_length nd) (value nd)
                         (value_length nd) p (no_have_child nd)]> heap, tree)
      | None => None
      end
  | target_no_have_child (Some n) =>
      match heap !! n with
      | Some nd =>
          Some (<[n := mkKeywordPrefixTreeNode (prefix nd) (prefix_length nd) (value nd)
                         (value_length nd) (have_child nd) p]> heap, tree)
      | None => None
      end
  | target_have_child None | target_no_have_child None => None
  end.

(** [for(int i = 0; i < node->prefix_length && i < key_length; ++i)], run
    for [n] iterations at most. *)
Fixpoint count_matching (key node_prefix : list Z) (n : nat) : Z :=
  match n with
  | O => 0
  | S n' =>
      if idx key 0 =? idx node_prefix 0
      then 1 + count_matching (tl key) (tl node_prefix) n'
      else 0
  end.

Definition matching_key_characters (key : list Z) (key_length : Z)
           (node : KeywordPrefixTreeNode) : Z :=
  count_matching key (prefix node) (Z.to_nat (Z.min (prefix_length node) key_length)).

(** The loop of [InsertKeywordIntoTree].  A tree whose links form a cycle
    keeps it running; [fuel] bounds the iterations. *)
Fixpoint InsertKeyword_loop (fuel : nat) (heap : list KeywordPrefixTreeNode)
         (tree : option nat) (context : ParseContext) (node_target : NodeTarget)
         (node : option nat) (key : list Z) (key_length : Z)
         (value : option (list Z)) (value_length : Z)
  : Outcome (list KeywordPrefixTreeNode * option nat * ParseContext) :=
  match fuel with
  | O => OutOfFuel
  | S fuel' =>
      match node with
      | Some n =>
          match heap !! n with
          | None => Faults
          | Some nd =>
              if matching_key_characters key key_length nd >? 0 then
                if prefix_length nd <=? 1 then
                  let node := have_child nd in
                  InsertKeyword_loop fuel' heap tree context (target_have_child node)
                                     node key key_length value value_length
                else
                  let context :=
                    ParseContextAllocateMemory context sizeof_KeywordPrefixTreeNode in
                  let new_node := length heap in
                  let heap :=
                    heap ++ [mkKeywordPrefixTreeNode
                               key (matching_key_characters key key_length nd)
                               None 0 (Some n) None] in
                  match store_target heap tree node_target (Some new_node) with
                  | None => Faults
                  | Some (heap, tree) =>
                      InsertKeyword_loop fuel' heap tree context
                                         (target_no_have_child (Some new_node))
                                         None key key_length value value_length
                  end
              else
                let node := no_have_child nd in
                InsertKeyword_loop fuel' heap tree context (target_no_have_child node)
                                   node key key_length value value_length
          end
      | None =>
          let context :=
            ParseContextAllocateMemory context sizeof_KeywordPrefixTreeNode in
          let new_node := length heap in
          let heap :=
            heap ++ [mkKeywordPrefixTreeNode key key_length value value_length
                                             None None] in
          match store_target heap tree node_target (Some new_node) with
          | None => Faults
          | Some (heap, tree) => Returns (heap, tree, context)
          end
      end
  end.

Definition InsertKeywordIntoTree (fuel : nat) (heap : list KeywordPrefixTreeNode)
           (tree : option nat) (context : ParseContext) (key : list Z) (key_length : Z)
           (value : option (list Z)) (value_length : Z)
  : Outcome (list KeywordPrefixTreeNode * option nat * ParseContext) :=
  InsertKeyword_loop fuel heap tree context target_tree tree key key_length
                     value value_length.

(** [value_ptr] is [None] for a null pointer, otherwise the [char *] it
    points at.  The result is the returned length with [*value_ptr]. *)
Fixpoint GetKeywordValue_loop (fuel : nat) (heap : list KeywordPrefixTreeNode)
         (node : option nat) (keyword : list Z) (keyword_length : Z)
         (value_ptr : option (option (list Z)))
  : Outcome (Z * option (option (list Z))) :=
  match fuel with
  | O => OutOfFuel
  | S fuel' =>
      match node with
      | None => Returns (0, value_ptr)
      | Some n =>
          match heap !! n with
          | None => Faults
          | Some nd =>
              let matching := matching_key_characters keyword keyword_length nd in
              if matching =? prefix_length nd then
                if matching =? keyword_length then
                  match value_ptr with
                  | Some _ => Returns (value_length nd, Some (value nd))
                  | None =>
                      GetKeywordValue_loop fuel' heap node keyword keyword_length
                                           value_ptr
                  end
                else
                  GetKeywordValue_loop fuel' heap (have_child nd) keyword
                                       keyword_length value_ptr
              else
                GetKeywordValue_loop fuel' heap (no_have_child nd) keyword
                                     keyword_length value_ptr
          end
      end
  end.

Definition GetKeywordValueFromTree (fuel : nat) (heap : list KeywordPrefixTreeNode)
           (tree : option nat) (keyword : list Z) (keyword_length : Z)
           (value_ptr : option (option (list Z)))
  : Outcome (Z * option (option (list Z))) :=
  GetKeywordValue_loop fuel heap tree keyword keyword_length value_ptr.

(** Insertion of key/value strings, in order, starting from the tree [tree]
    of [heap]. *)
Fixpoint insert_all (fuel : nat) (heap : list KeywordPrefixTreeNode)
         (tree : option nat) (context : ParseContext)
         (pairs : list (String.string * String.string))
  : Outcome (list KeywordPrefixTreeNode * option nat * ParseContext) :=
  match pairs with
  | [] => Returns (heap, tree, context)
  | (k, v) :: rest =>
      match InsertKeywordIntoTree fuel heap tree context (str k)
                                  (Z.of_nat (String.length k)) (Some (str v))
                                  (Z.of_nat (String.length v)) with
      | Returns (heap, tree, context) => insert_all fuel heap tree context rest
      | Faults => Faults
      | OutOfFuel => OutOfFuel
      end
  end.

(** Lookup of key [k] in a built tree, through a non-null [value_ptr] that
    holds null before the call. *)
Definition lookup_in (fuel : nat)
           (built : Outcome (list KeywordPrefixTreeNode * option nat * ParseContext))
           (k : String.string) : Outcome (Z * option (option (list Z))) :=
  match built with
  | Returns (heap, tree, _) =>
      GetKeywordValueFromTree fuel heap tree (str k) (Z.of_nat (String.length k))
                              (Some None)
  | Faults => Faults
  | OutOfFuel => OutOfFuel
  end.

(** ** Definitions used in the statements *)

(** Inputs. *)
Definition input_int_only : list Z := str "1".
Definition input_string_only : list Z := [quote] ++ str "a" ++ [quote].
Definition input_const_only : list Z := str "const x;".
Definition input_title_hello : list Z :=
  str "var title=" ++ [quote] ++ str "Hello" ++ [quote] ++ str ";".
Definition input_name_string : list Z :=
  str "var NAME = " ++ [quote] ++ str "STRING" ++ [quote] ++ str ";".
Definition input_name_123 : list Z := str "var NAME = 123;".
Definition input_name_12_3 : list Z := str "var NAME = 12 3;".
Definition input_name_12_space : list Z := str "var NAME = 12 ;".
Definition input_name_no_assign : list Z := str "var NAME 123;".
Definition input_two_vars : list Z :=
  str "var a=1;" ++ [newline; newline] ++ str "var b=2;".
Definition input_bad_then_good : list Z := str "var a = 1 x2;".
Definition input_covariant : list Z := str "covariant".
Definition input_reconstruct : list Z := str "reconstruct;".

(** The state in which [ParseText] enters its loop when called on a fresh
    context. *)
Definition start (filename : String.string) : ParseState :=
  mkParseState ParseContext_zero (Tokenizer_start filename) [].

(** A sequence of calls of [PushParseError], each with the tokenizer it is
    given and its rendered message. *)
Definition push_all (context : ParseContext) (pushes : list (Tokenizer * String.string))
  : ParseContext :=
  fold_left (fun c p => PushParseError c (fst p) (snd p)) pushes context.

(** The diagnostic that a push records. *)
Definition error_of (p : Tokenizer * String.string) : ParseError :=
  mkParseError (file (fst p)) (line (fst p)) (snd p).

(** Forty pushes, made at lines 1 to 40. *)
Definition pushes_40 : list (Tokenizer * String.string) :=
  map (fun n => (mkTokenizer 0 (Z.of_nat n) "input.or" 0, msg_malformed_tag)) (seq 1 40).

(** The log is allocated with 32 slots and holds exactly [errs], in order. *)
Definition collector_holds (context : ParseContext) (errs : list ParseError) : Prop :=
  exists stack,
    error_stack context = Some stack
    /\ error_stack_size_max context = 32
    /\ length stack = 32%nat
    /\ error_stack_size context = Z.of_nat (length errs)
    /\ (length errs <= 32)%nat
    /\ take (length errs) stack = map Some errs.

(** The collector of a context that [main] can hold: the log is not yet
    allocated and nothing is retained, or it is allocated and holds [errs]. *)
Definition collector_state (context : ParseContext) (errs : list ParseError) : Prop :=
  (error_stack context = None /\ errs = []) \/ collector_holds context errs.

(** What the collector retains of [pushes], pushed into [context]: the
    diagnostics it holds afterwards, without those it held before. *)
Definition newly_retained (context : ParseContext)
           (pushes : list (Tokenizer * String.string)) : list ParseError :=
  drop (length (retained_errors context)) (retained_errors (push_all context pushes)).

(** A context that has had one diagnostic pushed, as [main] passes it on
    to the parse of the next file. *)
Definition context_with_one_error : ParseContext :=
  PushParseError ParseContext_zero (mkTokenizer 0 7 "first.or" 0) msg_malformed_tag.

(** The collector of [context] retains a diagnostic with the message
    [msg]. *)
Definition raised (context : ParseContext) (msg : String.string) : Prop :=
  In msg (map message (retained_errors context)).

(** What ParseText would render for a Symbol token with the text [;]. *)
Definition msg_unexpected_semicolon : String.string := "Unexpected symbol ';'".

(** The body of the lexer loop at a position whose remaining characters are
    [s] matches no rule: it produces no token and moves on to the next
    character. *)
Definition no_rule_matches (s : list Z) : bool :=
  match s with
  | [] => false
  | c :: s' =>
      negb (c =? 0)
      && negb ((c =? newline) && (idx s' 0 =? newline))
      && negb ((c =? ch "v") && (idx s' 0 =? ch "a") && (idx s' 1 =? ch "r"))
      && negb ((c =? ch "c") && (idx s' 0 =? ch "o") && (idx s' 1 =? ch "n")
               && (idx s' 2 =? ch "s") && (idx s' 3 =? ch "t"))
      && negb (c =? quote)
      && negb (CharIsDigit c)
      && (CharIsSpace c || negb (CharIsSymbol c))
  end.

(** No rule matches at any of the [k] positions from [p] on. *)
Fixpoint none_match_before (b : list Z) (p : Z) (k : nat) : bool :=
  match k with
  | O => true
  | S k' => no_rule_matches (suffix b p) && none_match_before b (p + 1) k'
  end.

(** The characters of [lit] stand at offset [p] of [b]. *)
Definition literal_at (b : list Z) (p : Z) (lit : String.string) : bool :=
  match_chars (suffix b p) (str lit) (String.length lit).


(** ** Further functions of main.c *)

(** The characters of a C string: those before its terminator. *)
Fixpoint c_string (s : list Z) : list Z :=
  match s with
  | [] => []
  | c :: s' => if c =? 0 then [] else c :: c_string s'
  end.

(** The loop [for(int i = 0;; ++i)] over both strings; [a] and [b] are the
    characters from [a+i] and [b+i] on.  Both pointers are taken non-null, as
    at every call in [main]. *)
Fixpoint CStringMatchCaseInsensitive (a b : list Z) : bool :=
  match a with
  | [] => idx b 0 =? 0
  | c :: a' =>
      if negb (c =? idx b 0) then false
      else if c =? 0 then true
      else CStringMatchCaseInsensitive a' (tl b)
  end.

(** The memory that [ParseContextAllocateMemory] returns for a request of
    [sz] bytes: the index in the chain of the block it lies in (the chain is
    scanned from index [k]) and its offset in that block. *)
Fixpoint bump_memory (chain : list ParseContextMemoryBlock) (sz : Z) (k : nat)
  : nat * Z :=
  match chain with
  | [] => (k, 0)
  | [chunk] =>
      if to_int (alloc_position chunk + sz) >? size chunk
      then (S k, 0)
      else (k, alloc_position chunk)
  | chunk :: rest => bump_memory rest sz (S k)
  end.

Definition ParseContextAllocateMemory_memory (context : ParseContext) (sz : Z)
  : nat * Z :=
  bump_memory (blocks context) sz 0.

(** The [n] bytes that [MemoryCopy] reads from [src]. *)
Fixpoint MemoryCopy (src : list Z) (n : nat) : list Z :=
  match n with
  | O => []
  | S n' => idx src 0 :: MemoryCopy (tl src) n'
  end.

(** The context after the call and the bytes of the copy. *)
Definition ParseContextAllocateCStringCopy (context : ParseContext) (s : list Z)
  : ParseContext * list Z :=
  let needed_bytes := CalculateCStringLength s + 1 in
  (ParseContextAllocateMemory context needed_bytes,
   MemoryCopy s (Z.to_nat needed_bytes)).

Definition ParseContextAllocateCStringCopyN (context : ParseContext) (s : list Z)
           (n : Z) : ParseContext * list Z :=
  let needed_bytes := n + 1 in
  (ParseContextAllocateMemory context needed_bytes,
   <[Z.to_nat n := 0]> (MemoryCopy s (Z.to_nat needed_bytes))).

(** The loop of [SkipToAfterNextComma]: [Some (i+1)] for the first comma, at
    index [i], [None] when the terminator comes first. *)
Fixpoint comma_scan (s : list Z) (i : Z) : option Z :=
  match s with
  | [] => None
  | c :: s' =>
      if c =? 0 then None
      else if c =? ch "," then Some (i + 1)
      else comma_scan s' (i + 1)
  end.

Definition SkipToAfterNextComma (b : list Z) (tokenizer : Tokenizer) : Tokenizer :=
  match comma_scan (suffix b (at_ tokenizer)) 0 with
  | Some d =>
      mkTokenizer (at_ tokenizer + d) (line tokenizer) (file tokenizer)
                  (break_text_by_commas tokenizer)
  | None => tokenizer
  end.

(** [*text] and [*text_length] after the call. *)
Definition TrimQuotationMarks (b : list Z) (text : Z) (text_length : Z) : Z * Z :=
  if rd b text =? quote then (text + 1, text_length - 2) else (text, text_length).

(** ** Definitions used in the further statements *)

(** A stretch of arena memory: the index of its block in the chain, its
    offset in the block and its size. *)
Record Region : Type := mkRegion {
  region_block : nat;
  region_offset : Z;
  region_size : Z
}.

Definition regions_disjoint (r1 r2 : Region) : Prop :=
  region_block r1 <> region_block r2
  \/ region_offset r1 + region_size r1 <= region_offset r2
  \/ region_offset r2 + region_size r2 <= region_offset r1.

(** The region lies in the allocated part of its block. *)
Definition region_used (chain : list ParseContextMemoryBlock) (r : Region) : Prop :=
  exists blk,
    chain !! region_block r = Some blk
    /\ 0 <= region_offset r
    /\ region_offset r + region_size r <= alloc_position blk.

Definition INT_MAX : Z := 2147483647.

(** Every block has its allocation position within its size and its size
    within [limit]. *)
Definition chain_ok (limit : Z) (chain : list ParseContextMemoryBlock) : Prop :=
  Forall (fun blk => 0 <= alloc_position blk <= size blk /\ size blk <= limit) chain.

(** A sequence of allocations: the final context and the regions returned,
    in order. *)
Fixpoint allocate_all (context : ParseContext) (sizes : list Z)
  : ParseContext * list Region :=
  match sizes with
  | [] => (context, [])
  | sz :: rest =>
      let '(k, off) := ParseContextAllocateMemory_memory context sz in
      let '(context', regions) :=
        allocate_all (ParseContextAllocateMemory context sz) rest in
      (context', mkRegion k off sz :: regions)
  end.

(** The characters between the delimiters of an escape-aware scan: a plain
    character, or a backslash with the character it escapes. *)
Inductive ScanItem : Type :=
| plain (c : Z)
| escaped (c : Z).

Definition item_chars (it : ScanItem) : list Z :=
  match it with
  | plain c => [c]
  | escaped c => [backslash; c]
  end.

Definition items_chars (items : list ScanItem) : list Z :=
  concat (map item_chars items).

(** An item that a scan with delimiter test [stop] passes over. *)
Definition item_ok (stop : Z -> bool) (it : ScanItem) : Prop :=
  match it with
  | plain c => c <> 0 /\ c <> backslash /\ stop c = false
  | escaped c => c <> 0
  end.

(** The shape of the nodes that ParseText builds: a Var node whose chain is
    the Var token, the Symbol token [=] and an Int or StringConstant token. *)
Definition var_node_shape (b : list Z) (n : ExprNode) : Prop :=
  expr_type n = ExprType_Var
  /\ tokens_length n = 3
  /\ exists var assign value,
      expr_tokens n = Some var
      /\ tokens var = Some assign
      /\ tokens assign = Some value
      /\ tokens value = None
      /\ type var = Token_Var
      /\ type assign = Token_Symbol
      /\ string_length assign = 1
      /\ rd b (string assign) = ch "="
      /\ (type value = Token_Int \/ type value = Token_StringConstant).

(** No rule of the lexer matches at any position of [s] before its
    terminator. *)
Fixpoint no_token_in (s : list Z) : bool :=
  match s with
  | [] => true
  | c :: s' => (c =? 0) || (no_rule_matches s && no_token_in s')
  end.

(** A character at which no rule of the lexer can match, whatever follows
    it. *)
Definition inert (c : Z) : bool :=
  negb (c =? newline) && negb (c =? ch "v") && negb (c =? ch "c")
  && negb (c =? quote) && negb (CharIsDigit c)
  && (CharIsSpace c || negb (CharIsSymbol c)).

(** A character of an Int token: a digit or whitespace, and neither [;] nor
    the terminator. *)
Definition int_char (c : Z) : Prop :=
  (CharIsDigit c || CharIsSpace c) = true /\ c <> ch ";" /\ c <> 0.

(** A character at which GetValue finds no value and does not stop. *)
Definition no_value_char (c : Z) : Prop :=
  c <> 0 /\ c <> quote /\ CharIsDigit c = false /\ c <> ch ";".

(** The value token is an Int or a StringConstant token whenever [isSet]
    holds. *)
Definition value_set (st : GetValueState) : Prop :=
  isSet st = true ->
  tokens (gv_value st) = None
  /\ (type (gv_value st) = Token_Int \/ type (gv_value st) = Token_StringConstant).

(** The first [n] characters at two pointers are the same. *)
Definition same_chars (a b : list Z) (n : Z) : Prop :=
  forall i, 0 <= i < n -> idx a i = idx b i.

(** A node-pointer address that the descent of [InsertKeywordIntoTree] has
    computed from the node it moved to. *)
Definition target_of_node (node_target : NodeTarget) (node : option nat) : Prop :=
  node_target = target_have_child node \/ node_target = target_no_have_child node.

(** ** The loops of main *)

Inductive InputType : Set :=
| InputType_Invalid
| InputType_OR
| InputType_WASM.

Definition OutputFlag_WASM : Z := 1.
Definition OutputFlag_C : Z := 2.
Definition OutputFlag_js : Z := 4.
Definition MAX_FILE_COUNT : Z := 4096.

(** What the argument loop of [main] sets, with the [arguments] array that
    it overwrites.  A null [char *] is [None].  The lines that [Log] writes
    are left out. *)
Record Options : Type := mkOptions {
  output_flags : Z;
  source_dir_path : option (list Z);
  build_file_path : option (list Z);
  expected_file_count : Z;
  arguments : list (option (list Z))
}.

(** [arguments[i]]. *)
Definition argument (arguments : list (option (list Z))) (i : Z) : option (list Z) :=
  match arguments !! Z.to_nat i with
  | Some a => a
  | None => None
  end.

(** [CStringMatchCaseInsensitive(arguments[i], s)]; a null pointer matches
    nothing. *)
Definition argument_is (arguments : list (option (list Z))) (i : Z)
           (s : String.string) : bool :=
  match argument arguments i with
  | Some a => CStringMatchCaseInsensitive a (str s)
  | None => false
  end.

Definition clear_argument (i : Z) (arguments : list (option (list Z)))
  : list (option (list Z)) :=
  <[Z.to_nat i := None]> arguments.

(** [for(int i = 1; i < argument_count; ++i)], from index [i] on.  The index
    grows with every iteration: [fuel] bounds the iterations that are left. *)
Fixpoint arguments_loop (fuel : nat) (argument_count : Z) (i : Z) (st : Options)
  : Options :=
  match fuel with
  | O => st
  | S fuel' =>
      if i <? argument_count then
        let args := arguments st in
        if argument_is args i "--wasm" then
          arguments_loop fuel' argument_count (i + 1)
            (mkOptions (Z.lor (output_flags st) OutputFlag_WASM) (source_dir_path st)
                       (build_file_path st) (expected_file_count st)
                       (clear_argument i args))
        else if argument_is args i "--c" then
          arguments_loop fuel' argument_count (i + 1)
            (mkOptions (Z.lor (output_flags st) OutputFlag_C) (source_dir_path st)
                       (build_file_path st) (expected_file_count st)
                       (clear_argument i args))
        else if argument_is args i "--js" then
          arguments_loop fuel' argument_count (i + 1)
            (mkOptions (Z.lor (output_flags st) OutputFlag_js) (source_dir_path st)
                       (build_file_path st) (expected_file_count st)
                       (clear_argument i args))
        else if argument_count >? i + 1 then
          if argument_is args i "--source" || argument_is args i "-s" then
            arguments_loop fuel' argument_count (i + 1 + 1)
              (mkOptions (output_flags st) (argument args (i + 1))
                         (build_file_path st) (expected_file_count st)
                         (clear_argument (i + 1) (clear_argument i args)))
          else if argument_is args i "--build_file" || argument_is args i "-b" then
            arguments_loop fuel' argument_count (i + 1 + 1)
              (mkOptions (output_flags st) (source_dir_path st)
                         (argument args (i + 1)) (expected_file_count st)
                         (clear_argument (i + 1) (clear_argument i args)))
          else arguments_loop fuel' argument_count (i + 1) st
        else
          arguments_loop fuel' argument_count (i + 1)
            (mkOptions (output_flags st) (source_dir_path st) (build_file_path st)
                       (expected_file_count st + 1) args)
      else st
  end.

(** The argument loop of [main]; [argument_count] is the length of
    [arguments]. *)
Definition main_arguments (arguments : list (option (list Z))) : Options :=
  arguments_loop (length arguments) (Z.of_nat (length arguments)) 1
                 (mkOptions 0 None None 0 arguments).

(** A zeroed [char] array of [n] elements that holds the characters
    [chars]. *)
Definition char_array (n : nat) (chars : list Z) : list Z :=
  chars ++ replicate (n - length chars) 0.

(** [snprintf(x, n, ..., s)] into such an array, for the formats of [main],
    which are [%s] followed by the characters [suffix]: at most [n - 1]
    characters are written. *)
Definition snprintf_s (n : nat) (s suffix : list Z) : list Z :=
  char_array n (firstn (n - 1) (c_string s ++ suffix)).

(** [for(int i = 0; filename_no_extension[i]; ++i)]: the index of the last
    period, [last] when there is none. *)
Fixpoint last_period_scan (s : list Z) (i last : Z) : Z :=
  match s with
  | [] => last
  | c :: s' =>
      if c =? 0 then last
      else last_period_scan s' (i + 1) (if c =? ch "." then i else last)
  end.

(** The names that [main] derives from a file name. *)
Record FileNames : Type := mkFileNames {
  filename_no_extension : list Z;
  extension : list Z;
  wasm_output_path : list Z;
  c_output_path : list Z;
  js_output_path : list Z;
  input_type : InputType
}.

Definition split_filename (filename : list Z) : FileNames :=
  let buffer := snprintf_s 256 filename [] in
  let last_period := last_period_scan buffer 0 0 in
  let filename_no_extension := <[Z.to_nat last_period := 0]> buffer in
  let extension :=
    snprintf_s 256 (suffix filename_no_extension (last_period + 1)) [] in
  mkFileNames filename_no_extension extension
              (snprintf_s 256 filename_no_extension (str ".wasm"))
              (snprintf_s 256 filename_no_extension (str ".c"))
              (snprintf_s 256 filename_no_extension (str ".js"))
              (if CStringMatchCaseInsensitive extension (str "or") then InputType_OR
               else if CStringMatchCaseInsensitive extension (str "wasm")
                    then InputType_WASM
                    else InputType_Invalid).

(** The variables of the file loop.  An element of [files] that was never
    assigned is [None]: the array has no initialiser. *)
Record FileLoop (ProcessedFile : Type) : Type := mkFileLoop {
  file_count : Z;
  files : list (option ProcessedFile);
  fl_context : ParseContext
}.
Arguments mkFileLoop {ProcessedFile} _ _ _.
Arguments file_count {ProcessedFile} _.
Arguments files {ProcessedFile} _.
Arguments fl_context {ProcessedFile} _.

Definition files_uninitialised (ProcessedFile : Type) : list (option ProcessedFile) :=
  replicate (Z.to_nat MAX_FILE_COUNT) None.

(** [for(int i = 0; i < file_count; i++)] of [main], from index [i] on.
    [process] stands for the calls of [LoadEntireFileAndNullTerminate] and
    [ProcessFile], which read and open files: it gives the processed file with
    the context after the call, or [None] when the call does not return.
    [filenames] is the array of [MAX_FILE_COUNT] names, null where
    [listFilesRecursively] stored none.  The lines written by [Log] and
    [fprintf] are left out. *)
Fixpoint file_loop {ProcessedFile : Type}
         (process : list Z -> FileNames -> Z -> ParseContext
                    -> option (ProcessedFile * ParseContext))
         (filenames : list (option (list Z))) (flags : Z)
         (fuel : nat) (i : Z) (st : FileLoop ProcessedFile)
  : Outcome (FileLoop ProcessedFile) :=
  match fuel with
  | O => OutOfFuel
  | S fuel' =>
      if i <? file_count st then
        match filenames !! Z.to_nat i with
        | None => Faults
        | Some None => file_loop process filenames flags fuel' (i + 1) st
        | Some (Some filename) =>
            let names := split_filename filename in
            match input_type names with
            | InputType_Invalid => file_loop process filenames flags fuel' (i + 1) st
            | _ =>
                match process filename names flags (fl_context st) with
                | None => OutOfFuel
                | Some (processed_file, context) =>
                    if file_count st <? MAX_FILE_COUNT then
                      file_loop process filenames flags fuel' (i + 1)
                        (mkFileLoop (file_count st + 1)
                                    (<[Z.to_nat (file_count st) := Some processed_file]>
                                       (files st))
                                    context)
                    else
                      file_loop process filenames flags fuel' (i + 1)
                        (mkFileLoop (file_count st) (files st) context)
                end
            end
        end
      else Returns st
  end.

(** The file loop as [main] enters it, with the [file_count] names that
    [listFilesRecursively] has stored.  [file_count] never grows beyond
    [MAX_FILE_COUNT], which bounds the iterations when it starts below. *)
Definition main_files {ProcessedFile : Type}
           (process : list Z -> FileNames -> Z -> ParseContext
                      -> option (ProcessedFile * ParseContext))
           (filenames : list (option (list Z))) (flags : Z) (file_count : Z)
  : Outcome (FileLoop ProcessedFile) :=
  file_loop process filenames flags (S (Z.to_nat MAX_FILE_COUNT)) 0
            (mkFileLoop file_count (files_uninitialised ProcessedFile)
                        ParseContext_zero).

(** * Properties *)

(** ** The bound of the GetValue loop is never reached *)

Lemma scan_escaped_nonneg stop s : forall escaped, 0 <= scan_escaped stop s escaped.
Proof.
  induction s as [|c s IH]; intros escaped; simpl; [lia|].
  destruct ((negb (stop c) || escaped) && negb (c =? 0)); [|lia].
  specialize (IH (if escaped then false else c =? backslash)). lia.
Qed.

Lemma scan_int_nonneg s : 0 <= scan_int s.
Proof.
  induction s as [|c s IH]; simpl; [lia|].
  destruct (negb (c =? ch ";") && negb (c =? 0)); [|lia].
  destruct (CharIsDigit c || CharIsSpace c); lia.
Qed.

(** An Int token starts at a digit, which the scan of the Int rule counts. *)
Lemma scan_int_digit c s : CharIsDigit c = true -> 1 <= scan_int (c :: s).
Proof.
  intros H. cbn [scan_int]. rewrite H. cbn [orb].
  unfold CharIsDigit in H. apply andb_true_iff in H as [H1 H2].
  apply Z.leb_le in H1, H2. change (ch "0") with 48 in H1. change (ch "9") with 57 in H2.
  destruct (Z.eqb_spec c (ch ";")) as [E|_]; [change (ch ";") with 59 in E; lia|].
  destruct (Z.eqb_spec c 0) as [E|_]; [lia|].
  cbn [negb andb]. pose proof (scan_int_nonneg s). lia.
Qed.

Lemma break_out_lower blocks s i j :
  i + 1 <= j -> i + 1 <= break_out blocks s i j.
Proof.
  intros H. induction blocks as [|blk rest IH]; simpl; [assumption|].
  unfold CStringMatchCaseSensitiveN.
  destruct (Z.eqb_spec (CalculateCStringLength blk) 0) as [E|E]; [assumption|].
  destruct (match_chars _ _ _); [|assumption].
  assert (0 <= CalculateCStringLength blk); [|lia].
  clear. induction blk as [|c blk IH]; simpl; [lia|]. destruct (c =? 0); lia.
Qed.

Lemma symbol_run_nonneg s : 0 <= symbol_run s.
Proof.
  induction s as [|c s IH]; simpl; [lia|].
  destruct (negb (c =? 0) && CharIsSymbol c); lia.
Qed.

(** The length of the token that the lexer loop returns: not negative, and
    at least 1 for an Int token. *)
Lemma scan_tokens_length buffer :
  forall s i token,
    0 <= i ->
    0 <= string_length token ->
    type token <> Token_Int ->
    0 <= string_length (scan_tokens buffer s i token)
    /\ (type (scan_tokens buffer s i token) = Token_Int ->
        1 <= string_length (scan_tokens buffer s i token)).
Proof.
  induction s as [|c s' IH]; intros i token Hi Hl Hty; [now split|].
  cbn [scan_tokens].
  destruct (c =? 0); [now split|].
  destruct ((c =? newline) && (idx s' 0 =? newline)); [split; [cbn; lia|discriminate]|].
  destruct ((c =? ch "v") && (idx s' 0 =? ch "a") && (idx s' 1 =? ch "r")).
  { split; [apply scan_escaped_nonneg|discriminate]. }
  destruct ((c =? ch "c") && (idx s' 0 =? ch "o") && (idx s' 1 =? ch "n")
            && (idx s' 2 =? ch "s") && (idx s' 3 =? ch "t")).
  { split; [apply scan_escaped_nonneg|discriminate]. }
  destruct (c =? quote).
  { split; [|discriminate]. cbn [string_length].
    pose proof (scan_escaped_nonneg quote_stop (c :: s') true). lia. }
  destruct (CharIsDigit c) eqn:Hd.
  { pose proof (scan_int_digit c s' Hd). cbn [string_length]. split; [lia|auto]. }
  destruct (CharIsSpace c); [apply IH; try assumption; lia|].
  destruct (CharIsSymbol c).
  - pose proof (break_out_lower symbolic_blocks_to_break_out (c :: s') i
                                (i + 1 + symbol_run s')) as Hb.
    pose proof (symbol_run_nonneg s').
    destruct (Z.eqb_spec (break_out symbolic_blocks_to_break_out (c :: s') i
                                    (i + 1 + symbol_run s')) 0) as [E|_]; [lia|].
    cbn [negb string_length type]. split; [lia|discriminate].
  - cbn [Z.eqb negb]. apply IH; try assumption; lia.
Qed.

Lemma RequireTokenType_Int_length b tokenizer value tokenizer' :
  RequireTokenType b tokenizer Token_Int = Some (value, tokenizer') ->
  1 <= string_length value.
Proof.
  unfold RequireTokenType.
  destruct (TokenType_eqb (type (GetNextTokenFromBuffer b tokenizer)) Token_Int) eqn:E;
    [|discriminate].
  intros H. injection H as <- _. unfold GetNextTokenFromBuffer in E |- *.
  cbn [type string_length] in E |- *.
  apply scan_tokens_length; [lia|cbn; lia|discriminate|].
  destruct (type (scan_tokens _ _ _ _)); try discriminate. reflexivity.
Qed.

Lemma rd_in_range b p : rd b p <> 0 -> 0 <= p < Z.of_nat (length b).
Proof.
  unfold rd, suffix. intros H.
  destruct (Z.ltb_spec p 0) as [Hn|Hp]; [now elim H|].
  split; [assumption|].
  destruct (Z.ltb_spec p (Z.of_nat (length b))) as [Hlt|Hge]; [assumption|].
  elim H. rewrite skipn_all2 by lia. reflexivity.
Qed.

(** The body of the GetValue loop goes on with a larger index. *)
Lemma GetValue_body_advances b link i st st' i' :
  GetValue_body b link i st = (st', Some i') -> i < i'.
Proof.
  unfold GetValue_body.
  destruct (rd b (link + i) =? quote).
  { destruct (RequireTokenType _ _ _) as [[? ?]|]; discriminate. }
  destruct (rd b (link + i) =? ch "[").
  { destruct (_ =? ch ";"); [discriminate|]. intros H. injection H as _ <-. lia. }
  destruct (rd b (link + i) =? ch "]").
  { destruct (_ =? ch ";"); [discriminate|]. intros H. injection H as _ <-. lia. }
  destruct (CharIsDigit (rd b (link + i))).
  - destruct (RequireTokenType b (gv_tokenizer st) Token_Int) as [[value tokenizer']|] eqn:E.
    + apply RequireTokenType_Int_length in E.
      destruct (_ =? ch ";"); [discriminate|]. intros H. injection H as _ <-. lia.
    + destruct (_ =? ch ";"); [discriminate|]. intros H. injection H as _ <-. lia.
  - destruct (_ =? ch ";"); [discriminate|]. intros H. injection H as _ <-. lia.
Qed.

(** With more fuel than characters from [link + i] to the end of the buffer
    the loop ends by itself: more fuel gives the same result. *)
Lemma GetValue_loop_fuel_enough b link :
  forall fuel i st,
    Z.of_nat (length b) - (link + i) < Z.of_nat fuel ->
    GetValue_loop b link (S fuel) i st = GetValue_loop b link fuel i st.
Proof.
  induction fuel as [|fuel IH]; intros i st H.
  - cbn [GetValue_loop]. destruct (Z.eqb_spec (rd b (link + i)) 0) as [|E]; [reflexivity|].
    apply rd_in_range in E. lia.
  - change (GetValue_loop b link (S (S fuel)) i st)
      with (if rd b (link + i) =? 0 then st
            else match GetValue_body b link i st with
                 | (st', Some i') => GetValue_loop b link (S fuel) i' st'
                 | (st', None) => st'
                 end).
    change (GetValue_loop b link (S fuel) i st)
      with (if rd b (link + i) =? 0 then st
            else match GetValue_body b link i st with
                 | (st', Some i') => GetValue_loop b link fuel i' st'
                 | (st', None) => st'
                 end).
    destruct (rd b (link + i) =? 0); [reflexivity|].
    destruct (GetValue_body b link i st) as [st' [i'|]] eqn:E; [|reflexivity].
    apply GetValue_body_advances in E. apply IH. lia.
Qed.

(** The fuel that GetValue passes is enough whenever [link] is not before
    the start of the buffer, as in every call made by ParseText. *)
Lemma GetValue_fuel_enough b link st :
  0 <= link ->
  forall extra,
    GetValue_loop b link (extra + S (length b)) 0 st
    = GetValue_loop b link (S (length b)) 0 st.
Proof.
  intros H. induction extra as [|extra IH]; [reflexivity|].
  rewrite <- IH. cbn [Nat.add]. apply GetValue_loop_fuel_enough. lia.
Qed.

(** ** The parse loop *)

Lemma ParseText_loop_done b fuel st token :
  TokenType_eqb (type token) Token_None = true ->
  ParseText_loop b (S fuel) st token = Some st.
Proof. intros H. simpl. now rewrite H. Qed.

Lemma ParseText_loop_continue b fuel st token st' token' :
  TokenType_eqb (type token) Token_None = false ->
  ParseText_body b st = st' ->
  (error_stack_size (context st') >? 0) = false ->
  PeekToken b (tokenizer st') = token' ->
  ParseText_loop b (S fuel) st token = ParseText_loop b fuel st' token'.
Proof. intros H1 H2 H3 H4. simpl. rewrite H1, H2, H3, H4. reflexivity. Qed.

Lemma ParseText_loop_break b fuel st token st' :
  TokenType_eqb (type token) Token_None = false ->
  ParseText_body b st = st' ->
  (error_stack_size (context st') >? 0) = true ->
  ParseText_loop b (S fuel) st token = Some st'.
Proof. intros H1 H2 H3. simpl. rewrite H1, H2, H3. reflexivity. Qed.

(** A state that the body maps to itself, with a token pending and no
    diagnostic, is never left. *)
Lemma ParseText_loop_stuck b st token :
  TokenType_eqb (type token) Token_None = false ->
  ParseText_body b st = st ->
  (error_stack_size (context st) >? 0) = false ->
  PeekToken b (tokenizer st) = token ->
  forall fuel, ParseText_loop b fuel st token = None.
Proof.
  intros H1 H2 H3 H4 fuel. induction fuel as [|fuel IH]; [reflexivity|].
  rewrite (ParseText_loop_continue b fuel st token st token); assumption.
Qed.

Ltac run_body := erewrite ParseText_loop_continue; [ | vm_compute; reflexivity ..].
Ltac run_stuck := apply ParseText_loop_stuck; vm_compute; reflexivity.

(** A pending token that is neither Var nor Symbol nor DoubleNewline is
    consumed by no branch: the body leaves the state as it is. *)
Lemma ParseText_body_unconsumed b st :
  type (GetNextTokenFromBuffer b (tokenizer st)) <> Token_Var ->
  type (GetNextTokenFromBuffer b (tokenizer st)) <> Token_Symbol ->
  type (GetNextTokenFromBuffer b (tokenizer st)) <> Token_DoubleNewline ->
  ParseText_body b st = st.
Proof.
  intros H1 H2 H3. unfold ParseText_body, RequireTokenType.
  destruct (type (GetNextTokenFromBuffer b (tokenizer st))); try contradiction;
    reflexivity.
Qed.

(** With an Int, StringConstant or Const token pending and no diagnostic in
    the collector, ParseText stays in its loop for ever. *)
Lemma ParseText_spins_on_unconsumed_token b context0 tokenizer0 :
  type (PeekToken b tokenizer0) = Token_Int
  \/ type (PeekToken b tokenizer0) = Token_StringConstant
  \/ type (PeekToken b tokenizer0) = Token_Const ->
  error_stack_size context0 <= 0 ->
  forall fuel, ParseText b fuel context0 tokenizer0 = None.
Proof.
  intros H Hz fuel. unfold ParseText, PeekToken in *.
  apply ParseText_loop_stuck.
  - destruct H as [-> | [-> | ->]]; reflexivity.
  - apply ParseText_body_unconsumed; cbn [tokenizer];
      destruct H as [-> | [-> | ->]]; discriminate.
  - cbn [context]. rewrite Z.gtb_ltb. apply Z.ltb_ge. exact Hz.
  - reflexivity.
Qed.

(** C1, the code on a buffer it does not finish.  On the one-character
    buffer [1] the lexer yields an Int token, no branch of the loop body
    consumes it, the re-peek yields it again: ParseText is still in its loop
    after any number of iterations.  The same holds for a buffer that starts
    with a string constant or with the const keyword. *)
Theorem ParseText_never_returns_on_int_token :
  forall fuel,
    ParseText input_int_only fuel ParseContext_zero (Tokenizer_start "input.or") = None
    /\ ParseText input_string_only fuel ParseContext_zero (Tokenizer_start "input.or")
       = None
    /\ ParseText input_const_only fuel ParseContext_zero (Tokenizer_start "input.or")
       = None.
Proof.
  intros fuel. repeat split; apply ParseText_spins_on_unconsumed_token;
    try (cbn; lia).
  - left. reflexivity.
  - right. left. reflexivity.
  - right. right. reflexivity.
Qed.

(** C2, the code on var directives it mishandles.  For
    [var title=<quoted Hello>;] the parse returns no node and no diagnostic:
    GetValue breaks out at the quote with a link length of 0, which the
    caller reads as failure.  For [var NAME = 123;] and
    [var NAME = <quoted STRING>;] the node is appended and the cursor is put
    back inside the value, on a token that no branch consumes: the parse
    never returns. *)
Theorem ParseText_var_directive_defects :
  (forall fuel,
      exists st,
        ParseText input_title_hello (S (S fuel)) ParseContext_zero
                  (Tokenizer_start "input.or") = Some st
        /\ result st = [] /\ retained_errors (context st) = [])
  /\ (map (node_texts input_name_123)
          (result (ParseText_body input_name_123 (start "input.or")))
      = [["var NAME "; "="; "123"]]%string
      /\ forall fuel,
        ParseText input_name_123 fuel ParseContext_zero (Tokenizer_start "input.or")
        = None)
  /\ (length (result (ParseText_body input_name_string (start "input.or"))) = 1%nat
      /\ forall fuel,
        ParseText input_name_string fuel ParseContext_zero (Tokenizer_start "input.or")
        = None).
Proof.
  split; [|split].
  - intros fuel. eexists. unfold ParseText. split.
    + run_body. apply ParseText_loop_done. vm_compute. reflexivity.
    + split; vm_compute; reflexivity.
  - split; [vm_compute; reflexivity|].
    intros [|fuel]; [reflexivity|]. unfold ParseText. run_body. run_stuck.
  - split; [vm_compute; reflexivity|].
    intros [|fuel]; [reflexivity|]. unfold ParseText. run_body. run_stuck.
Qed.

(** C5.  Parsing [var NAME 123;] pushes the diagnostic [Malformed tag.] (at
    line 1 of the file) and returns the empty node list. *)
Theorem ParseText_malformed_tag :
  forall (filename : String.string) (fuel : nat),
    exists st,
      ParseText input_name_no_assign (S fuel) ParseContext_zero
                (Tokenizer_start filename) = Some st
      /\ result st = []
      /\ retained_errors (context st)
         = [mkParseError filename 1 "Malformed tag."]
      /\ error_stack_size (context st) = 1.
Proof.
  intros filename fuel. eexists. unfold ParseText. split.
  - eapply ParseText_loop_break; vm_compute; reflexivity.
  - repeat split; vm_compute; reflexivity.
Qed.

(** C8.  Parsing [var a=1;], a blank line, [var b=2;] returns exactly two
    Var nodes, the one of [a] first, with no diagnostic.  After the first
    directive the pending token is the DoubleNewline; the iteration that
    consumes it moves the cursor past both newlines, adds two to the line
    counter and leaves the node list unchanged. *)
Theorem ParseText_two_vars_blank_line :
  forall (filename : String.string) (fuel : nat),
    (exists st,
        ParseText input_two_vars (4 + fuel) ParseContext_zero
                  (Tokenizer_start filename) = Some st
        /\ map (node_texts input_two_vars) (result st)
           = [["var a"; "="; "1"]; ["var b"; "="; "2"]]%string
        /\ map expr_type (result st) = [ExprType_Var; ExprType_Var]
        /\ map tokens_length (result st) = [3; 3]
        /\ retained_errors (context st) = [])
    /\ (let st1 := ParseText_body input_two_vars (start filename) in
        let st2 := ParseText_body input_two_vars st1 in
        type (PeekToken input_two_vars (tokenizer st1)) = Token_DoubleNewline
        /\ string (PeekToken input_two_vars (tokenizer st1)) = 8
        /\ result st2 = result st1
        /\ length (result st1) = 1%nat
        /\ at_ (tokenizer st2) = 10
        /\ line (tokenizer st2) = line (tokenizer st1) + 2
        /\ context st2 = context st1).
Proof.
  intros filename fuel. split.
  - eexists. unfold ParseText. split.
    + change (4 + fuel)%nat with (S (S (S (S fuel)))).
      run_body. run_body. run_body.
      apply ParseText_loop_done. vm_compute. reflexivity.
    + repeat split; vm_compute; reflexivity.
  - repeat split; vm_compute; reflexivity.
Qed.

(** ** Integer values and the last-character check *)

(** C4, the code on the claim's input.  The Int rule of the lexer takes
    whitespace into the span, so the value of [var NAME = 12 3;] is lexed as
    the one Int token [12 3].  GetValue tests the last character of the span
    only: called as ParseText calls it, it accepts the span, which ends in a
    digit, returns a non-zero length and pushes nothing.  The iteration of
    ParseText that handles the directive appends the Var node with the value
    [12 3] and leaves the collector empty, and no run of the parse returns.
    The check itself is there: for [var NAME = 12 ;], whose span ends in a
    space, the parse returns no node, with the InvalidIntegerTerminator
    diagnostic first in the collector. *)
Theorem int_with_embedded_space_is_accepted :
  forall filename : String.string,
    (let token := GetNextTokenFromBuffer input_name_12_3 (mkTokenizer 10 1 filename 0) in
     type token = Token_Int
     /\ string token = 11
     /\ string_of_chars (token_text input_name_12_3 token) = "12 3"%string)
    /\ (let context3 :=
          ParseContextAllocateToken
            (ParseContextAllocateToken (ParseContextAllocateToken ParseContext_zero)) in
        let '(link_length, context4, _, value) :=
          GetValue input_name_12_3 context3 (mkTokenizer 10 1 filename 0) 10 Token_zero in
        link_length <> 0
        /\ retained_errors context4 = []
        /\ error_stack_size context4 = 0
        /\ type value = Token_Int
        /\ string_of_chars (token_text input_name_12_3 value) = "12 3"%string)
    /\ (let st1 := ParseText_body input_name_12_3 (start filename) in
        retained_errors (context st1) = []
        /\ error_stack_size (context st1) = 0
        /\ map (node_texts input_name_12_3) (result st1)
           = [["var NAME "; "="; "12 3"]]%string)
    /\ (forall fuel : nat,
           ParseText input_name_12_3 fuel ParseContext_zero (Tokenizer_start filename)
           = None)
    /\ (forall fuel : nat,
           exists st,
             ParseText input_name_12_space (S fuel) ParseContext_zero
                       (Tokenizer_start filename) = Some st
             /\ result st = []
             /\ retained_errors (context st)
                = [mkParseError filename 1 (msg_bad_int (ch " "));
                   mkParseError filename 1 msg_expected_value]).
Proof.
  intros filename. split; [|split; [|split; [|split]]].
  - vm_compute. repeat split.
  - vm_compute. repeat split. discriminate.
  - repeat split; vm_compute; reflexivity.
  - intros [|fuel]; [reflexivity|]. unfold ParseText. run_body. run_stuck.
  - intros fuel. eexists. unfold ParseText. split.
    + eapply ParseText_loop_break; vm_compute; reflexivity.
    + split; vm_compute; reflexivity.
Qed.

(** ** Keyword prefix tree *)

(** C3, the code on key sequences it mishandles.  After inserting [abc] and
    then [abd] into the empty tree, the lookup of [abc] returns its value and
    the lookup of [abd] finds nothing.  After inserting [ab] and then its strict
    prefix [a], the lookup of [a] stops at the split node and returns length
    0 with a null value.  Inserting [a] and then [ab], or [a] and then [b],
    stores through the field address of a null node. *)
Theorem prefix_tree_lookup_defects :
  forall fuel : nat,
    let none := @nil KeywordPrefixTreeNode in
    let abc_abd :=
      insert_all (2 + fuel) none None ParseContext_zero [("abc", "1"); ("abd", "2")]%string in
    let ab_a :=
      insert_all (2 + fuel) none None ParseContext_zero [("ab", "1"); ("a", "2")]%string in
    (exists heap tree context, abc_abd = Returns (heap, tree, context))
    /\ lookup_in (2 + fuel) abc_abd "abc" = Returns (1, Some (Some (str "1")))
    /\ lookup_in (3 + fuel) abc_abd "abd" = Returns (0, Some None)
    /\ (exists heap tree context, ab_a = Returns (heap, tree, context))
    /\ lookup_in (2 + fuel) ab_a "ab" = Returns (1, Some (Some (str "1")))
    /\ lookup_in (1 + fuel) ab_a "a" = Returns (0, Some None)
    /\ insert_all (2 + fuel) none None ParseContext_zero [("a", "1"); ("ab", "2")]%string
       = Faults
    /\ insert_all (2 + fuel) none None ParseContext_zero [("a", "1"); ("b", "2")]%string
       = Faults.
Proof.
  intros fuel. cbv zeta.
  repeat split; try (do 3 eexists); vm_compute; reflexivity.
Qed.

(** ** Nodes and diagnostics *)

(** Every run of the loop body appends at most one node. *)
Lemma ParseText_body_appends_at_most_one b st :
  exists l, result (ParseText_body b st) = result st ++ l /\ (length l <= 1)%nat.
Proof.
  unfold ParseText_body.
  destruct (RequireTokenType b (tokenizer st) Token_Var) as [[isVar tokenizer1]|].
  - destruct (RequireToken _ _ _) as [[isAssign tokenizer3]|].
    + destruct (GetValue _ _ _ _ _) as [[[len c4] t4] v4].
      destruct (negb (len =? 0)); simpl.
      * eexists [_]. split; [reflexivity|simpl; lia].
      * exists []. rewrite app_nil_r. split; [reflexivity|simpl; lia].
    + exists []. rewrite app_nil_r. split; [reflexivity|simpl; lia].
  - exists []. rewrite app_nil_r. split; [|simpl; lia].
    destruct (RequireTokenType b (tokenizer st) Token_Symbol) as [[symbol tokenizer1]|].
    + repeat match goal with |- context [if ?c then _ else _] => destruct c end;
        reflexivity.
    + destruct (RequireTokenType b (tokenizer st) Token_DoubleNewline) as [[? ?]|];
        reflexivity.
Qed.

(** C6, the code on an input that violates the claim.  For [var a = 1 x2;]
    GetValue pushes the InvalidIntegerTerminator diagnostic for the span [1 ]
    that ends in a space; unlike the string branch, which leaves the loop
    after its diagnostic, the integer branch scans on, accepts [2] and
    GetValue returns a non-zero length with the diagnostic in the collector.
    ParseText then appends the Var node: the iteration starts with an empty
    collector and ends with one diagnostic and one node, appended after the
    diagnostic was pushed, and that is what the parse returns. *)
Theorem node_appended_after_diagnostic :
  forall filename : String.string,
    (let context3 :=
       ParseContextAllocateToken
         (ParseContextAllocateToken (ParseContextAllocateToken ParseContext_zero)) in
     let '(link_length, context4, _, value) :=
       GetValue input_bad_then_good context3 (mkTokenizer 7 1 filename 0) 7
                Token_zero in
     link_length = 3
     /\ error_stack_size context4 = 1
     /\ map message (retained_errors context4) = [msg_bad_int (ch " ")]
     /\ string_of_chars (token_text input_bad_then_good value) = "2"%string)
    /\ (let st0 := start filename in
        let st1 := ParseText_body input_bad_then_good st0 in
        retained_errors (context st0) = []
        /\ result st0 = []
        /\ map message (retained_errors (context st1)) = [msg_bad_int (ch " ")]
        /\ map (node_texts input_bad_then_good) (result st1)
           = [["var a "; "="; "2"]]%string)
    /\ (forall fuel : nat,
           exists st,
             ParseText input_bad_then_good (S fuel) ParseContext_zero
                       (Tokenizer_start filename) = Some st
             /\ map (node_texts input_bad_then_good) (result st)
                = [["var a "; "="; "2"]]%string
             /\ retained_errors (context st)
                = [mkParseError filename 1 (msg_bad_int (ch " "))]).
Proof.
  intros filename. split; [|split].
  - vm_compute. repeat split.
  - repeat split; vm_compute; reflexivity.
  - intros fuel. eexists. unfold ParseText. split.
    + eapply ParseText_loop_break; vm_compute; reflexivity.
    + split; vm_compute; reflexivity.
Qed.

(** ** Error collector *)

Lemma take_take_app {A} (n : nat) (a b : list A) :
  take n (take n a ++ b) = take n (a ++ b).
Proof.
  revert n. induction a as [|x a IH]; intros [|n]; simpl; try reflexivity.
  now rewrite IH.
Qed.

Lemma omap_id_map_Some {A} (l : list A) : omap id (map Some l) = l.
Proof. induction l as [|x l IH]; simpl; [reflexivity|]. f_equal. exact IH. Qed.

Lemma collector_holds_retained context errs :
  collector_holds context errs -> retained_errors context = errs.
Proof.
  intros (stack & Hs & _ & _ & Hsz & _ & Ht). unfold retained_errors.
  rewrite Hs, Hsz, Nat2Z.id, Ht. apply omap_id_map_Some.
Qed.

(** The first push allocates the log and stores the diagnostic. *)
Lemma PushParseError_first context tokenizer message :
  error_stack context = None ->
  collector_holds (PushParseError context tokenizer message)
                  [mkParseError (file tokenizer) (line tokenizer) message].
Proof.
  intros H. unfold PushParseError. rewrite H. simpl.
  eexists. split; [reflexivity|]. repeat split. simpl. lia.
Qed.

(** A later push stores the diagnostic in the next free slot, or, when the
    log is full, returns the context as it was. *)
Lemma PushParseError_next context tokenizer message errs :
  collector_holds context errs ->
  collector_holds (PushParseError context tokenizer message)
                  (take 32 (errs ++ [mkParseError (file tokenizer) (line tokenizer) message]))
  /\ (length errs = 32%nat -> PushParseError context tokenizer message = context).
Proof.
  intros (stack & Hs & Hmax & Hlen & Hsz & Hle & Ht).
  unfold PushParseError. rewrite Hs, Hmax, Hsz.
  destruct (Z.of_nat (length errs) <? 32) eqn:E.
  - apply Z.ltb_lt in E. split; [|lia].
    assert (length errs < 32)%nat as Hlt by lia.
    rewrite take_ge by (rewrite length_app; simpl; lia).
    eexists. simpl. rewrite Hs, Hsz. simpl. split; [reflexivity|].
    rewrite Nat2Z.id, length_insert, length_app. simpl.
    repeat split; try lia.
    replace (length errs + 1)%nat with (S (length errs)) by lia.
    rewrite (take_S_r _ _ (Some (mkParseError (file tokenizer) (line tokenizer) message))).
    + rewrite take_insert_ge by lia. rewrite Ht, map_app. reflexivity.
    + apply list_lookup_insert_eq. lia.
  - apply Z.ltb_ge in E. assert (length errs = 32%nat) as H32 by lia. split.
    + rewrite take_app_le by lia. rewrite take_ge by lia.
      exists stack. repeat split; assumption.
    + reflexivity.
Qed.

Lemma push_all_holds pushes :
  forall context errs,
    collector_holds context errs ->
    collector_holds (push_all context pushes) (take 32 (errs ++ map error_of pushes)).
Proof.
  induction pushes as [|[tokenizer message] pushes IH]; intros context errs H.
  - simpl. rewrite app_nil_r, take_ge; [assumption|].
    destruct H as (? & _ & _ & _ & _ & ? & _). assumption.
  - simpl. destruct (PushParseError_next context tokenizer message errs H) as [H' _].
    apply IH in H'. rewrite take_take_app in H'.
    now rewrite <- app_assoc in H'.
Qed.

Lemma push_all_full pushes :
  forall context errs,
    collector_holds context errs ->
    length errs = 32%nat ->
    push_all context pushes = context.
Proof.
  induction pushes as [|[tokenizer message] pushes IH]; intros context errs H H32;
    [reflexivity|].
  simpl. destruct (PushParseError_next context tokenizer message errs H) as [_ Heq].
  rewrite (Heq H32). now apply (IH context errs).
Qed.

Lemma push_all_from_empty context pushes :
  error_stack context = None ->
  pushes <> [] ->
  collector_holds (push_all context pushes) (take 32 (map error_of pushes)).
Proof.
  intros H Hne. destruct pushes as [|[tokenizer message] pushes]; [congruence|].
  simpl push_all.
  apply (push_all_holds pushes _ _ (PushParseError_first context tokenizer message H)).
Qed.

Lemma collector_state_retained context errs :
  collector_state context errs -> retained_errors context = errs /\ (length errs <= 32)%nat.
Proof.
  intros [[H ->]|H].
  - unfold retained_errors. rewrite H. split; [reflexivity|simpl; lia].
  - split; [now apply collector_holds_retained|].
    destruct H as (? & _ & _ & _ & _ & ? & _). assumption.
Qed.

Lemma push_all_state pushes context errs :
  collector_state context errs ->
  collector_state (push_all context pushes) (take 32 (errs ++ map error_of pushes)).
Proof.
  intros [[H ->]|H].
  - destruct pushes as [|p pushes]; [left; now split|].
    right. apply push_all_from_empty; [assumption|discriminate].
  - right. now apply push_all_holds.
Qed.

(** C7, counterexample.  A context that holds one earlier diagnostic retains
    31 of forty pushes, not min(40, 32) of them: the earlier diagnostic has
    taken a slot. *)
Lemma earlier_diagnostic_takes_a_slot :
  length (retained_errors context_with_one_error) = 1%nat
  /\ length (newly_retained context_with_one_error pushes_40) = 31%nat
  /\ length (newly_retained context_with_one_error pushes_40)
     <> Nat.min (length pushes_40) 32
  /\ newly_retained context_with_one_error pushes_40
     <> take 32 (map error_of pushes_40).
Proof.
  split; [reflexivity|]. split; [vm_compute; reflexivity|].
  split; [vm_compute; discriminate|].
  intros H. apply (f_equal (@length ParseError)) in H. vm_compute in H. discriminate.
Qed.

(** C7, as the code has it.  The collector of a context has 32 slots for
    all the diagnostics pushed into that context.  When it holds [errs],
    pushing a list of diagnostics leaves it with the first 32 of [errs]
    followed by the pushes, in order: the earlier diagnostics stay, and of
    the N pushes the first min(N, 32 - length errs) are retained, min(N, 32)
    on a context that held none.  Once 32 diagnostics are held, any further
    pushes return the context unchanged: the log, the count and the arena are
    as before. *)
Theorem PushParseError_keeps_first_32 :
  forall (context : ParseContext) (errs : list ParseError)
         (pushes : list (Tokenizer * String.string)),
    collector_state context errs ->
    let context' := push_all context pushes in
    retained_errors context' = take 32 (errs ++ map error_of pushes)
    /\ newly_retained context pushes = take (32 - length errs) (map error_of pushes)
    /\ length (newly_retained context pushes)
       = Nat.min (length pushes) (32 - length errs)
    /\ (errs = [] ->
        retained_errors context' = take 32 (map error_of pushes)
        /\ length (retained_errors context') = Nat.min (length pushes) 32)
    /\ collector_state context' (take 32 (errs ++ map error_of pushes))
    /\ forall more,
        (32 <= length errs + length pushes)%nat ->
        push_all context (pushes ++ more) = context'.
Proof.
  intros context errs pushes H context'.
  destruct (collector_state_retained context errs H) as [Hr Hle].
  pose proof (push_all_state pushes context errs H) as H'. fold context' in H'.
  destruct (collector_state_retained _ _ H') as [Hr' _].
  assert (take 32 (errs ++ map error_of pushes)
          = errs ++ take (32 - length errs) (map error_of pushes)) as Ht.
  { rewrite take_app. rewrite take_ge by assumption. reflexivity. }
  assert (newly_retained context pushes = take (32 - length errs) (map error_of pushes))
    as Hn.
  { unfold newly_retained. fold context'. rewrite Hr, Hr', Ht.
    apply drop_app_length. }
  split; [assumption|]. split; [assumption|]. split.
  { rewrite Hn, length_take, length_map. lia. }
  split.
  { intros ->. split; [exact Hr'|]. rewrite Hr'. cbn [app].
    rewrite length_take, length_map. lia. }
  split; [assumption|].
  intros more H32. unfold push_all at 1. rewrite fold_left_app.
  fold (push_all context pushes). fold context'.
  destruct H' as [[Hnone Hnil]|Hholds].
  - exfalso. apply (f_equal (@length ParseError)) in Hnil.
    rewrite length_take, length_app, length_map in Hnil.
    change (length (@nil ParseError)) with 0%nat in Hnil. lia.
  - apply (push_all_full more _ _ Hholds).
    rewrite length_take, length_app, length_map. lia.
Qed.

Lemma PushParseError_keeps_first_32_witness :
  (retained_errors (push_all ParseContext_zero pushes_40)
   = take 32 (map error_of pushes_40)
   /\ length (retained_errors (push_all ParseContext_zero pushes_40)) = 32%nat)
  /\ retained_errors (push_all context_with_one_error pushes_40)
     = mkParseError "first.or" 7 msg_malformed_tag :: take 31 (map error_of pushes_40)
  /\ length (newly_retained context_with_one_error pushes_40) = 31%nat.
Proof.
  split.
  - destruct (PushParseError_keeps_first_32 ParseContext_zero [] pushes_40)
      as (_ & _ & _ & H & _); [left; split; reflexivity|].
    exact (H eq_refl).
  - destruct (PushParseError_keeps_first_32
                context_with_one_error
                [mkParseError "first.or" 7 msg_malformed_tag] pushes_40)
      as (H1 & _ & H3 & _).
    + right. apply PushParseError_first. reflexivity.
    + split; [exact H1|exact H3].
Defined.

(** ** Lexer *)

Lemma skipn_S_tl {A} (n : nat) (l : list A) : skipn (S n) l = tl (skipn n l).
Proof.
  revert l. induction n as [|n IH]; intros [|x l]; try reflexivity.
  apply (IH l).
Qed.

Lemma suffix_next b p c s : suffix b p = c :: s -> 0 <= p /\ suffix b (p + 1) = s.
Proof.
  unfold suffix. destruct (p <? 0) eqn:E; [discriminate|].
  apply Z.ltb_ge in E. intros H. split; [assumption|].
  replace (p + 1 <? 0) with false by (symmetry; apply Z.ltb_ge; lia).
  replace (Z.to_nat (p + 1)) with (S (Z.to_nat p)) by lia.
  now rewrite skipn_S_tl, H.
Qed.

Lemma no_rule_matches_cons s :
  no_rule_matches s = true -> exists c s', s = c :: s'.
Proof. destruct s as [|c s']; [discriminate|]. intros _. now exists c, s'. Qed.

(** Where no rule matches, the loop moves on to the next character with the
    token untouched. *)
Lemma scan_tokens_skip buffer c s' i token :
  no_rule_matches (c :: s') = true ->
  scan_tokens buffer (c :: s') i token = scan_tokens buffer s' (i + 1) token.
Proof.
  intros H. cbn [no_rule_matches] in H.
  rewrite !andb_true_iff, !negb_true_iff in H.
  destruct H as ((((((H0 & H1) & H2) & H3) & H4) & H5) & H6).
  cbn [scan_tokens]. rewrite H0, H1, H2, H3, H4, H5.
  destruct (CharIsSpace c); [reflexivity|].
  simpl in H6. apply negb_true_iff in H6. rewrite H6. reflexivity.
Qed.

Lemma scan_tokens_none_match b buffer token :
  forall k p i,
    none_match_before b p k = true ->
    scan_tokens buffer (suffix b p) i token
    = scan_tokens buffer (suffix b (p + Z.of_nat k)) (i + Z.of_nat k) token.
Proof.
  induction k as [|k IH]; intros p i H.
  - now rewrite !Z.add_0_r.
  - cbn [none_match_before] in H. apply andb_true_iff in H as [H1 H2].
    destruct (no_rule_matches_cons _ H1) as (c & s' & E).
    rewrite E in H1 |- *. rewrite (scan_tokens_skip _ _ _ _ _ H1).
    apply suffix_next in E as [_ E]. rewrite <- E, (IH _ _ H2).
    f_equal; [f_equal|]; lia.
Qed.

Lemma idx_tl s i : 0 <= i -> idx (tl s) i = idx s (i + 1).
Proof.
  intros H. unfold idx.
  replace (i <? 0) with false by (symmetry; apply Z.ltb_ge; lia).
  replace (i + 1 <? 0) with false by (symmetry; apply Z.ltb_ge; lia).
  replace (Z.to_nat (i + 1)) with (S (Z.to_nat i)) by lia.
  destruct s as [|x s]; simpl; [now destruct (Z.to_nat i)|reflexivity].
Qed.

Lemma literal_at_var b p :
  literal_at b p "var" = true ->
  exists s', suffix b p = ch "v" :: s' /\ idx s' 0 = ch "a" /\ idx s' 1 = ch "r".
Proof.
  unfold literal_at. destruct (suffix b p) as [|c s']; [discriminate|].
  cbn [String.length match_chars tl]. intros H.
  destruct (Z.eqb_spec (idx (c :: s') 0) (idx (str "var") 0)) as [E1|]; [|discriminate].
  destruct (Z.eqb_spec (idx s' 0) (idx (tl (str "var")) 0)) as [E2|]; [|discriminate].
  destruct (Z.eqb_spec (idx (tl s') 0) (idx (tl (tl (str "var"))) 0)) as [E3|];
    [|discriminate].
  rewrite idx_tl in E3 by lia.
  exists s'. split; [f_equal; exact E1|]. split; assumption.
Qed.

Lemma literal_at_const b p :
  literal_at b p "const" = true ->
  exists s', suffix b p = ch "c" :: s'
             /\ idx s' 0 = ch "o" /\ idx s' 1 = ch "n"
             /\ idx s' 2 = ch "s" /\ idx s' 3 = ch "t".
Proof.
  unfold literal_at. destruct (suffix b p) as [|c s']; [discriminate|].
  cbn [String.length match_chars tl]. intros H.
  destruct (Z.eqb_spec (idx (c :: s') 0) (idx (str "const") 0)) as [E1|]; [|discriminate].
  destruct (Z.eqb_spec (idx s' 0) (idx (tl (str "const")) 0)) as [E2|]; [|discriminate].
  destruct (Z.eqb_spec (idx (tl s') 0) (idx (tl (tl (str "const"))) 0)) as [E3|];
    [|discriminate].
  destruct (Z.eqb_spec (idx (tl (tl s')) 0) (idx (tl (tl (tl (str "const")))) 0)) as [E4|];
    [|discriminate].
  destruct (Z.eqb_spec (idx (tl (tl (tl s'))) 0)
                       (idx (tl (tl (tl (tl (str "const"))))) 0)) as [E5|];
    [|discriminate].
  rewrite idx_tl in E3 by lia.
  rewrite !idx_tl in E4 by lia. rewrite !idx_tl in E5 by lia.
  exists s'. split; [f_equal; exact E1|]. repeat split; assumption.
Qed.

(** C9.  When no rule matches at the [k] positions from the cursor on and
    the characters v, a, r stand at position [k], the next token is a Var
    token that starts there, whatever precedes or follows the three
    characters; its length is what the escape-aware scan from there yields.
    Likewise for the five characters of const and the Const token. *)
Theorem keyword_tokens_need_no_word_boundary :
  forall (b : list Z) (tokenizer : Tokenizer) (k : nat),
    none_match_before b (at_ tokenizer) k = true ->
    let p := at_ tokenizer + Z.of_nat k in
    let token := GetNextTokenFromBuffer b tokenizer in
    (literal_at b p "var" = true ->
     type token = Token_Var
     /\ string token = p
     /\ string_length token = scan_escaped var_stop (suffix b p) true)
    /\ (literal_at b p "const" = true ->
        type token = Token_Const
        /\ string token = p
        /\ string_length token = scan_escaped const_stop (suffix b p) true).
Proof.
  intros b tokenizer k H p token. subst token. unfold GetNextTokenFromBuffer.
  rewrite (scan_tokens_none_match b _ _ k _ 0 H). fold p. split; intros L.
  - destruct (literal_at_var _ _ L) as (s' & E & Ha & Hr). rewrite E.
    cbn [scan_tokens]. rewrite Ha, Hr. cbn. repeat split.
  - destruct (literal_at_const _ _ L) as (s' & E & Ho & Hn & Hs & Ht). rewrite E.
    cbn [scan_tokens]. rewrite Ho, Hn, Hs, Ht. cbn. repeat split.
Qed.

Lemma keyword_tokens_need_no_word_boundary_witness :
  (none_match_before input_covariant 0 2 = true
   /\ literal_at input_covariant 2 "var" = true
   /\ none_match_before input_reconstruct 0 2 = true
   /\ literal_at input_reconstruct 2 "const" = true)
  /\ (let token := GetNextTokenFromBuffer input_covariant (Tokenizer_start "input.or") in
      type token = Token_Var
      /\ string token = 2
      /\ string_of_chars (token_text input_covariant token) = "variant"%string)
  /\ (let token := GetNextTokenFromBuffer input_reconstruct (Tokenizer_start "input.or") in
      type token = Token_Const
      /\ string token = 2
      /\ string_of_chars (token_text input_reconstruct token) = "construct"%string).
Proof.
  split; [repeat split; vm_compute; reflexivity|]. split.
  - destruct (keyword_tokens_need_no_word_boundary
                input_covariant (Tokenizer_start "input.or") 2 eq_refl) as [H _].
    destruct (H eq_refl) as (H1 & H2 & H3).
    split; [exact H1|]. split; [exact H2|]. vm_compute. reflexivity.
  - destruct (keyword_tokens_need_no_word_boundary
                input_reconstruct (Tokenizer_start "input.or") 2 eq_refl) as [_ H].
    destruct (H eq_refl) as (H1 & H2 & H3).
    split; [exact H1|]. split; [exact H2|]. vm_compute. reflexivity.
Defined.

(** ** Symbol tokens *)

Lemma CharIsSymbol_cases c :
  CharIsSymbol c = true ->
  c = ch "=" \/ c = ch "{" \/ c = ch "}" \/ c = ch "*" \/ c = ch "|" \/ c = ch "`".
Proof.
  unfold CharIsSymbol, symbols. cbn [existsb].
  rewrite !orb_true_iff, !Z.eqb_eq. intuition (auto; discriminate).
Qed.

(** Every character of the symbol set is one of the break-out literals, so
    a Symbol token is one character long. *)
Lemma break_out_symbol c s' i j :
  CharIsSymbol c = true ->
  break_out symbolic_blocks_to_break_out (c :: s') i j = i + 1.
Proof.
  intros H. apply CharIsSymbol_cases in H.
  destruct H as [-> | [-> | [-> | [-> | [-> | ->]]]]]; reflexivity.
Qed.

(** A Symbol token returned by the loop starts at a character of the symbol
    set and has length 1. *)
Lemma scan_tokens_symbol buffer :
  forall s i token,
    0 <= i ->
    type token <> Token_Symbol ->
    type (scan_tokens buffer s i token) = Token_Symbol ->
    exists k c rest,
      drop k s = c :: rest
      /\ CharIsSymbol c = true
      /\ string (scan_tokens buffer s i token) = buffer + (i + Z.of_nat k)
      /\ string_length (scan_tokens buffer s i token) = 1.
Proof.
  induction s as [|c s' IH]; intros i token Hi Hty H; [contradiction|].
  cbn [scan_tokens] in H |- *.
  destruct (c =? 0); [contradiction|].
  destruct ((c =? newline) && (idx s' 0 =? newline)); [discriminate|].
  destruct ((c =? ch "v") && (idx s' 0 =? ch "a") && (idx s' 1 =? ch "r"));
    [discriminate|].
  destruct ((c =? ch "c") && (idx s' 0 =? ch "o") && (idx s' 1 =? ch "n")
            && (idx s' 2 =? ch "s") && (idx s' 3 =? ch "t")); [discriminate|].
  destruct (c =? quote); [discriminate|].
  destruct (CharIsDigit c); [discriminate|].
  assert (forall tok, type tok <> Token_Symbol ->
                      type (scan_tokens buffer s' (i + 1) tok) = Token_Symbol ->
                      exists k c0 rest,
                        drop k (c :: s') = c0 :: rest
                        /\ CharIsSymbol c0 = true
                        /\ string (scan_tokens buffer s' (i + 1) tok)
                           = buffer + (i + Z.of_nat k)
                        /\ string_length (scan_tokens buffer s' (i + 1) tok) = 1) as Hnext.
  { intros tok Htok Hs.
    destruct (IH (i + 1) tok ltac:(lia) Htok Hs) as (k & c0 & rest & Hd & Hc & Hp & Hl).
    exists (S k), c0, rest. repeat split; try assumption. rewrite Hp. f_equal. lia. }
  destruct (CharIsSpace c); [now apply Hnext|].
  destruct (CharIsSymbol c) eqn:Hsym.
  - rewrite break_out_symbol in H |- * by assumption.
    destruct (Z.eqb_spec (i + 1) 0) as [E|_]; [lia|]. cbn.
    exists 0%nat, c, s'. repeat split; try assumption; f_equal; lia.
  - cbn in H |- *. now apply Hnext.
Qed.

Lemma suffix_drop b p k :
  0 <= p -> suffix b (p + Z.of_nat k) = drop k (suffix b p).
Proof.
  intros H. unfold suffix.
  replace (p <? 0) with false by (symmetry; apply Z.ltb_ge; lia).
  replace (p + Z.of_nat k <? 0) with false by (symmetry; apply Z.ltb_ge; lia).
  replace (Z.to_nat (p + Z.of_nat k)) with (Z.to_nat p + k)%nat by lia.
  now rewrite drop_drop.
Qed.

(** The token under the cursor, when it is a Symbol: one character of the
    symbol set. *)
Lemma GetNextTokenFromBuffer_symbol b tokenizer :
  type (GetNextTokenFromBuffer b tokenizer) = Token_Symbol ->
  exists c rest,
    suffix b (string (GetNextTokenFromBuffer b tokenizer)) = c :: rest
    /\ CharIsSymbol c = true
    /\ string_length (GetNextTokenFromBuffer b tokenizer) = 1.
Proof.
  unfold GetNextTokenFromBuffer. cbn [type string string_length]. intros H.
  destruct (suffix b (at_ tokenizer)) as [|c0 s0] eqn:Es; [discriminate|].
  rewrite <- Es in H |- *.
  apply scan_tokens_symbol in H; [|lia|discriminate].
  destruct H as (k & c & rest & Hd & Hc & Hp & Hl).
  exists c, rest. rewrite Hp, Hl. repeat split; try assumption.
  rewrite Z.add_0_l, suffix_drop; [assumption|].
  rewrite Es in Hd. exact (proj1 (suffix_next _ _ _ _ Es)).
Qed.

(** Moving the start of the scan by one position. *)
Lemma scan_tokens_shift buffer :
  forall s i token,
    0 <= i ->
    scan_tokens buffer s (i + 1) token = scan_tokens (buffer + 1) s i token.
Proof.
  induction s as [|c s' IH]; intros i token Hi; [reflexivity|].
  cbn [scan_tokens].
  replace (buffer + 1 + i) with (buffer + (i + 1)) by lia.
  destruct (CharIsSymbol c) eqn:Hsym.
  - rewrite !break_out_symbol by assumption.
    rewrite !(IH (i + 1)) by lia.
    destruct (Z.eqb_spec (i + 1 + 1) 0) as [E|_]; [lia|].
    destruct (Z.eqb_spec (i + 1) 0) as [E|_]; [lia|].
    replace (i + 1 + 1 - (i + 1)) with (i + 1 - i) by lia. reflexivity.
  - rewrite !(IH (i + 1)) by lia. cbn [Z.eqb negb]. reflexivity.
Qed.

(** A [;] under the cursor yields no token: the scan goes on from the next
    character. *)
Lemma GetNextTokenFromBuffer_skips_semicolon b tokenizer :
  rd b (at_ tokenizer) = ch ";" ->
  GetNextTokenFromBuffer b tokenizer
  = GetNextTokenFromBuffer b (mkTokenizer (at_ tokenizer + 1) (line tokenizer)
                                          (file tokenizer)
                                          (break_text_by_commas tokenizer)).
Proof.
  unfold rd, GetNextTokenFromBuffer. cbn [at_].
  destruct (suffix b (at_ tokenizer)) as [|c s'] eqn:Es; [discriminate|].
  intros H. change (c = ch ";") in H. subst c.
  assert (no_rule_matches (ch ";" :: s') = true) as Hskip by reflexivity.
  rewrite (scan_tokens_skip _ _ _ _ _ Hskip).
  apply suffix_next in Es as [_ Es]. rewrite Es.
  rewrite <- (scan_tokens_shift (at_ tokenizer) s' 0 Token_zero) by lia.
  reflexivity.
Qed.

Lemma unexpected_symbol_not_semicolon b symbol c rest :
  suffix b (string symbol) = c :: rest ->
  CharIsSymbol c = true ->
  string_length symbol = 1 ->
  string_of_chars (token_text b symbol) <> ";"%string
  /\ msg_unexpected_symbol b symbol <> "Unexpected symbol ';'"%string.
Proof.
  intros Hs Hc Hl. unfold msg_unexpected_symbol, token_text. rewrite Hs, Hl.
  apply CharIsSymbol_cases in Hc.
  destruct Hc as [-> | [-> | [-> | [-> | [-> | ->]]]]]; split; discriminate.
Qed.

(** The Symbol token that ParseText takes from the lexer never renders the
    diagnostic for [;]. *)
Lemma RequireTokenType_symbol_message b tokenizer symbol tokenizer1 :
  RequireTokenType b tokenizer Token_Symbol = Some (symbol, tokenizer1) ->
  msg_unexpected_symbol b symbol <> msg_unexpected_semicolon.
Proof.
  unfold RequireTokenType.
  destruct (TokenType_eqb (type (GetNextTokenFromBuffer b tokenizer)) Token_Symbol) eqn:E;
    [|discriminate].
  intros H. injection H as <- _.
  assert (type (GetNextTokenFromBuffer b tokenizer) = Token_Symbol) as Hty.
  { destruct (type (GetNextTokenFromBuffer b tokenizer)); try discriminate. reflexivity. }
  destruct (GetNextTokenFromBuffer_symbol b tokenizer Hty) as (c & rest & Hs & Hc & Hl).
  exact (proj2 (unexpected_symbol_not_semicolon _ _ _ _ Hs Hc Hl)).
Qed.

Lemma In_omap_id {A} (l : list (option A)) (e : A) :
  In e (omap id l) <-> In (Some e) l.
Proof.
  induction l as [|[x|] l IH].
  - simpl. tauto.
  - change (omap id (Some x :: l)) with (x :: omap id l). cbn [In]. rewrite IH.
    split; intros [H|H]; auto; [left; now f_equal|left; now injection H].
  - change (omap id (None :: l)) with (omap id l). cbn [In]. rewrite IH.
    split; [auto|]. intros [H|H]; [discriminate|assumption].
Qed.

Lemma In_take_insert {A} (l : list A) :
  forall (n : nat) (x y : A),
    In y (take (S n) (<[n := x]> l)) -> In y (take n l) \/ y = x.
Proof.
  induction l as [|a l IH]; intros n x y H; [contradiction|].
  destruct n as [|n].
  - cbn in H. destruct H as [H|[]]. right. now symmetry.
  - change (<[S n := x]> (a :: l)) with (a :: <[n := x]> l) in H.
    change (take (S (S n)) (a :: <[n := x]> l))
      with (a :: take (S n) (<[n := x]> l)) in H.
    change (take (S n) (a :: l)) with (a :: take n l).
    destruct H as [H|H]; [left; now left|].
    destruct (IH n x y H) as [H'|H']; [left; now right|now right].
Qed.

(** Whatever the context, a push adds at most its own message to the
    messages that the collector retains. *)
Lemma raised_push context0 tokenizer0 m msg :
  raised (PushParseError context0 tokenizer0 m) msg -> raised context0 msg \/ msg = m.
Proof.
  unfold raised. rewrite !in_map_iff. intros (e & He & Hin).
  enough (In e (retained_errors context0)
          \/ e = mkParseError (file tokenizer0) (line tokenizer0) m) as [H|H].
  { left. now exists e. }
  { right. subst e msg. reflexivity. }
  clear He. destruct (error_stack context0) as [stack|] eqn:Es.
  - unfold PushParseError in Hin. rewrite Es in Hin.
    destruct (error_stack_size context0 <? error_stack_size_max context0);
      [|now left].
    unfold retained_errors in Hin |- *.
    cbn [error_stack error_stack_size ParseContextAllocateMemory option_map] in Hin.
    rewrite Es in Hin |- *. cbn [option_map] in Hin.
    apply In_omap_id in Hin. rewrite In_omap_id.
    destruct (Z.ltb_spec (error_stack_size context0) 0) as [Hneg|Hpos].
    + replace (Z.to_nat (error_stack_size context0 + 1)) with 0%nat in Hin by lia.
      contradiction.
    + replace (Z.to_nat (error_stack_size context0 + 1))
        with (S (Z.to_nat (error_stack_size context0))) in Hin by lia.
      apply In_take_insert in Hin as [H|H]; [now left|right; now injection H].
  - right.
    pose proof (collector_holds_retained
                  _ _ (PushParseError_first context0 tokenizer0 m Es)) as Hr.
    rewrite Hr in Hin. destruct Hin as [H|[]]. now symmetry.
Qed.

Lemma GetValue_body_no_semicolon b link i st :
  ~ raised (gv_context st) msg_unexpected_semicolon ->
  ~ raised (gv_context (fst (GetValue_body b link i st))) msg_unexpected_semicolon.
Proof.
  intros H. unfold GetValue_body.
  destruct (rd b (link + i) =? quote).
  { destruct (RequireTokenType b (gv_tokenizer st) Token_StringConstant) as [[? ?]|];
      cbn [fst gv_context]; [assumption|].
    intros Hr. apply raised_push in Hr as [Hr|Hr]; [contradiction|discriminate]. }
  destruct (rd b (link + i) =? ch "[").
  { destruct (rd b (link + i) =? ch ";"); assumption. }
  destruct (rd b (link + i) =? ch "]").
  { destruct (rd b (link + i) =? ch ";"); assumption. }
  destruct (CharIsDigit (rd b (link + i))).
  - destruct (RequireTokenType b (gv_tokenizer st) Token_Int) as [[value tokenizer']|].
    + destruct (CharIsDigit (rd b (string value + (string_length value - 1))));
        match goal with |- context [if ?c then _ else _] => destruct c end;
        cbn [fst gv_context]; try assumption;
        intros Hr; apply raised_push in Hr as [Hr|Hr]; try contradiction;
        unfold msg_bad_int, msg_unexpected_semicolon in Hr; simpl in Hr; discriminate.
    + destruct (rd b (link + i) =? ch ";"); assumption.
  - destruct (rd b (link + i) =? ch ";"); assumption.
Qed.

Lemma GetValue_loop_no_semicolon b link fuel :
  forall i st,
    ~ raised (gv_context st) msg_unexpected_semicolon ->
    ~ raised (gv_context (GetValue_loop b link fuel i st)) msg_unexpected_semicolon.
Proof.
  induction fuel as [|fuel IH]; intros i st H; cbn [GetValue_loop]; [assumption|].
  destruct (rd b (link + i) =? 0); [assumption|].
  pose proof (GetValue_body_no_semicolon b link i st H) as H'.
  destruct (GetValue_body b link i st) as [st' [i'|]]; cbn [fst] in H'.
  - now apply IH.
  - assumption.
Qed.

(** An iteration of the parse loop never adds the diagnostic for [;] to the
    collector. *)
Lemma ParseText_body_no_semicolon b st :
  ~ raised (context st) msg_unexpected_semicolon ->
  ~ raised (context (ParseText_body b st)) msg_unexpected_semicolon.
Proof.
  intros H. unfold ParseText_body.
  destruct (RequireTokenType b (tokenizer st) Token_Var) as [[isVar tokenizer1]|].
  - destruct (RequireToken _ _ _) as [[isAssign tokenizer3]|].
    + unfold GetValue.
      match goal with
      | |- context [GetValue_loop ?b ?l ?f ?i ?s] =>
          pose proof (GetValue_loop_no_semicolon b l f i s H) as HG;
          destruct (GetValue_loop b l f i s) as [ll set bs c4 t4 v4]
      end.
      cbn [isSet gv_context gv_tokenizer gv_value link_length] in HG |- *.
      destruct set; destruct (negb _); cbn [context]; try assumption;
        intros Hr; apply raised_push in Hr as [Hr|Hr];
        try contradiction; discriminate.
    + cbn [context]. intros Hr. apply raised_push in Hr as [Hr|Hr];
        [contradiction|discriminate].
  - destruct (RequireTokenType b (tokenizer st) Token_Symbol)
      as [[symbol tokenizer1]|] eqn:Es.
    + repeat match goal with |- context [if ?c then _ else _] => destruct c end;
        cbn [context]; try assumption.
      intros Hr. apply raised_push in Hr as [Hr|Hr]; [contradiction|].
      symmetry in Hr. revert Hr. eapply RequireTokenType_symbol_message. exact Es.
    + destruct (RequireTokenType b (tokenizer st) Token_DoubleNewline) as [[? ?]|];
        cbn [context]; assumption.
Qed.

Lemma ParseText_loop_no_semicolon b fuel :
  forall st token st',
    ~ raised (context st) msg_unexpected_semicolon ->
    ParseText_loop b fuel st token = Some st' ->
    ~ raised (context st') msg_unexpected_semicolon.
Proof.
  induction fuel as [|fuel IH]; intros st token st' H E; [discriminate|].
  cbn [ParseText_loop] in E.
  destruct (TokenType_eqb (type token) Token_None); [now injection E as <-|].
  pose proof (ParseText_body_no_semicolon b st H) as H'.
  destruct (error_stack_size (context (ParseText_body b st)) >? 0);
    [now injection E as <-|].
  eapply IH; eassumption.
Qed.

(** C10.  [;] is not in the symbol set, although it is one of the break-out
    literals.  A Symbol token returned by the lexer
    is one character of the symbol set, so its text is never [;].  With [;]
    under the cursor the lexer returns what it returns from the next
    character on: the [;] is skipped and yields no token.  The symbol that
    ParseText takes from the lexer never renders the diagnostic
    [Unexpected symbol ';'].  In the parser, a collector that does not hold
    that diagnostic does not hold it after any number of iterations of the
    parse loop, whether or not the loop is ever left, nor in the state that
    ParseText returns. *)
Theorem semicolon_is_never_a_symbol_token :
  CharIsSymbol (ch ";") = false
  /\ In (str ";") symbolic_blocks_to_break_out
  /\ (forall (b : list Z) (tokenizer : Tokenizer),
      (type (GetNextTokenFromBuffer b tokenizer) = Token_Symbol ->
       string_of_chars (token_text b (GetNextTokenFromBuffer b tokenizer)) <> ";"%string
       /\ string_length (GetNextTokenFromBuffer b tokenizer) = 1
       /\ CharIsSymbol (rd b (string (GetNextTokenFromBuffer b tokenizer))) = true)
      /\ (rd b (at_ tokenizer) = ch ";" ->
          GetNextTokenFromBuffer b tokenizer
          = GetNextTokenFromBuffer b (mkTokenizer (at_ tokenizer + 1) (line tokenizer)
                                                  (file tokenizer)
                                                  (break_text_by_commas tokenizer)))
      /\ (forall symbol tokenizer1,
             RequireTokenType b tokenizer Token_Symbol = Some (symbol, tokenizer1) ->
             msg_unexpected_symbol b symbol <> "Unexpected symbol ';'"%string))
  /\ (forall (b : list Z) (st : ParseState) (n : nat),
         ~ raised (context st) msg_unexpected_semicolon ->
         ~ raised (context (Nat.iter n (ParseText_body b) st)) msg_unexpected_semicolon)
  /\ (forall (b : list Z) (fuel : nat) (context0 : ParseContext)
             (tokenizer0 : Tokenizer) (st : ParseState),
         ~ raised context0 msg_unexpected_semicolon ->
         ParseText b fuel context0 tokenizer0 = Some st ->
         ~ raised (context st) msg_unexpected_semicolon).
Proof.
  split; [reflexivity|]. split; [simpl; tauto|]. split; [|split].
  - intros b tokenizer. split; [|split].
    + intros H.
      destruct (GetNextTokenFromBuffer_symbol b tokenizer H) as (c & rest & Hs & Hc & Hl).
      split; [|split].
      * exact (proj1 (unexpected_symbol_not_semicolon _ _ _ _ Hs Hc Hl)).
      * assumption.
      * unfold rd. rewrite Hs. exact Hc.
    + apply GetNextTokenFromBuffer_skips_semicolon.
    + intros symbol tokenizer1. apply RequireTokenType_symbol_message.
  - intros b st n H. induction n as [|n IH]; [exact H|].
    cbn [Nat.iter nat_rect]. now apply ParseText_body_no_semicolon.
  - intros b fuel context0 tokenizer0 st H E. unfold ParseText in E.
    eapply ParseText_loop_no_semicolon; [|exact E]. exact H.
Qed.

Lemma semicolon_is_never_a_symbol_token_witness :
  let b := str ";;=" in
  let tokenizer := Tokenizer_start "input.or" in
  (rd b (at_ tokenizer) = ch ";"
   /\ type (GetNextTokenFromBuffer b tokenizer) = Token_Symbol)
  /\ string_of_chars (token_text b (GetNextTokenFromBuffer b tokenizer)) <> ";"%string
  /\ GetNextTokenFromBuffer b tokenizer
     = GetNextTokenFromBuffer b (mkTokenizer 1 1 "input.or" 0)
  /\ exists st,
      ParseText b 1 ParseContext_zero tokenizer = Some st
      /\ map message (retained_errors (context st)) = ["Unexpected symbol '='"%string]
      /\ ~ raised (context st) msg_unexpected_semicolon.
Proof.
  intros b tokenizer. split; [split; reflexivity|].
  destruct semicolon_is_never_a_symbol_token as (_ & _ & H & _ & Hp).
  destruct (H b tokenizer) as (H1 & H2 & _). split; [|split].
  - exact (proj1 (H1 eq_refl)).
  - exact (H2 eq_refl).
  - eexists. split; [vm_compute; reflexivity|]. split; [vm_compute; reflexivity|].
    apply (Hp b 1%nat ParseContext_zero tokenizer).
    + intros [].
    + vm_compute. reflexivity.
Defined.

(** * Further properties *)

(** ** Arena *)

Lemma to_int_in_range z : - 2147483648 <= z <= INT_MAX -> to_int z = z.
Proof.
  unfold to_int, INT_MAX. intros H.
  rewrite Z.mod_small by lia. lia.
Qed.

Lemma bump_nil sz : bump [] sz = [new_block sz].
Proof. reflexivity. Qed.

Lemma bump_snoc init chunk sz :
  bump (init ++ [chunk]) sz
  = if to_int (alloc_position chunk + sz) >? size chunk
    then init ++ [chunk; new_block sz]
    else init ++ [mkBlock (size chunk) (to_int (alloc_position chunk + sz))].
Proof.
  induction init as [|x init IH]; [reflexivity|].
  change ((x :: init) ++ [chunk]) with (x :: (init ++ [chunk])).
  destruct (init ++ [chunk]) as [|y l] eqn:E; [now destruct init|].
  change (bump (x :: y :: l) sz) with (x :: bump (y :: l) sz).
  rewrite IH. now destruct (to_int (alloc_position chunk + sz) >? size chunk).
Qed.

Lemma bump_memory_snoc init chunk sz k :
  bump_memory (init ++ [chunk]) sz k
  = if to_int (alloc_position chunk + sz) >? size chunk
    then (S (k + length init), 0)
    else ((k + length init)%nat, alloc_position chunk).
Proof.
  revert k. induction init as [|x init IH]; intros k.
  - simpl. rewrite Nat.add_0_r. reflexivity.
  - change ((x :: init) ++ [chunk]) with (x :: (init ++ [chunk])).
    destruct (init ++ [chunk]) as [|y l] eqn:E; [now destruct init|].
    change (bump_memory (x :: y :: l) sz k) with (bump_memory (y :: l) sz (S k)).
    rewrite IH. simpl length.
    replace (S k + length init)%nat with (k + S (length init))%nat by lia.
    reflexivity.
Qed.

Lemma new_block_ok limit sz :
  PARSE_CONTEXT_MEMORY_BLOCK_SIZE_DEFAULT <= limit ->
  0 <= sz <= limit ->
  0 <= alloc_position (new_block sz) <= size (new_block sz)
  /\ size (new_block sz) <= limit.
Proof.
  intros Hl H. unfold new_block, PARSE_CONTEXT_MEMORY_BLOCK_SIZE_DEFAULT in *. simpl.
  destruct (Z.ltb_spec sz 4096); simpl; lia.
Qed.

(** One allocation whose sum stays in [int]: the chain stays well formed,
    the region returned lies in the allocated part of its block, and every
    region that did so before still does and is disjoint from it. *)
Lemma bump_step limit chain sz :
  PARSE_CONTEXT_MEMORY_BLOCK_SIZE_DEFAULT <= limit ->
  chain_ok limit chain ->
  0 <= sz <= limit ->
  limit + sz <= INT_MAX ->
  let r := mkRegion (fst (bump_memory chain sz 0)) (snd (bump_memory chain sz 0)) sz in
  chain_ok limit (bump chain sz)
  /\ region_used (bump chain sz) r
  /\ forall q, region_used chain q ->
               region_used (bump chain sz) q /\ regions_disjoint q r.
Proof.
  intros Hlimit Hok Hsz Hmax. destruct (new_block_ok limit sz Hlimit Hsz) as [Hnew Hnewl].
  destruct chain as [|x l] using rev_ind.
  - cbn. split; [|split].
    + constructor; [|constructor]. now split.
    + exists (new_block sz). repeat split; cbn; lia.
    + intros q (blk & Hq & _). rewrite lookup_nil in Hq. discriminate.
  - clear IHl. rename x into chunk, l into init.
    rewrite bump_snoc, bump_memory_snoc.
    apply Forall_app in Hok as [Hinit Hchunk].
    apply Forall_cons in Hchunk as [[Hchunk Hchunkl] _].
    rewrite (to_int_in_range (alloc_position chunk + sz))
      by (unfold INT_MAX in *; lia).
    destruct (Z.gtb_spec (alloc_position chunk + sz) (size chunk)) as [Hover|Hfit];
      cbn [fst snd Nat.add].
    + split; [|split].
      * apply Forall_app. split; [assumption|].
        constructor; [now split|]. constructor; [|constructor]. now split.
      * exists (new_block sz). cbn [region_block region_offset region_size].
        split; [|cbn; lia].
        change (init ++ [chunk; new_block sz])
          with (init ++ [chunk] ++ [new_block sz]).
        rewrite app_assoc.
        rewrite lookup_app_r by (rewrite length_app; simpl; lia).
        rewrite length_app. simpl length.
        replace (S (length init) - (length init + 1))%nat with 0%nat by lia.
        reflexivity.
      * intros q (blk & Hq & Hq0 & Hq1).
        assert (region_block q < length (init ++ [chunk]))%nat as Hlt
            by (eapply lookup_lt_Some; eassumption).
        rewrite length_app in Hlt. simpl in Hlt. split.
        -- exists blk. split; [|split; assumption].
           change (init ++ [chunk; new_block sz])
             with (init ++ [chunk] ++ [new_block sz]).
           rewrite app_assoc. rewrite lookup_app_l; [assumption|].
           rewrite length_app. simpl. lia.
        -- left. cbn. lia.
    + split; [|split].
      * apply Forall_app. split; [assumption|].
        constructor; [|constructor]. cbn. lia.
      * exists (mkBlock (size chunk) (alloc_position chunk + sz)).
        cbn [region_block region_offset region_size alloc_position].
        split; [|lia].
        rewrite lookup_app_r by lia.
        replace (length init - length init)%nat with 0%nat by lia. reflexivity.
      * intros q (blk & Hq & Hq0 & Hq1).
        destruct (Nat.lt_ge_cases (region_block q) (length init)) as [Hlt|Hge].
        -- split.
           ++ exists blk. rewrite lookup_app_l in Hq |- * by assumption.
              repeat split; assumption.
           ++ left. cbn. lia.
        -- rewrite lookup_app_r in Hq by assumption.
           destruct (region_block q - length init)%nat as [|m] eqn:Em;
             [|destruct m; discriminate].
           injection Hq as <-. split.
           ++ exists (mkBlock (size chunk) (alloc_position chunk + sz)).
              rewrite lookup_app_r by assumption. rewrite Em.
              split; [reflexivity|]. cbn. lia.
           ++ right. left. cbn. lia.
Qed.

Lemma allocate_all_spec limit sizes :
  PARSE_CONTEXT_MEMORY_BLOCK_SIZE_DEFAULT <= limit ->
  forall context,
    chain_ok limit (blocks context) ->
    Forall (fun sz => 0 <= sz <= limit /\ limit + sz <= INT_MAX) sizes ->
    chain_ok limit (blocks (fst (allocate_all context sizes)))
    /\ Forall (region_used (blocks (fst (allocate_all context sizes))))
              (snd (allocate_all context sizes))
    /\ ForallOrdPairs regions_disjoint (snd (allocate_all context sizes))
    /\ forall q, region_used (blocks context) q ->
                 region_used (blocks (fst (allocate_all context sizes))) q
                 /\ Forall (regions_disjoint q) (snd (allocate_all context sizes)).
Proof.
  intros Hlimit. induction sizes as [|sz sizes IH]; intros context Hok Hsz.
  - cbn. repeat split; try assumption; constructor.
  - apply Forall_cons in Hsz as [[Hsz Hmax] Hrest].
    destruct (bump_step limit (blocks context) sz Hlimit Hok Hsz Hmax) as (Hok' & Hr & Hq).
    cbn [allocate_all]. unfold ParseContextAllocateMemory_memory.
    destruct (bump_memory (blocks context) sz 0) as [k off] eqn:Em.
    cbn [fst snd] in Hr, Hq.
    specialize (IH (ParseContextAllocateMemory context sz) Hok' Hrest).
    destruct (allocate_all (ParseContextAllocateMemory context sz) sizes)
      as [context' regions].
    cbn [fst snd] in IH |- *. destruct IH as (IH1 & IH2 & IH3 & IH4).
    destruct (IH4 _ Hr) as [Hr' Hrd].
    split; [assumption|]. split; [constructor; assumption|].
    split; [constructor; assumption|].
    intros q Hused. destruct (Hq q Hused) as [Hq1 Hq2].
    destruct (IH4 q Hq1) as [Hq3 Hq4]. split; [assumption|].
    constructor; assumption.
Qed.

(** X1.  Take a bound [limit], at least the default block size, on the
    sizes of the blocks of a context, whose blocks have their allocation
    position within their size.  Any sequence of requests of sizes between 0
    and [limit], small enough for [limit] plus the size not to exceed INT_MAX
    (so that the sum that the arena computes in [int] does not overflow),
    returns regions that are pairwise disjoint; each lies inside the capacity
    of its block, whatever block boundaries the requests cross, and the
    blocks keep their allocation position within their size and their size
    within [limit]. *)
Theorem arena_allocations_never_overlap :
  forall (context : ParseContext) (sizes : list Z) (limit : Z),
    PARSE_CONTEXT_MEMORY_BLOCK_SIZE_DEFAULT <= limit ->
    chain_ok limit (blocks context) ->
    Forall (fun sz => 0 <= sz <= limit /\ limit + sz <= INT_MAX) sizes ->
    let context' := fst (allocate_all context sizes) in
    let regions := snd (allocate_all context sizes) in
    ForallOrdPairs regions_disjoint regions
    /\ Forall (fun r => exists blk,
                   blocks context' !! region_block r = Some blk
                   /\ 0 <= region_offset r
                   /\ region_offset r + region_size r <= size blk) regions
    /\ chain_ok limit (blocks context')
    /\ length regions = length sizes.
Proof.
  intros context sizes limit Hlimit Hok Hsz context' regions.
  destruct (allocate_all_spec limit sizes Hlimit context Hok Hsz) as (H1 & H2 & H3 & _).
  fold context' in H1, H2. fold regions in H2, H3.
  split; [assumption|]. split; [|split; [assumption|]].
  - eapply Forall_impl; [exact H2|].
    intros r (blk & Hb & H0 & Hu). exists blk. split; [assumption|].
    split; [assumption|].
    pose proof (proj1 (Forall_lookup _ _) H1 _ _ Hb) as Hblk. cbn in Hblk. lia.
  - subst regions. clear. revert context.
    induction sizes as [|sz sizes IH]; intros context; [reflexivity|].
    cbn [allocate_all].
    destruct (ParseContextAllocateMemory_memory context sz) as [k off].
    specialize (IH (ParseContextAllocateMemory context sz)).
    destruct (allocate_all (ParseContextAllocateMemory context sz) sizes).
    cbn in IH |- *. now rewrite IH.
Qed.

Lemma arena_allocations_never_overlap_witness :
  let sizes := [32; 32; 32; 4000; 48; 5000; 1; 1073741823; 1073741823] in
  snd (allocate_all ParseContext_zero sizes)
  = [mkRegion 0 0 32; mkRegion 0 32 32; mkRegion 0 64 32; mkRegion 0 96 4000;
     mkRegion 1 0 48; mkRegion 2 0 5000; mkRegion 3 0 1;
     mkRegion 4 0 1073741823; mkRegion 5 0 1073741823]
  /\ ForallOrdPairs regions_disjoint (snd (allocate_all ParseContext_zero sizes)).
Proof.
  intros sizes. split; [reflexivity|].
  apply (arena_allocations_never_overlap ParseContext_zero sizes 1073741823).
  - vm_compute. discriminate.
  - constructor.
  - repeat constructor; vm_compute; discriminate.
Defined.

(** ** The token that the lexer returns *)

Lemma scan_escaped_le stop s : forall e, scan_escaped stop s e <= Z.of_nat (length s).
Proof.
  induction s as [|c s IH]; intros e; [simpl; lia|].
  cbn [scan_escaped length].
  destruct ((negb (stop c) || e) && negb (c =? 0)); [|lia].
  specialize (IH (if e then false else c =? backslash)). lia.
Qed.

Lemma scan_escaped_first stop c s :
  c <> 0 -> scan_escaped stop (c :: s) true = 1 + scan_escaped stop s false.
Proof.
  intros H. cbn [scan_escaped]. rewrite orb_true_r.
  destruct (Z.eqb_spec c 0) as [|_]; [contradiction|]. reflexivity.
Qed.

Lemma scan_int_le s : scan_int s <= Z.of_nat (length s).
Proof.
  induction s as [|c s IH]; [simpl; lia|]. cbn [scan_int length].
  destruct (negb (c =? ch ";") && negb (c =? 0)); [|lia].
  destruct (CharIsDigit c || CharIsSpace c); lia.
Qed.

(** The loop returns the token of the first position at which a rule
    matches. *)
Lemma scan_tokens_decompose buffer :
  forall s i,
    type (scan_tokens buffer s i Token_zero) <> Token_None ->
    exists k c rest,
      drop k s = c :: rest
      /\ c <> 0
      /\ no_rule_matches (c :: rest) = false
      /\ scan_tokens buffer s i Token_zero
         = scan_tokens buffer (c :: rest) (i + Z.of_nat k) Token_zero.
Proof.
  induction s as [|c s' IH]; intros i H; [now elim H|].
  destruct (no_rule_matches (c :: s')) eqn:E.
  - rewrite (scan_tokens_skip _ _ _ _ _ E) in H |- *.
    destruct (IH _ H) as (k & c0 & rest & Hd & Hc & Hn & Heq).
    exists (S k), c0, rest. repeat split; try assumption.
    rewrite Heq. f_equal. lia.
  - exists 0%nat, c, s'. rewrite Z.add_0_r. repeat split; try assumption.
    intros ->. now elim H.
Qed.

(** The token built where a rule matches, rule by rule. *)
Lemma scan_tokens_fire buffer c rest i :
  0 <= i ->
  c <> 0 ->
  no_rule_matches (c :: rest) = false ->
  let t := scan_tokens buffer (c :: rest) i Token_zero in
  string t = buffer + i
  /\ tokens t = None
  /\ lines_traversed t = 0
  /\ ((type t = Token_DoubleNewline /\ string_length t = 2
       /\ c = newline /\ idx rest 0 = newline)
      \/ (type t = Token_Var
          /\ string_length t = scan_escaped var_stop (c :: rest) true)
      \/ (type t = Token_Const
          /\ string_length t = scan_escaped const_stop (c :: rest) true)
      \/ (type t = Token_StringConstant /\ c = quote
          /\ string_length t = scan_escaped quote_stop (c :: rest) true + 1)
      \/ (type t = Token_Int /\ CharIsDigit c = true
          /\ string_length t = scan_int (c :: rest))
      \/ (type t = Token_Symbol /\ CharIsSymbol c = true /\ string_length t = 1)).
Proof.
  intros Hi Hc Hn. cbn [no_rule_matches] in Hn. cbn [scan_tokens].
  destruct (Z.eqb_spec c 0) as [|_]; [contradiction|]. cbn [negb andb] in Hn.
  destruct (Z.eqb_spec c newline) as [Enl|_]; cbn [andb] in Hn |- *.
  { destruct (Z.eqb_spec (idx rest 0) newline) as [Enl2|_]; cbn [negb andb] in Hn |- *.
    - cbn. repeat split. left. repeat split; assumption.
    - subst c. cbn in Hn. discriminate. }
  cbn [negb andb] in Hn.
  destruct ((c =? ch "v") && (idx rest 0 =? ch "a") && (idx rest 1 =? ch "r")).
  { cbn. repeat split. right. left. split; reflexivity. }
  destruct ((c =? ch "c") && (idx rest 0 =? ch "o") && (idx rest 1 =? ch "n")
            && (idx rest 2 =? ch "s") && (idx rest 3 =? ch "t")).
  { cbn. repeat split. right. right. left. split; reflexivity. }
  cbn [negb andb] in Hn.
  destruct (Z.eqb_spec c quote) as [Eq|_].
  { cbn [string tokens lines_traversed type string_length]. repeat split.
    right. right. right. left. repeat split. assumption. }
  destruct (CharIsDigit c) eqn:Ed.
  { cbn [string tokens lines_traversed type string_length]. repeat split.
    do 4 right. left. repeat split. }
  cbn [negb andb] in Hn.
  destruct (CharIsSpace c); [discriminate|]. cbn [orb negb] in Hn |- *.
  apply negb_false_iff in Hn. rewrite Hn.
  rewrite break_out_symbol by assumption.
  destruct (Z.eqb_spec (i + 1) 0) as [E|_]; [lia|].
  cbn [negb string tokens lines_traversed type string_length]. repeat split.
  do 5 right. repeat split. lia.
Qed.

Lemma suffix_nonneg b p c rest : suffix b p = c :: rest -> 0 <= p.
Proof. intros H. exact (proj1 (suffix_next _ _ _ _ H)). Qed.

Lemma suffix_length b p : 0 <= p -> Z.of_nat (length (suffix b p)) <= Z.of_nat (length b) - p
                                  \/ suffix b p = [].
Proof.
  intros H. unfold suffix.
  replace (p <? 0) with false by (symmetry; apply Z.ltb_ge; lia).
  destruct (Nat.le_gt_cases (Z.to_nat p) (length b)) as [Hle|Hgt].
  - left. rewrite length_skipn. lia.
  - right. apply skipn_all2. lia.
Qed.

(** What the lexer returns when it returns a token: the position [k] after
    the cursor at which the first rule matches, and the token of that rule. *)
Lemma GetNextTokenFromBuffer_found b tokenizer :
  type (GetNextTokenFromBuffer b tokenizer) <> Token_None ->
  exists k c rest,
    suffix b (at_ tokenizer + Z.of_nat k) = c :: rest
    /\ 0 <= at_ tokenizer
    /\ c <> 0
    /\ no_rule_matches (c :: rest) = false
    /\ string (GetNextTokenFromBuffer b tokenizer) = at_ tokenizer + Z.of_nat k
    /\ type (GetNextTokenFromBuffer b tokenizer)
       = type (scan_tokens (at_ tokenizer) (c :: rest) (Z.of_nat k) Token_zero)
    /\ string_length (GetNextTokenFromBuffer b tokenizer)
       = string_length (scan_tokens (at_ tokenizer) (c :: rest) (Z.of_nat k) Token_zero).
Proof.
  unfold GetNextTokenFromBuffer. cbn [type string string_length]. intros H.
  destruct (scan_tokens_decompose _ _ _ H) as (k & c & rest & Hd & Hc & Hn & Heq).
  rewrite Z.add_0_l in Heq.
  assert (0 <= at_ tokenizer) as Hat.
  { destruct (suffix b (at_ tokenizer)) as [|x l] eqn:Es.
    - rewrite drop_nil in Hd. discriminate.
    - eapply suffix_nonneg; eassumption. }
  exists k, c, rest. rewrite suffix_drop by assumption.
  rewrite Heq. repeat split; try assumption.
  apply (scan_tokens_fire (at_ tokenizer) c rest (Z.of_nat k)); [lia|assumption..].
Qed.

Lemma token_length_positive b tokenizer :
  type (GetNextTokenFromBuffer b tokenizer) <> Token_None ->
  1 <= string_length (GetNextTokenFromBuffer b tokenizer).
Proof.
  intros H.
  destruct (GetNextTokenFromBuffer_found b tokenizer H)
    as (k & c & rest & Hs & Hat & Hc & Hn & Hstr & Hty & Hlen).
  pose proof (scan_tokens_fire (at_ tokenizer) c rest (Z.of_nat k)
                               ltac:(lia) Hc Hn) as (_ & _ & _ & Hcases).
  cbv zeta in Hcases. rewrite <- Hlen in Hcases.
  destruct Hcases as [(_ & -> & _)|[(_ & ->)|[(_ & ->)|[(_ & _ & ->)|
                      [(_ & Hd & ->)|(_ & _ & ->)]]]]].
  - lia.
  - rewrite scan_escaped_first by assumption.
    pose proof (scan_escaped_nonneg var_stop rest false). lia.
  - rewrite scan_escaped_first by assumption.
    pose proof (scan_escaped_nonneg const_stop rest false). lia.
  - rewrite scan_escaped_first by assumption.
    pose proof (scan_escaped_nonneg quote_stop rest false). lia.
  - pose proof (scan_int_digit c rest Hd). lia.
  - lia.
Qed.

(** X2.  A token other than None starts at or after the cursor, at a
    character that is not the terminator, and is at least one character
    long, so that NextToken moves the cursor forward.  It ends at or before
    the end of the buffer, except that a StringConstant token may reach one
    position further: an unclosed string constant counts the terminator. *)
Theorem token_span_is_in_the_buffer :
  forall (b : list Z) (tokenizer : Tokenizer),
    let token := GetNextTokenFromBuffer b tokenizer in
    type token <> Token_None ->
    0 <= at_ tokenizer <= string token
    /\ rd b (string token) <> 0
    /\ 1 <= string_length token
    /\ string token + string_length token
       <= Z.of_nat (length b)
          + (if TokenType_eqb (type token) Token_StringConstant then 1 else 0)
    /\ at_ tokenizer < at_ (snd (NextToken b tokenizer)).
Proof.
  intros b tokenizer token H. subst token.
  destruct (GetNextTokenFromBuffer_found b tokenizer H)
    as (k & c & rest & Hs & Hat & Hc & Hn & Hstr & Hty & Hlen).
  pose proof (scan_tokens_fire (at_ tokenizer) c rest (Z.of_nat k)
                               ltac:(lia) Hc Hn) as (_ & _ & _ & Hcases).
  cbv zeta in Hcases. rewrite <- Hty, <- Hlen in Hcases.
  assert (Z.of_nat (length (c :: rest))
          <= Z.of_nat (length b) - (at_ tokenizer + Z.of_nat k)) as Hl.
  { destruct (suffix_length b (at_ tokenizer + Z.of_nat k) ltac:(lia)) as [Hl|Hl].
    - now rewrite Hs in Hl.
    - rewrite Hs in Hl. discriminate. }
  cbn [length] in Hl.
  assert (1 <= string_length (GetNextTokenFromBuffer b tokenizer)
          /\ string_length (GetNextTokenFromBuffer b tokenizer)
             <= Z.of_nat (S (length rest))
                + (if TokenType_eqb (type (GetNextTokenFromBuffer b tokenizer))
                                    Token_StringConstant then 1 else 0)) as [H1 H2].
  { destruct Hcases as [(-> & -> & _ & Hnl)|[(-> & ->)|[(-> & ->)|[(-> & _ & ->)|
                        [(-> & Hd & ->)|(-> & _ & ->)]]]]]; cbn [TokenType_eqb].
    - split; [lia|]. destruct rest; [discriminate|]. cbn [length]. lia.
    - rewrite scan_escaped_first by assumption.
      pose proof (scan_escaped_nonneg var_stop rest false).
      pose proof (scan_escaped_le var_stop rest false). lia.
    - rewrite scan_escaped_first by assumption.
      pose proof (scan_escaped_nonneg const_stop rest false).
      pose proof (scan_escaped_le const_stop rest false). lia.
    - rewrite scan_escaped_first by assumption.
      pose proof (scan_escaped_nonneg quote_stop rest false).
      pose proof (scan_escaped_le quote_stop rest false). lia.
    - pose proof (scan_int_digit c rest Hd).
      pose proof (scan_int_le (c :: rest)). cbn [length] in *. lia.
    - lia. }
  rewrite Hstr. repeat split; try lia.
  - unfold rd. rewrite Hs. exact Hc.
  - cbn [NextToken snd advance at_]. fold (GetNextTokenFromBuffer b tokenizer).
    rewrite Hstr. lia.
Qed.

Lemma token_span_is_in_the_buffer_witness :
  let b := [quote] ++ str "abc" in
  let tokenizer := Tokenizer_start "input.or" in
  type (GetNextTokenFromBuffer b tokenizer) <> Token_None
  /\ string (GetNextTokenFromBuffer b tokenizer)
     + string_length (GetNextTokenFromBuffer b tokenizer) = 5
  /\ 0 < at_ (snd (NextToken b tokenizer)).
Proof.
  intros b tokenizer.
  assert (type (GetNextTokenFromBuffer b tokenizer) <> Token_None) as H
      by discriminate.
  split; [exact H|]. split; [reflexivity|].
  exact (proj2 (proj2 (proj2 (proj2 (token_span_is_in_the_buffer b tokenizer H))))).
Defined.

(** ** Text without tokens *)

Lemma no_token_in_scan buffer :
  forall s i,
    0 <= i ->
    type (scan_tokens buffer s i Token_zero) = Token_None <-> no_token_in s = true.
Proof.
  induction s as [|c s' IH]; intros i Hi; [now split|].
  cbn [no_token_in].
  destruct (Z.eqb_spec c 0) as [->|Hc]; [now split|]. cbn [orb].
  destruct (no_rule_matches (c :: s')) eqn:E.
  - rewrite (scan_tokens_skip _ _ _ _ _ E). cbn [andb]. apply IH. lia.
  - cbn [andb]. split; [|discriminate]. intros H. exfalso.
    destruct (scan_tokens_fire buffer c s' i Hi Hc E) as (_ & _ & _ & F).
    rewrite H in F.
    destruct F as [(F & _)|[(F & _)|[(F & _)|[(F & _)|[(F & _)|(F & _)]]]]];
      discriminate.
Qed.

(** X3.  The lexer returns the None token exactly when no rule matches at
    any position between the cursor and the terminator: such text is passed
    over without a token. *)
Theorem no_token_iff_no_rule_matches :
  forall (b : list Z) (tokenizer : Tokenizer),
    type (GetNextTokenFromBuffer b tokenizer) = Token_None
    <-> no_token_in (suffix b (at_ tokenizer)) = true.
Proof.
  intros b tokenizer. unfold GetNextTokenFromBuffer. cbn [type].
  apply no_token_in_scan. lia.
Qed.

Lemma inert_no_rule c s :
  inert c = true -> c <> 0 -> no_rule_matches (c :: s) = true.
Proof.
  unfold inert. rewrite !andb_true_iff, !negb_true_iff.
  intros (((((Hnl & Hv) & Hcc) & Hq) & Hd) & Hs) Hc.
  cbn [no_rule_matches]. rewrite Hnl, Hv, Hcc, Hq, Hd, Hs.
  destruct (Z.eqb_spec c 0) as [|_]; [contradiction|]. reflexivity.
Qed.

Lemma inert_no_token s : Forall (fun c => inert c = true) s -> no_token_in s = true.
Proof.
  induction 1 as [|c s Hc Hs IH]; [reflexivity|]. cbn [no_token_in].
  destruct (Z.eqb_spec c 0) as [|Hz]; [reflexivity|].
  rewrite (inert_no_rule c s Hc Hz), IH. reflexivity.
Qed.

(** X4.  A buffer all of whose characters are inert (neither a newline, nor
    v, nor c, nor a double quote, nor a digit, nor a symbol character that
    is not whitespace) is discarded by the parser: ParseText returns at
    once with no node, and the context and the tokenizer are as they were,
    so that no diagnostic is pushed. *)
Theorem ParseText_discards_inert_text :
  forall (b : list Z) (context0 : ParseContext) (filename : String.string)
         (fuel : nat),
    Forall (fun c => inert c = true) b ->
    ParseText b (S fuel) context0 (Tokenizer_start filename)
    = Some (mkParseState context0 (Tokenizer_start filename) []).
Proof.
  intros b context0 filename fuel H. unfold ParseText.
  apply ParseText_loop_done. unfold PeekToken.
  assert (type (GetNextTokenFromBuffer b (Tokenizer_start filename)) = Token_None) as ->.
  { unfold GetNextTokenFromBuffer. cbn [type].
    apply no_token_in_scan; [lia|]. now apply inert_no_token. }
  reflexivity.
Qed.

Lemma ParseText_discards_inert_text_witness :
  let b := str "Hello, world; this is a text." in
  Forall (fun c => inert c = true) b
  /\ ParseText b 1 ParseContext_zero (Tokenizer_start "input.or")
     = Some (mkParseState ParseContext_zero (Tokenizer_start "input.or") []).
Proof.
  intros b.
  assert (Forall (fun c => inert c = true) b) as H by (repeat constructor).
  split; [exact H|].
  exact (ParseText_discards_inert_text b ParseContext_zero "input.or" 0 H).
Defined.

(** ** Escape-aware scans *)

Lemma scan_escaped_items stop items :
  stop backslash = false ->
  Forall (item_ok stop) items ->
  forall tail,
    scan_escaped stop (items_chars items ++ tail) false
    = Z.of_nat (length (items_chars items)) + scan_escaped stop tail false.
Proof.
  intros Hb H. induction H as [|it items Hit _ IH]; intros tail; [reflexivity|].
  unfold items_chars in *. cbn [map concat]. rewrite <- app_assoc, length_app.
  destruct it as [c|c]; cbn [item_chars item_ok] in *.
  - destruct Hit as (Hc0 & Hcb & Hs). cbn [app scan_escaped length]. rewrite Hs.
    destruct (Z.eqb_spec c 0) as [|_]; [contradiction|].
    destruct (Z.eqb_spec c backslash) as [|_]; [contradiction|].
    cbn [negb orb andb]. rewrite IH. lia.
  - cbn [app scan_escaped length]. rewrite Hb.
    change (backslash =? 0) with false. change (backslash =? backslash) with true.
    cbn [negb orb andb]. rewrite orb_true_r.
    destruct (Z.eqb_spec c 0) as [|_]; [contradiction|].
    cbn [negb andb]. rewrite IH. lia.
Qed.

Lemma scan_escaped_stop stop d rest :
  stop d = true -> scan_escaped stop (d :: rest) false = 0.
Proof. intros H. cbn [scan_escaped]. rewrite H. reflexivity. Qed.

Lemma scan_tokens_lines buffer :
  forall s i token,
    lines_traversed (scan_tokens buffer s i token) = lines_traversed token.
Proof.
  induction s as [|c s' IH]; intros i token; [reflexivity|].
  cbn [scan_tokens].
  repeat match goal with
         | |- context [if ?x then _ else _] => destruct x
         end; cbn [lines_traversed]; try reflexivity; rewrite IH; reflexivity.
Qed.

Lemma count_newlines_count_occ n :
  forall s,
    count_newlines s n = Z.of_nat (count_occ Z.eq_dec (firstn n s) newline).
Proof.
  induction n as [|n IH]; intros s; [reflexivity|].
  cbn [count_newlines]. rewrite IH. destruct s as [|c s].
  - cbn [tl firstn count_occ]. rewrite firstn_nil. reflexivity.
  - cbn [tl firstn count_occ]. change (idx (c :: s) 0) with c.
    destruct (Z.eq_dec c newline) as [->|Hne].
    + change (newline =? newline) with true. lia.
    + destruct (Z.eqb_spec c newline) as [|_]; [contradiction|]. lia.
Qed.

(** X5.  The line counter advances by the number of newline characters
    inside the consumed token, for every token: [lines_traversed] is the
    number of newlines of the token text, and newline characters that the
    lexer passes over before the token are not counted. *)
Theorem line_counter_counts_newlines_inside_tokens :
  forall (b : list Z) (tokenizer : Tokenizer),
    let token := GetNextTokenFromBuffer b tokenizer in
    lines_traversed token
    = Z.of_nat (count_occ Z.eq_dec (token_text b token) newline)
    /\ line (snd (NextToken b tokenizer))
       = line tokenizer
         + Z.of_nat (count_occ Z.eq_dec (token_text b token) newline).
Proof.
  intros b tokenizer token.
  assert (lines_traversed token
          = Z.of_nat (count_occ Z.eq_dec (token_text b token) newline)) as H.
  { subst token. unfold GetNextTokenFromBuffer, token_text.
    cbn [lines_traversed string string_length].
    rewrite scan_tokens_lines. cbn [Token_zero lines_traversed].
    rewrite count_newlines_count_occ. lia. }
  split; [exact H|].
  cbn [NextToken snd advance line]. fold token. now rewrite H.
Qed.

(** The string constant that starts under the cursor. *)
Lemma string_constant_scan b tokenizer tail :
  suffix b (at_ tokenizer) = quote :: tail ->
  type (GetNextTokenFromBuffer b tokenizer) = Token_StringConstant
  /\ string (GetNextTokenFromBuffer b tokenizer) = at_ tokenizer
  /\ string_length (GetNextTokenFromBuffer b tokenizer)
     = 1 + scan_escaped quote_stop tail false + 1.
Proof.
  intros Hs. unfold GetNextTokenFromBuffer. cbn [type string string_length].
  rewrite Hs. cbn [scan_tokens].
  change (quote =? 0) with false. change (quote =? newline) with false.
  change (quote =? ch "v") with false. change (quote =? ch "c") with false.
  change (quote =? quote) with true. cbn [andb type string string_length].
  rewrite scan_escaped_first by discriminate. repeat split; lia.
Qed.

(** X6.  A double quote under the cursor, followed by plain characters
    (neither quote, backslash nor terminator) and by backslashes each with
    the character it escapes, and then by a closing quote, is lexed as one
    StringConstant token that runs from the opening to the closing quote
    inclusive: an escaped quote does not close it.  Without a closing quote
    the token runs to the end of the buffer and counts the terminator too,
    so that consuming it puts the cursor one past the terminator. *)
Theorem string_constant_token :
  forall (b : list Z) (tokenizer : Tokenizer) (items : list ScanItem),
    Forall (item_ok quote_stop) items ->
    let token := GetNextTokenFromBuffer b tokenizer in
    (forall rest,
        suffix b (at_ tokenizer) = quote :: items_chars items ++ quote :: rest ->
        type token = Token_StringConstant
        /\ string token = at_ tokenizer
        /\ token_text b token = quote :: items_chars items ++ [quote])
    /\ (suffix b (at_ tokenizer) = quote :: items_chars items ->
        type token = Token_StringConstant
        /\ string token = at_ tokenizer
        /\ string_length token = Z.of_nat (length (items_chars items)) + 2
        /\ at_ (snd (NextToken b tokenizer)) = Z.of_nat (length b) + 1).
Proof.
  intros b tokenizer items Hok token. subst token. split.
  - intros rest Hs.
    destruct (string_constant_scan b tokenizer _ Hs) as (H1 & H2 & H3).
    rewrite (scan_escaped_items quote_stop items eq_refl Hok) in H3.
    rewrite scan_escaped_stop in H3 by reflexivity.
    split; [assumption|]. split; [assumption|].
    unfold token_text. rewrite H2, H3, Hs.
    replace (Z.to_nat (1 + (Z.of_nat (length (items_chars items)) + 0) + 1))
      with (S (length (items_chars items) + 1)) by lia.
    cbn [firstn]. f_equal.
    rewrite firstn_app, firstn_all2 by lia.
    replace (length (items_chars items) + 1 - length (items_chars items))%nat
      with 1%nat by lia.
    reflexivity.
  - intros Hs.
    pose proof Hs as Hs'. rewrite <- (app_nil_r (items_chars items)) in Hs'.
    destruct (string_constant_scan b tokenizer _ Hs') as (H1 & H2 & H3).
    rewrite (scan_escaped_items quote_stop items eq_refl Hok) in H3.
    cbn [scan_escaped] in H3.
    split; [assumption|]. split; [assumption|]. split; [lia|].
    cbn [NextToken snd advance at_]. rewrite H2, H3.
    assert (0 <= at_ tokenizer) as Hat by (eapply suffix_nonneg; eassumption).
    assert (length (suffix b (at_ tokenizer)) = S (length (items_chars items))) as Hl
        by (now rewrite Hs).
    unfold suffix in Hl.
    replace (at_ tokenizer <? 0) with false in Hl by (symmetry; apply Z.ltb_ge; lia).
    rewrite length_skipn in Hl. lia.
Qed.

Lemma string_constant_token_witness :
  let b := str "x = " ++ [quote] ++ str "a" ++ [backslash; quote] ++ str "b"
                     ++ [quote] ++ str ";" in
  let tokenizer := mkTokenizer 4 1 "input.or" 0 in
  let items := [plain (ch "a"); escaped quote; plain (ch "b")] in
  (Forall (item_ok quote_stop) items
   /\ suffix b (at_ tokenizer) = quote :: items_chars items ++ quote :: str ";")
  /\ type (GetNextTokenFromBuffer b tokenizer) = Token_StringConstant
  /\ string_length (GetNextTokenFromBuffer b tokenizer) = 6.
Proof.
  intros b tokenizer items.
  assert (Forall (item_ok quote_stop) items) as Hok.
  { repeat constructor; discriminate. }
  assert (suffix b (at_ tokenizer) = quote :: items_chars items ++ quote :: str ";")
    as Hs by reflexivity.
  split; [split; assumption|].
  destruct (string_constant_token b tokenizer items Hok) as [H _].
  destruct (H _ Hs) as (H1 & _ & H3). split; [exact H1|]. reflexivity.
Defined.

(** X7.  TrimQuotationMarks applied to a closed StringConstant token gives
    the span between the quotes: the text of that span is the body of the
    string constant.  A text that does not start with a quote is left as it
    is. *)
Theorem TrimQuotationMarks_gives_the_body :
  forall (b : list Z) (tokenizer : Tokenizer) (items : list ScanItem) (rest : list Z),
    Forall (item_ok quote_stop) items ->
    suffix b (at_ tokenizer) = quote :: items_chars items ++ quote :: rest ->
    let token := GetNextTokenFromBuffer b tokenizer in
    let '(text, text_length) :=
      TrimQuotationMarks b (string token) (string_length token) in
    text = at_ tokenizer + 1
    /\ text_length = Z.of_nat (length (items_chars items))
    /\ firstn (Z.to_nat text_length) (suffix b text) = items_chars items.
Proof.
  intros b tokenizer items rest Hok Hs token. subst token.
  destruct (string_constant_scan b tokenizer _ Hs) as (_ & H2 & H3).
  rewrite (scan_escaped_items quote_stop items eq_refl Hok) in H3.
  rewrite scan_escaped_stop in H3 by reflexivity.
  unfold TrimQuotationMarks, rd. rewrite H2, H3, Hs.
  change (idx (quote :: items_chars items ++ quote :: rest) 0 =? quote) with true.
  cbv iota. split; [reflexivity|]. split; [lia|].
  destruct (suffix_next _ _ _ _ Hs) as [_ ->].
  replace (Z.to_nat (1 + (Z.of_nat (length (items_chars items)) + 0) + 1 - 2))
    with (length (items_chars items)) by lia.
  rewrite firstn_app, firstn_all, Nat.sub_diag. cbn [firstn]. apply app_nil_r.
Qed.

Lemma TrimQuotationMarks_gives_the_body_witness :
  let b := input_title_hello in
  let tokenizer := mkTokenizer 10 1 "input.or" 0 in
  let items := map plain (str "Hello") in
  (Forall (item_ok quote_stop) items
   /\ suffix b (at_ tokenizer) = quote :: items_chars items ++ quote :: str ";")
  /\ TrimQuotationMarks b (string (GetNextTokenFromBuffer b tokenizer))
                        (string_length (GetNextTokenFromBuffer b tokenizer))
     = (11, 5).
Proof.
  intros b tokenizer items.
  assert (Forall (item_ok quote_stop) items) as Hok.
  { repeat constructor; discriminate. }
  assert (suffix b (at_ tokenizer) = quote :: items_chars items ++ quote :: str ";")
    as Hs by reflexivity.
  split; [split; assumption|].
  pose proof (TrimQuotationMarks_gives_the_body b tokenizer items _ Hok Hs) as H.
  cbv zeta in H.
  destruct (TrimQuotationMarks b (string (GetNextTokenFromBuffer b tokenizer))
                               (string_length (GetNextTokenFromBuffer b tokenizer)))
    as [text text_length].
  destruct H as (-> & -> & _). reflexivity.
Defined.

Lemma TrimQuotationMarks_other b text text_length :
  rd b text <> quote -> TrimQuotationMarks b text text_length = (text, text_length).
Proof.
  intros H. unfold TrimQuotationMarks.
  destruct (Z.eqb_spec (rd b text) quote); [contradiction|reflexivity].
Qed.

(** X8.  The Var token that starts under the cursor runs from the keyword
    up to, and not including, the first unescaped [=] or [:], and the Const
    token up to the first unescaped [;]; a backslash keeps the character
    after it from ending the token.  Consuming the token leaves the cursor
    on the delimiter. *)
Theorem keyword_token_ends_at_unescaped_delimiter :
  forall (b : list Z) (tokenizer : Tokenizer) (items : list ScanItem)
         (d : Z) (rest : list Z),
    let token := GetNextTokenFromBuffer b tokenizer in
    (Forall (item_ok var_stop) items ->
     var_stop d = true ->
     suffix b (at_ tokenizer) = str "var" ++ items_chars items ++ d :: rest ->
     type token = Token_Var
     /\ string token = at_ tokenizer
     /\ token_text b token = str "var" ++ items_chars items
     /\ rd b (at_ (snd (NextToken b tokenizer))) = d)
    /\ (Forall (item_ok const_stop) items ->
        suffix b (at_ tokenizer) = str "const" ++ items_chars items ++ ch ";" :: rest ->
        type token = Token_Const
        /\ string token = at_ tokenizer
        /\ token_text b token = str "const" ++ items_chars items
        /\ rd b (at_ (snd (NextToken b tokenizer))) = ch ";").
Proof.
  intros b tokenizer items d rest token. subst token. split.
  - intros Hok Hd Hs.
    assert (0 <= at_ tokenizer) as Hat by (eapply suffix_nonneg; exact Hs).
    assert (type (GetNextTokenFromBuffer b tokenizer) = Token_Var
            /\ string (GetNextTokenFromBuffer b tokenizer) = at_ tokenizer
            /\ string_length (GetNextTokenFromBuffer b tokenizer)
               = 3 + Z.of_nat (length (items_chars items))) as (H1 & H2 & H3).
    { unfold GetNextTokenFromBuffer. cbn [type string string_length]. rewrite Hs.
      change (str "var" ++ items_chars items ++ d :: rest)
        with (ch "v" :: ch "a" :: ch "r" :: (items_chars items ++ d :: rest)).
      cbn [scan_tokens].
      change (ch "v" =? 0) with false. change (ch "v" =? newline) with false.
      change (ch "v" =? ch "v") with true.
      change (idx (ch "a" :: ch "r" :: (items_chars items ++ d :: rest)) 0 =? ch "a")
        with true.
      change (idx (ch "a" :: ch "r" :: (items_chars items ++ d :: rest)) 1 =? ch "r")
        with true.
      cbn [andb type string string_length]. split; [reflexivity|]. split; [lia|].
      rewrite scan_escaped_first by discriminate.
      change (ch "a" :: ch "r" :: (items_chars items ++ d :: rest))
        with (items_chars [plain (ch "a"); plain (ch "r")]
                ++ (items_chars items ++ d :: rest)).
      rewrite (scan_escaped_items var_stop [plain (ch "a"); plain (ch "r")] eq_refl)
        by (repeat constructor; discriminate).
      rewrite (scan_escaped_items var_stop items eq_refl Hok).
      rewrite scan_escaped_stop by assumption. cbn [items_chars map concat
        item_chars app length]. lia. }
    split; [assumption|]. split; [assumption|]. split.
    + unfold token_text. rewrite H2, H3, Hs.
      replace (Z.to_nat (3 + Z.of_nat (length (items_chars items))))
        with (length (str "var" ++ items_chars items))
        by (rewrite length_app; cbn; lia).
      rewrite app_assoc. apply take_app_length'. reflexivity.
    + cbn [NextToken snd advance at_]. rewrite H2, H3. unfold rd.
      replace (at_ tokenizer + (3 + Z.of_nat (length (items_chars items))))
        with (at_ tokenizer + Z.of_nat (length (str "var" ++ items_chars items)))
        by (rewrite length_app; cbn; lia).
      rewrite suffix_drop by assumption. rewrite Hs, app_assoc.
      rewrite drop_app_length. reflexivity.
  - intros Hok Hs.
    assert (0 <= at_ tokenizer) as Hat by (eapply suffix_nonneg; exact Hs).
    assert (type (GetNextTokenFromBuffer b tokenizer) = Token_Const
            /\ string (GetNextTokenFromBuffer b tokenizer) = at_ tokenizer
            /\ string_length (GetNextTokenFromBuffer b tokenizer)
               = 5 + Z.of_nat (length (items_chars items))) as (H1 & H2 & H3).
    { unfold GetNextTokenFromBuffer. cbn [type string string_length]. rewrite Hs.
      set (tail := items_chars items ++ ch ";" :: rest).
      change (str "const" ++ tail)
        with (ch "c" :: ch "o" :: ch "n" :: ch "s" :: ch "t" :: tail).
      cbn [scan_tokens].
      change (ch "c" =? 0) with false. change (ch "c" =? newline) with false.
      change (ch "c" =? ch "v") with false. change (ch "c" =? ch "c") with true.
      change (idx (ch "o" :: ch "n" :: ch "s" :: ch "t" :: tail) 0 =? ch "o") with true.
      change (idx (ch "o" :: ch "n" :: ch "s" :: ch "t" :: tail) 1 =? ch "n") with true.
      change (idx (ch "o" :: ch "n" :: ch "s" :: ch "t" :: tail) 2 =? ch "s") with true.
      change (idx (ch "o" :: ch "n" :: ch "s" :: ch "t" :: tail) 3 =? ch "t") with true.
      cbn [andb type string string_length]. split; [reflexivity|]. split; [lia|].
      rewrite scan_escaped_first by discriminate.
      change (ch "o" :: ch "n" :: ch "s" :: ch "t" :: tail)
        with (items_chars [plain (ch "o"); plain (ch "n"); plain (ch "s");
                           plain (ch "t")] ++ tail).
      rewrite (scan_escaped_items const_stop
                 [plain (ch "o"); plain (ch "n"); plain (ch "s"); plain (ch "t")]
                 eq_refl)
        by (repeat constructor; discriminate).
      subst tail. rewrite (scan_escaped_items const_stop items eq_refl Hok).
      rewrite scan_escaped_stop by reflexivity. cbn [items_chars map concat
        item_chars app length]. lia. }
    split; [assumption|]. split; [assumption|]. split.
    + unfold token_text. rewrite H2, H3, Hs.
      replace (Z.to_nat (5 + Z.of_nat (length (items_chars items))))
        with (length (str "const" ++ items_chars items))
        by (rewrite length_app; cbn; lia).
      rewrite app_assoc. apply take_app_length'. reflexivity.
    + cbn [NextToken snd advance at_]. rewrite H2, H3. unfold rd.
      replace (at_ tokenizer + (5 + Z.of_nat (length (items_chars items))))
        with (at_ tokenizer + Z.of_nat (length (str "const" ++ items_chars items)))
        by (rewrite length_app; cbn; lia).
      rewrite suffix_drop by assumption. rewrite Hs, app_assoc.
      rewrite drop_app_length. reflexivity.
Qed.

Lemma keyword_token_ends_at_unescaped_delimiter_witness :
  let b := str "var a\=b=1;" in
  let tokenizer := Tokenizer_start "input.or" in
  let items := [plain (ch " "); plain (ch "a"); escaped (ch "="); plain (ch "b")] in
  (Forall (item_ok var_stop) items
   /\ var_stop (ch "=") = true
   /\ suffix b (at_ tokenizer) = str "var" ++ items_chars items ++ ch "=" :: str "1;")
  /\ string_of_chars (token_text b (GetNextTokenFromBuffer b tokenizer))
     = "var a\=b"%string
  /\ at_ (snd (NextToken b tokenizer)) = 8.
Proof.
  intros b tokenizer items.
  assert (Forall (item_ok var_stop) items) as Hok.
  { repeat constructor; discriminate. }
  assert (suffix b (at_ tokenizer)
          = str "var" ++ items_chars items ++ ch "=" :: str "1;") as Hs by reflexivity.
  split; [repeat split; assumption|].
  destruct (keyword_token_ends_at_unescaped_delimiter
              b tokenizer items (ch "=") (str "1;")) as [H _].
  destruct (H Hok eq_refl Hs) as (_ & _ & H3 & _).
  split; [now rewrite H3|reflexivity].
Defined.

(** ** Int tokens *)

Lemma idx_cons c s n : 0 <= n -> idx (c :: s) (1 + n) = idx s n.
Proof.
  intros H. unfold idx.
  replace (1 + n <? 0) with false by (symmetry; apply Z.ltb_ge; lia).
  replace (n <? 0) with false by (symmetry; apply Z.ltb_ge; lia).
  replace (Z.to_nat (1 + n)) with (S (Z.to_nat n)) by lia. reflexivity.
Qed.

Lemma scan_int_spec s :
  Forall int_char (firstn (Z.to_nat (scan_int s)) s)
  /\ (idx s (scan_int s) = 0
      \/ idx s (scan_int s) = ch ";"
      \/ (CharIsDigit (idx s (scan_int s)) || CharIsSpace (idx s (scan_int s))) = false).
Proof.
  induction s as [|c s [IH1 IH2]]; [split; [constructor|now left]|].
  cbn [scan_int].
  destruct (Z.eqb_spec c (ch ";")) as [->|Hsc];
    [split; [constructor|right; left; reflexivity]|].
  destruct (Z.eqb_spec c 0) as [->|Hz]; [split; [constructor|now left]|].
  cbn [negb andb].
  destruct (CharIsDigit c || CharIsSpace c) eqn:Hv.
  - pose proof (scan_int_nonneg s) as Hn.
    replace (Z.to_nat (1 + scan_int s)) with (S (Z.to_nat (scan_int s))) by lia.
    rewrite idx_cons by assumption. cbn [firstn]. split; [|assumption].
    constructor; [|assumption]. repeat split; assumption.
  - split; [constructor|]. right. right. exact Hv.
Qed.

Lemma rd_offset b p n : 0 <= p -> 0 <= n -> rd b (p + n) = idx (suffix b p) n.
Proof.
  intros Hp Hn. unfold rd.
  replace n with (Z.of_nat (Z.to_nat n)) at 1 by lia.
  rewrite suffix_drop by assumption. unfold idx.
  replace (n <? 0) with false by (symmetry; apply Z.ltb_ge; lia).
  cbn [Z.ltb Z.compare Z.to_nat]. rewrite nth_skipn. f_equal. lia.
Qed.

(** X9.  An Int token starts at a digit and consists of digits and
    whitespace characters only, with no [;] among them; it ends where the
    next character is the terminator, a [;], or neither a digit nor
    whitespace. *)
Theorem int_token_is_digits_and_whitespace :
  forall (b : list Z) (tokenizer : Tokenizer),
    let token := GetNextTokenFromBuffer b tokenizer in
    type token = Token_Int ->
    CharIsDigit (rd b (string token)) = true
    /\ Forall int_char (token_text b token)
    /\ Z.of_nat (length (token_text b token)) = string_length token
    /\ (let d := rd b (string token + string_length token) in
        d = 0 \/ d = ch ";" \/ (CharIsDigit d || CharIsSpace d) = false).
Proof.
  intros b tokenizer token H. subst token.
  assert (type (GetNextTokenFromBuffer b tokenizer) <> Token_None) as Hne
      by (rewrite H; discriminate).
  destruct (GetNextTokenFromBuffer_found b tokenizer Hne)
    as (k & c & rest & Hs & Hat & Hc & Hn & Hstr & Hty & Hlen).
  pose proof (scan_tokens_fire (at_ tokenizer) c rest (Z.of_nat k)
                               ltac:(lia) Hc Hn) as (_ & _ & _ & Hcases).
  cbv zeta in Hcases. rewrite <- Hty, <- Hlen, H in Hcases.
  destruct Hcases as [(F & _)|[(F & _)|[(F & _)|[(F & _)|[(_ & Hd & Hl)|(F & _)]]]]];
    try discriminate.
  destruct (scan_int_spec (c :: rest)) as [Hall Hend].
  pose proof (scan_int_le (c :: rest)) as Hle.
  pose proof (scan_int_nonneg (c :: rest)) as Hge.
  unfold token_text. rewrite Hstr, Hs, Hl. repeat split.
  - unfold rd. rewrite Hs. exact Hd.
  - exact Hall.
  - rewrite length_take. lia.
  - cbv zeta. rewrite rd_offset by lia. rewrite Hs. exact Hend.
Qed.

Lemma int_token_is_digits_and_whitespace_witness :
  let b := input_name_12_3 in
  let tokenizer := mkTokenizer 10 1 "input.or" 0 in
  type (GetNextTokenFromBuffer b tokenizer) = Token_Int
  /\ string_of_chars (token_text b (GetNextTokenFromBuffer b tokenizer)) = "12 3"%string
  /\ Forall int_char (token_text b (GetNextTokenFromBuffer b tokenizer)).
Proof.
  intros b tokenizer. split; [reflexivity|]. split; [reflexivity|].
  exact (proj1 (proj2 (int_token_is_digits_and_whitespace b tokenizer eq_refl))).
Defined.

(** ** Value extraction *)

Lemma GetValue_body_no_value b link i st c :
  rd b (link + i) = c ->
  no_value_char c ->
  GetValue_body b link i st
  = (mkGetValueState (link_length st + 1) (isSet st)
                     (if c =? ch "[" then bracket_stack st + 1
                      else if c =? ch "]" then bracket_stack st - 1
                      else bracket_stack st)
                     (gv_context st) (gv_tokenizer st) (gv_value st),
     Some (i + 1)).
Proof.
  intros Hrd (Hz & Hq & Hd & Hsc). unfold GetValue_body. rewrite Hrd, Hd.
  destruct (Z.eqb_spec c quote) as [|_]; [contradiction|].
  destruct (c =? ch "["); [|destruct (c =? ch "]")];
    cbv beta iota zeta; rewrite Hrd;
    (destruct (Z.eqb_spec c (ch ";")) as [|_]; [contradiction|]);
    destruct st; reflexivity.
Qed.

Lemma GetValue_body_semicolon b link i st :
  rd b (link + i) = ch ";" ->
  GetValue_body b link i st
  = (mkGetValueState (link_length st + 1) (isSet st) (bracket_stack st)
                     (gv_context st) (gv_tokenizer st) (gv_value st), None).
Proof.
  intros Hrd. unfold GetValue_body. rewrite Hrd.
  change (ch ";" =? quote) with false. change (ch ";" =? ch "[") with false.
  change (ch ";" =? ch "]") with false. change (CharIsDigit (ch ";")) with false.
  cbv beta iota zeta. rewrite Hrd. change (ch ";" =? ch ";") with true.
  destruct st; reflexivity.
Qed.

Lemma GetValue_loop_no_value b link tail :
  idx tail 0 = 0 \/ idx tail 0 = ch ";" ->
  forall span fuel i st,
    suffix b (link + i) = span ++ tail ->
    Forall no_value_char span ->
    (length span < fuel)%nat ->
    exists ll bs,
      GetValue_loop b link fuel i st
      = mkGetValueState ll (isSet st) bs (gv_context st) (gv_tokenizer st)
                        (gv_value st).
Proof.
  intros Htail. induction span as [|c span IH]; intros fuel i st Hs Hok Hf.
  - destruct fuel as [|fuel]; [simpl in Hf; lia|]. cbn [GetValue_loop].
    assert (rd b (link + i) = idx tail 0) as Hrd by (unfold rd; now rewrite Hs).
    destruct Htail as [Ht|Ht]; rewrite Ht in Hrd.
    + rewrite Hrd. change (0 =? 0) with true. cbv iota.
      exists (link_length st), (bracket_stack st). now destruct st.
    + rewrite GetValue_body_semicolon by assumption. rewrite Hrd.
      change (ch ";" =? 0) with false. cbv iota. eauto.
  - destruct fuel as [|fuel]; [simpl in Hf; lia|]. cbn [GetValue_loop].
    apply Forall_cons in Hok as [Hc Hok].
    assert (rd b (link + i) = c) as Hrd by (unfold rd; now rewrite Hs).
    rewrite (GetValue_body_no_value b link i st c Hrd Hc). rewrite Hrd.
    destruct (Z.eqb_spec c 0) as [Hz|_]; [now destruct Hc|].
    cbn [app] in Hs. apply suffix_next in Hs as [_ Hs].
    replace (link + i + 1) with (link + (i + 1)) in Hs by lia.
    edestruct (IH fuel (i + 1)) as (ll & bs & ->);
      [exact Hs|assumption|simpl in Hf; lia|].
    cbn [isSet gv_context gv_tokenizer gv_value]. eauto.
Qed.

(** X10.  When the characters from [link] up to the first [;] or the
    terminator hold neither a double quote nor a digit, GetValue returns 0,
    pushes the diagnostic [Expected value before endline] and changes
    neither the tokenizer nor the value token. *)
Theorem GetValue_reports_missing_value :
  forall (b : list Z) (context0 : ParseContext) (tokenizer0 : Tokenizer)
         (link : Z) (value : Token) (span tail : list Z),
    suffix b link = span ++ tail ->
    Forall no_value_char span ->
    idx tail 0 = 0 \/ idx tail 0 = ch ";" ->
    GetValue b context0 tokenizer0 link value
    = (0, PushParseError context0 tokenizer0 msg_expected_value, tokenizer0, value).
Proof.
  intros b context0 tokenizer0 link value span tail Hs Hok Htail.
  unfold GetValue.
  edestruct (GetValue_loop_no_value b link tail Htail span (S (length b)) 0)
    as (ll & bs & ->).
  - rewrite Z.add_0_r. exact Hs.
  - assumption.
  - assert (length (suffix b link) <= length b)%nat as Hlen.
    { unfold suffix. destruct (link <? 0); [simpl; lia|].
      rewrite length_skipn. lia. }
    rewrite Hs, length_app in Hlen. lia.
  - reflexivity.
Qed.

Lemma GetValue_reports_missing_value_witness :
  let b := str "var a = [x];" in
  let tokenizer := mkTokenizer 7 1 "input.or" 0 in
  (suffix b 7 = str " [x]" ++ str ";"
   /\ Forall no_value_char (str " [x]")
   /\ (idx (str ";") 0 = 0 \/ idx (str ";") 0 = ch ";"))
  /\ GetValue b ParseContext_zero tokenizer 7 Token_zero
     = (0, PushParseError ParseContext_zero tokenizer msg_expected_value,
        tokenizer, Token_zero).
Proof.
  intros b tokenizer.
  assert (suffix b 7 = str " [x]" ++ str ";") as H1 by reflexivity.
  assert (Forall no_value_char (str " [x]")) as H2.
  { repeat constructor; discriminate. }
  assert (idx (str ";") 0 = 0 \/ idx (str ";") 0 = ch ";") as H3 by (right; reflexivity).
  split; [repeat split; assumption|].
  exact (GetValue_reports_missing_value b ParseContext_zero tokenizer 7 Token_zero
                                        _ _ H1 H2 H3).
Defined.

(** ** The nodes that the parser builds *)

Lemma TokenType_eqb_eq a b : TokenType_eqb a b = true -> a = b.
Proof. destruct a, b; simpl; intros H; try discriminate; reflexivity. Qed.

Lemma scan_tokens_tokens buffer :
  forall s i token, tokens (scan_tokens buffer s i token) = tokens token.
Proof.
  induction s as [|c s' IH]; intros i token; [reflexivity|].
  cbn [scan_tokens].
  repeat match goal with
         | |- context [if ?x then _ else _] => destruct x
         end; cbn [tokens]; try reflexivity; rewrite IH; reflexivity.
Qed.

Lemma RequireTokenType_token b tokenizer ty token tokenizer' :
  RequireTokenType b tokenizer ty = Some (token, tokenizer') ->
  type token = ty /\ tokens token = None
  /\ token = GetNextTokenFromBuffer b tokenizer.
Proof.
  unfold RequireTokenType.
  destruct (TokenType_eqb (type (GetNextTokenFromBuffer b tokenizer)) ty) eqn:E;
    [|discriminate].
  intros H. injection H as <- _. split; [now apply TokenType_eqb_eq|].
  split; [|reflexivity]. unfold GetNextTokenFromBuffer. cbn [tokens].
  apply scan_tokens_tokens.
Qed.

Lemma GetValue_body_value_set b link i st :
  value_set st -> value_set (fst (GetValue_body b link i st)).
Proof.
  intros H. unfold GetValue_body.
  destruct (rd b (link + i) =? quote).
  { destruct (RequireTokenType b (gv_tokenizer st) Token_StringConstant)
      as [[token tokenizer']|] eqn:E; cbn [fst]; [|exact H].
    apply RequireTokenType_token in E as (Hty & Htok & _).
    intros _. cbn [gv_value]. split; [assumption|now right]. }
  destruct (rd b (link + i) =? ch "[").
  { destruct (rd b (link + i) =? ch ";"); exact H. }
  destruct (rd b (link + i) =? ch "]").
  { destruct (rd b (link + i) =? ch ";"); exact H. }
  destruct (CharIsDigit (rd b (link + i))).
  - destruct (RequireTokenType b (gv_tokenizer st) Token_Int)
      as [[value tokenizer']|] eqn:E.
    + apply RequireTokenType_token in E as (Hty & Htok & _).
      destruct (CharIsDigit (rd b (string value + (string_length value - 1))));
        match goal with |- context [if ?c then _ else _] => destruct c end;
        cbn [fst]; intros _; cbn [gv_value]; (split; [assumption|now left]).
    + destruct (rd b (link + i) =? ch ";"); exact H.
  - destruct (rd b (link + i) =? ch ";"); exact H.
Qed.

Lemma GetValue_loop_value_set b link fuel :
  forall i st, value_set st -> value_set (GetValue_loop b link fuel i st).
Proof.
  induction fuel as [|fuel IH]; intros i st H; [exact H|]. cbn [GetValue_loop].
  destruct (rd b (link + i) =? 0); [exact H|].
  pose proof (GetValue_body_value_set b link i st H) as H'.
  destruct (GetValue_body b link i st) as [st' [i'|]]; cbn [fst] in H'.
  - now apply IH.
  - exact H'.
Qed.

Lemma GetValue_nonzero_value b context0 tokenizer0 link len context' tokenizer' value :
  GetValue b context0 tokenizer0 link Token_zero = (len, context', tokenizer', value) ->
  len <> 0 ->
  tokens value = None
  /\ (type value = Token_Int \/ type value = Token_StringConstant).
Proof.
  unfold GetValue.
  set (st0 := mkGetValueState 0 false 0 context0 tokenizer0 Token_zero).
  assert (value_set st0) as H0 by (intros H; discriminate).
  pose proof (GetValue_loop_value_set b link (S (length b)) 0 st0 H0) as H.
  cbv zeta. intros E.
  pose proof (f_equal snd E) as Ev.
  pose proof (f_equal (fun x => fst (fst (fst x))) E) as El.
  cbn [fst snd] in Ev, El. subst len value. clear E.
  destruct (isSet (GetValue_loop b link (S (length b)) 0 st0)) eqn:E.
  - intros _. now apply H.
  - intros Hne. now elim Hne.
Qed.

(** X11.  When GetValue returns a non-zero length, the value token it
    stored is the Int or the StringConstant token it took from the lexer. *)
Theorem GetValue_accepts_int_or_string :
  forall (b : list Z) (context0 : ParseContext) (tokenizer0 : Tokenizer) (link : Z),
    let '(len, _, _, value) := GetValue b context0 tokenizer0 link Token_zero in
    len <> 0 ->
    tokens value = None
    /\ (type value = Token_Int \/ type value = Token_StringConstant).
Proof.
  intros b context0 tokenizer0 link. unfold GetValue.
  set (st0 := mkGetValueState 0 false 0 context0 tokenizer0 Token_zero).
  assert (value_set st0) as H0 by (intros H; discriminate).
  pose proof (GetValue_loop_value_set b link (S (length b)) 0 st0 H0) as H.
  destruct (isSet (GetValue_loop b link (S (length b)) 0 st0)) eqn:E.
  - intros _. now apply H.
  - intros Hne. now elim Hne.
Qed.

Lemma GetValue_accepts_int_or_string_witness :
  let '(len, _, _, value) :=
    GetValue input_two_vars ParseContext_zero (mkTokenizer 6 1 "input.or" 0) 6
             Token_zero in
  len <> 0 /\ type value = Token_Int.
Proof.
  pose proof (GetValue_accepts_int_or_string
                input_two_vars ParseContext_zero (mkTokenizer 6 1 "input.or" 0) 6) as H.
  destruct (GetValue input_two_vars ParseContext_zero (mkTokenizer 6 1 "input.or" 0)
                     6 Token_zero) as [[[len c] t] value] eqn:E.
  assert (len <> 0) as Hne by (vm_compute in E; injection E as <- _ _ _; discriminate).
  split; [exact Hne|]. destruct (H Hne) as [_ [Hi|Hs]]; [exact Hi|].
  exfalso. vm_compute in E. injection E as _ _ _ <-. discriminate.
Defined.

(** A token whose text is [=] is the one-character Symbol token. *)
Lemma RequireToken_equals b tokenizer token tokenizer' :
  RequireToken b tokenizer (str "=") = Some (token, tokenizer') ->
  type token = Token_Symbol
  /\ string_length token = 1
  /\ rd b (string token) = ch "="
  /\ tokens token = None.
Proof.
  unfold RequireToken.
  destruct (TokenMatch b (GetNextTokenFromBuffer b tokenizer) (str "=")) eqn:E;
    [|discriminate].
  intros H. injection H as <- _.
  unfold TokenMatch in E. apply andb_true_iff in E as [E _].
  apply andb_true_iff in E as [Hne Hm].
  assert (type (GetNextTokenFromBuffer b tokenizer) <> Token_None) as Hty.
  { intros Hn. rewrite Hn in Hne. discriminate. }
  destruct (GetNextTokenFromBuffer_found b tokenizer Hty)
    as (k & c & rest & Hs & Hat & Hc & Hn & Hstr & Hty' & Hlen).
  assert (c = ch "=") as ->.
  { unfold CStringMatchCaseSensitiveN in Hm.
    destruct (string_length (GetNextTokenFromBuffer b tokenizer) =? 0);
      [discriminate|].
    rewrite Hstr, Hs in Hm.
    destruct (Z.to_nat (string_length (GetNextTokenFromBuffer b tokenizer)))
      as [|n] eqn:En.
    - pose proof (token_length_positive b tokenizer Hty) as H1. lia.
    - cbn [match_chars] in Hm. change (idx (c :: rest) 0) with c in Hm.
      change (idx (str "=") 0) with (ch "=") in Hm.
      destruct (Z.eqb_spec c (ch "=")); [assumption|discriminate]. }
  pose proof (scan_tokens_fire (at_ tokenizer) (ch "=") rest (Z.of_nat k)
                               ltac:(lia) Hc Hn) as (_ & _ & _ & Hcases).
  cbv zeta in Hcases. rewrite <- Hty', <- Hlen in Hcases.
  assert (type (GetNextTokenFromBuffer b tokenizer) = Token_Symbol
          /\ string_length (GetNextTokenFromBuffer b tokenizer) = 1) as [H1 H2].
  { clear Hcases. rewrite Hty', Hlen. cbn [scan_tokens].
    change (ch "=" =? 0) with false. change (ch "=" =? newline) with false.
    change (ch "=" =? ch "v") with false. change (ch "=" =? ch "c") with false.
    change (ch "=" =? quote) with false. change (CharIsDigit (ch "=")) with false.
    change (CharIsSpace (ch "=")) with false. change (CharIsSymbol (ch "=")) with true.
    cbn [andb negb]. rewrite break_out_symbol by reflexivity.
    destruct (Z.eqb_spec (Z.of_nat k + 1) 0) as [|_]; [lia|].
    cbn [negb type string_length]. split; [reflexivity|lia]. }
  split; [assumption|]. split; [assumption|]. split.
  - rewrite Hstr. unfold rd. now rewrite Hs.
  - unfold GetNextTokenFromBuffer. cbn [tokens]. apply scan_tokens_tokens.
Qed.

Lemma ParseText_body_node_shape b st :
  Forall (var_node_shape b) (result st) ->
  Forall (var_node_shape b) (result (ParseText_body b st)).
Proof.
  intros H. unfold ParseText_body.
  destruct (RequireTokenType b (tokenizer st) Token_Var) as [[isVar tokenizer1]|] eqn:EV.
  - apply RequireTokenType_token in EV as (HV & _ & _).
    destruct (RequireToken _ _ _) as [[isAssign tokenizer3]|] eqn:EA; [|exact H].
    apply RequireToken_equals in EA as (HA1 & HA2 & HA3 & _).
    match goal with
    | |- context [GetValue ?b ?c ?t ?l Token_zero] =>
        destruct (GetValue b c t l Token_zero) as [[[len c4] t4] v4] eqn:EG
    end.
    destruct (Z.eqb_spec len 0) as [|Hne]; cbn [negb result]; [exact H|].
    destruct (GetValue_nonzero_value _ _ _ _ _ _ _ _ EG Hne) as [Hv1 Hv2].
    apply Forall_app. split; [exact H|]. constructor; [|constructor].
    split; [reflexivity|]. split; [reflexivity|].
    eexists _, _, v4. cbn [expr_tokens tokens type string string_length
                           setTokenFromOther].
    repeat split; try reflexivity; assumption.
  - destruct (RequireTokenType b (tokenizer st) Token_Symbol) as [[symbol tokenizer1]|].
    + repeat match goal with |- context [if ?c then _ else _] => destruct c end;
        exact H.
    + destruct (RequireTokenType b (tokenizer st) Token_DoubleNewline) as [[? ?]|];
        exact H.
Qed.

Lemma ParseText_loop_node_shape b fuel :
  forall st token st',
    Forall (var_node_shape b) (result st) ->
    ParseText_loop b fuel st token = Some st' ->
    Forall (var_node_shape b) (result st').
Proof.
  induction fuel as [|fuel IH]; intros st token st' H Hl; [discriminate|].
  cbn [ParseText_loop] in Hl.
  destruct (TokenType_eqb (type token) Token_None); [now injection Hl as <-|].
  pose proof (ParseText_body_node_shape b st H) as H'.
  destruct (error_stack_size (context (ParseText_body b st)) >? 0).
  - now injection Hl as <-.
  - eapply IH; eassumption.
Qed.

(** X12.  Every node of a list that ParseText returns is a Var node with a
    chain of exactly three tokens: the Var token, the one-character Symbol
    token [=], and an Int or StringConstant token that ends the chain. *)
Theorem ParseText_returns_var_nodes :
  forall (b : list Z) (fuel : nat) (context0 : ParseContext) (tokenizer0 : Tokenizer)
         (st : ParseState),
    ParseText b fuel context0 tokenizer0 = Some st ->
    Forall (var_node_shape b) (result st).
Proof.
  intros b fuel context0 tokenizer0 st H. unfold ParseText in H.
  eapply ParseText_loop_node_shape; [|exact H]. constructor.
Qed.

Lemma ParseText_returns_var_nodes_witness :
  exists st,
    ParseText input_two_vars 4 ParseContext_zero (Tokenizer_start "input.or") = Some st
    /\ length (result st) = 2%nat
    /\ Forall (var_node_shape input_two_vars) (result st).
Proof.
  destruct (ParseText input_two_vars 4 ParseContext_zero (Tokenizer_start "input.or"))
    as [st|] eqn:E; [|vm_compute in E; discriminate].
  exists st. split; [reflexivity|]. split.
  - vm_compute in E. injection E as <-. reflexivity.
  - exact (ParseText_returns_var_nodes _ _ _ _ _ E).
Defined.

(** ** A context that already holds diagnostics *)

Lemma PushParseError_keeps_positive context0 tokenizer0 message :
  0 < error_stack_size context0 ->
  0 < error_stack_size (PushParseError context0 tokenizer0 message).
Proof.
  intros H. unfold PushParseError.
  destruct (error_stack context0); simpl;
    repeat match goal with |- context [if ?c then _ else _] => destruct c end;
    simpl; lia.
Qed.

Lemma GetValue_body_keeps_positive b link i st :
  0 < error_stack_size (gv_context st) ->
  0 < error_stack_size (gv_context (fst (GetValue_body b link i st))).
Proof.
  intros H. unfold GetValue_body.
  destruct (rd b (link + i) =? quote).
  { destruct (RequireTokenType b (gv_tokenizer st) Token_StringConstant) as [[? ?]|];
      simpl; [assumption|]. now apply PushParseError_keeps_positive. }
  destruct (rd b (link + i) =? ch "[").
  { destruct (rd b (link + i) =? ch ";"); assumption. }
  destruct (rd b (link + i) =? ch "]").
  { destruct (rd b (link + i) =? ch ";"); assumption. }
  destruct (CharIsDigit (rd b (link + i))).
  - destruct (RequireTokenType b (gv_tokenizer st) Token_Int) as [[value tokenizer']|].
    + destruct (CharIsDigit (rd b (string value + (string_length value - 1))));
        match goal with |- context [if ?c then _ else _] => destruct c end;
        simpl; try assumption; now apply PushParseError_keeps_positive.
    + destruct (rd b (link + i) =? ch ";"); assumption.
  - destruct (rd b (link + i) =? ch ";"); assumption.
Qed.

Lemma GetValue_loop_keeps_positive b link fuel :
  forall i st,
    0 < error_stack_size (gv_context st) ->
    0 < error_stack_size (gv_context (GetValue_loop b link fuel i st)).
Proof.
  induction fuel as [|fuel IH]; intros i st H; simpl; [assumption|].
  destruct (rd b (link + i) =? 0); [assumption|].
  pose proof (GetValue_body_keeps_positive b link i st H) as H'.
  destruct (GetValue_body b link i st) as [st' [i'|]]; simpl in H'.
  - now apply IH.
  - assumption.
Qed.

Lemma ParseText_body_keeps_positive b st :
  0 < error_stack_size (context st) ->
  0 < error_stack_size (context (ParseText_body b st)).
Proof.
  intros H. unfold ParseText_body.
  destruct (RequireTokenType b (tokenizer st) Token_Var) as [[isVar tokenizer1]|].
  - destruct (RequireToken _ _ _) as [[isAssign tokenizer3]|].
    + unfold GetValue.
      match goal with
      | |- context [GetValue_loop ?b ?l ?f ?i ?s] =>
          pose proof (GetValue_loop_keeps_positive b l f i s H) as HG;
          destruct (GetValue_loop b l f i s) as [ll set bs c4 t4 v4]
      end.
      cbn [isSet gv_context gv_tokenizer gv_value link_length] in HG |- *.
      destruct set; destruct (negb _); cbn [context];
        try assumption; now apply PushParseError_keeps_positive.
    + simpl. now apply PushParseError_keeps_positive.
  - destruct (RequireTokenType b (tokenizer st) Token_Symbol) as [[symbol tokenizer1]|].
    + repeat match goal with |- context [if ?c then _ else _] => destruct c end;
        simpl; try assumption. now apply PushParseError_keeps_positive.
    + destruct (RequireTokenType b (tokenizer st) Token_DoubleNewline) as [[? ?]|];
        simpl; assumption.
Qed.

(** X13.  A parse that is given a context which already holds a diagnostic
    (as happens to every file that [main] processes after a file with an
    error, the context being shared) runs the loop body once at most: it
    returns after one iteration, or at once when the buffer holds no token,
    whatever the rest of the buffer is; the result has one node at most. *)
Theorem ParseText_with_earlier_diagnostics_runs_once :
  forall (b : list Z) (fuel : nat) (context0 : ParseContext) (tokenizer0 : Tokenizer),
    0 < error_stack_size context0 ->
    let st0 := mkParseState context0 tokenizer0 [] in
    ParseText b (S fuel) context0 tokenizer0
    = Some (if TokenType_eqb (type (PeekToken b tokenizer0)) Token_None
            then st0 else ParseText_body b st0)
    /\ forall st,
        ParseText b (S fuel) context0 tokenizer0 = Some st ->
        (length (result st) <= 1)%nat.
Proof.
  intros b fuel context0 tokenizer0 H st0.
  assert (ParseText b (S fuel) context0 tokenizer0
          = Some (if TokenType_eqb (type (PeekToken b tokenizer0)) Token_None
                  then st0 else ParseText_body b st0)) as E.
  { unfold ParseText. fold st0. cbn [ParseText_loop].
    destruct (TokenType_eqb (type (PeekToken b tokenizer0)) Token_None);
      [reflexivity|].
    pose proof (ParseText_body_keeps_positive b st0 H) as Hp.
    destruct (Z.gtb_spec (error_stack_size (context (ParseText_body b st0))) 0);
      [reflexivity|lia]. }
  split; [exact E|]. intros st Hst. rewrite E in Hst. injection Hst as <-.
  match goal with |- context [if ?c then _ else _] => destruct c end;
    [subst st0; simpl; lia|].
  destruct (ParseText_body_appends_at_most_one b st0) as (l & -> & Hl).
  subst st0. cbn [result app]. exact Hl.
Qed.

Lemma ParseText_with_earlier_diagnostics_runs_once_witness :
  let context0 :=
    PushParseError ParseContext_zero (Tokenizer_start "first.or") msg_malformed_tag in
  0 < error_stack_size context0
  /\ exists st,
      ParseText input_two_vars 1 context0 (Tokenizer_start "second.or") = Some st
      /\ map (node_texts input_two_vars) (result st) = [["var a"; "="; "1"]]%string.
Proof.
  intros context0.
  assert (0 < error_stack_size context0) as H by reflexivity.
  split; [exact H|].
  destruct (ParseText_with_earlier_diagnostics_runs_once
              input_two_vars 0 context0 (Tokenizer_start "second.or") H) as [E _].
  eexists. split; [exact E|]. vm_compute. reflexivity.
Defined.

(** ** String comparison *)

Lemma c_string_nil_iff s : c_string s = [] <-> idx s 0 = 0.
Proof.
  destruct s as [|c s]; [now split|]. cbn [c_string]. change (idx (c :: s) 0) with c.
  destruct (Z.eqb_spec c 0); split; intros H; try reflexivity; try assumption;
    try discriminate; contradiction.
Qed.

Lemma CStringMatchCaseInsensitive_c_string a :
  forall b, CStringMatchCaseInsensitive a b = true <-> c_string a = c_string b.
Proof.
  induction a as [|c a IH]; intros b.
  - cbn [CStringMatchCaseInsensitive c_string]. rewrite Z.eqb_eq.
    rewrite <- c_string_nil_iff. split; intros E; now rewrite E.
  - cbn [CStringMatchCaseInsensitive c_string].
    destruct b as [|d b].
    + change (idx [] 0) with 0. cbn [c_string].
      destruct (Z.eqb_spec c 0) as [->|Hc]; [now split|].
      cbn [negb]. split; discriminate.
    + change (idx (d :: b) 0) with d. cbn [c_string tl].
      destruct (Z.eqb_spec c d) as [->|Hcd]; cbn [negb].
      * destruct (Z.eqb_spec d 0) as [|Hd]; [now split|].
        rewrite IH. split; [intros ->; reflexivity|].
        intros E. now injection E.
      * split; [discriminate|].
        destruct (Z.eqb_spec c 0), (Z.eqb_spec d 0); intros E;
          try discriminate; try (injection E as E1 _); congruence.
Qed.

Lemma c_string_app pre s :
  Forall (fun x => x <> 0) pre -> c_string (pre ++ s) = pre ++ c_string s.
Proof.
  induction 1 as [|x pre Hx _ IH]; [reflexivity|]. cbn [app c_string].
  destruct (Z.eqb_spec x 0); [contradiction|]. now rewrite IH.
Qed.

(** X14.  CStringMatchCaseInsensitive returns 1 exactly when the two C
    strings are the same sequence of characters.  It does not fold case:
    two strings that agree up to a position where one has an upper-case
    letter and the other the same letter in lower case do not match. *)
Theorem CStringMatchCaseInsensitive_is_exact_equality :
  forall a b : list Z,
    (CStringMatchCaseInsensitive a b = true <-> c_string a = c_string b)
    /\ (forall (pre a' b' : list Z) (c : Z),
           a = pre ++ c :: a' ->
           b = pre ++ (c + 32) :: b' ->
           Forall (fun x => x <> 0) pre ->
           ch "A" <= c <= ch "Z" ->
           CStringMatchCaseInsensitive a b = false).
Proof.
  intros a b. split; [apply CStringMatchCaseInsensitive_c_string|].
  intros pre a' b' c -> -> Hpre Hc.
  destruct (CStringMatchCaseInsensitive (pre ++ c :: a') (pre ++ (c + 32) :: b')) eqn:E;
    [|reflexivity].
  exfalso. apply CStringMatchCaseInsensitive_c_string in E.
  rewrite !c_string_app in E by assumption. apply app_inv_head in E.
  cbn [c_string] in E.
  change (ch "A") with 65 in Hc. change (ch "Z") with 90 in Hc.
  destruct (Z.eqb_spec c 0) as [|_]; [lia|].
  destruct (Z.eqb_spec (c + 32) 0) as [|_]; [lia|].
  injection E as E _. lia.
Qed.

Lemma CStringMatchCaseInsensitive_is_exact_equality_witness :
  CStringMatchCaseInsensitive (str "--WASM") (str "--wasm") = false
  /\ CStringMatchCaseInsensitive (str "--wasm") (str "--wasm") = true.
Proof.
  split.
  - apply (proj2 (CStringMatchCaseInsensitive_is_exact_equality
                    (str "--WASM") (str "--wasm"))
                 (str "--") (str "ASM") (str "asm") (ch "W"));
      [reflexivity|reflexivity|repeat constructor; discriminate
      |vm_compute; split; discriminate].
  - apply (proj1 (CStringMatchCaseInsensitive_is_exact_equality
                    (str "--wasm") (str "--wasm"))). reflexivity.
Defined.

(** ** Token text comparison *)

Lemma match_chars_spec n :
  forall a b,
    match_chars a b n = true <-> (forall i, 0 <= i < Z.of_nat n -> idx a i = idx b i).
Proof.
  induction n as [|n IH]; intros a b.
  - cbn [match_chars]. split; [intros _ i Hi; lia|reflexivity].
  - cbn [match_chars]. destruct (Z.eqb_spec (idx a 0) (idx b 0)) as [E|E].
    + rewrite IH. split.
      * intros H i Hi. destruct (Z.eq_dec i 0) as [->|Hn]; [exact E|].
        replace i with ((i - 1) + 1) by lia. rewrite <- !idx_tl by lia.
        apply H. lia.
      * intros H i Hi. rewrite !idx_tl by lia. apply H. lia.
    + split; [discriminate|]. intros H. exfalso. apply E, H. lia.
Qed.

Lemma idx_firstn s n i : 0 <= i < Z.of_nat n -> idx (firstn n s) i = idx s i.
Proof.
  intros Hi. unfold idx. destruct (i <? 0) eqn:E; [reflexivity|].
  revert s i Hi E. induction n as [|n IH]; intros s i Hi E; [lia|].
  destruct s as [|c s]; [reflexivity|]. cbn [firstn].
  destruct (Z.to_nat i) as [|k] eqn:Ek; [reflexivity|]. cbn [nth].
  specialize (IH s (Z.of_nat k) ltac:(lia) ltac:(apply Z.ltb_ge; lia)).
  rewrite Nat2Z.id in IH. exact IH.
Qed.

Lemma idx_all_eq (t s : list Z) :
  Forall (fun x => x <> 0) t ->
  (forall i, 0 <= i < Z.of_nat (length t) -> idx t i = idx s i) ->
  idx s (Z.of_nat (length t)) = 0 ->
  c_string s = t.
Proof.
  intros Hnz. revert s. induction Hnz as [|x t Hx _ IH]; intros s Hall Hend.
  - apply c_string_nil_iff. exact Hend.
  - destruct s as [|c s].
    + exfalso. apply Hx. specialize (Hall 0 ltac:(simpl; lia)). exact Hall.
    + pose proof (Hall 0 ltac:(simpl; lia)) as H0.
      change (x = c) in H0. subst c. cbn [c_string].
      destruct (Z.eqb_spec x 0); [contradiction|]. f_equal. apply IH.
      * intros i Hi. specialize (Hall (1 + i) ltac:(simpl length; lia)).
        rewrite !idx_cons in Hall by lia. exact Hall.
      * replace (Z.of_nat (length (x :: t))) with (1 + Z.of_nat (length t)) in Hend
          by (simpl length; lia).
        rewrite idx_cons in Hend by lia. exact Hend.
Qed.

Lemma c_string_idx s :
  (forall i, 0 <= i < Z.of_nat (length (c_string s)) -> idx (c_string s) i = idx s i)
  /\ idx s (Z.of_nat (length (c_string s))) = 0.
Proof.
  induction s as [|c s [IH1 IH2]]; [split; [simpl; intros; lia|reflexivity]|].
  cbn [c_string]. destruct (Z.eqb_spec c 0) as [->|Hc];
    [split; [simpl; intros; lia|reflexivity]|].
  split.
  - intros i Hi. destruct (Z.eq_dec i 0) as [->|Hn]; [reflexivity|].
    replace i with (1 + (i - 1)) by lia. rewrite !idx_cons by lia.
    apply IH1. simpl length in Hi. lia.
  - replace (Z.of_nat (length (c :: c_string s)))
      with (1 + Z.of_nat (length (c_string s))) by (simpl length; lia).
    rewrite idx_cons by lia. exact IH2.
Qed.

(** X15.  For a token that is not the None token and whose text is a
    non-empty stretch of the buffer without a terminator, TokenMatch returns 1
    exactly when the C string is the token's text; a token of length 0
    matches no string, the empty one included. *)
Theorem TokenMatch_compares_whole_text :
  forall (b : list Z) (token : Token) (s : list Z),
    type token <> Token_None ->
    (string_length token = 0 -> TokenMatch b token s = false)
    /\ (0 < string_length token ->
        Z.of_nat (length (token_text b token)) = string_length token ->
        Forall (fun x => x <> 0) (token_text b token) ->
        (TokenMatch b token s = true <-> c_string s = token_text b token)).
Proof.
  intros b token s Hty. unfold TokenMatch, CStringMatchCaseSensitiveN.
  assert (TokenType_eqb (type token) Token_None = false) as ->
      by (destruct (type token); try reflexivity; contradiction).
  cbn [negb andb]. split.
  - intros ->. reflexivity.
  - intros Hpos Hlen Hnz.
    destruct (Z.eqb_spec (string_length token) 0) as [|_]; [lia|].
    rewrite andb_true_iff, match_chars_spec, Z.eqb_eq.
    rewrite Z2Nat.id by lia. unfold token_text in *.
    set (n := string_length token) in *. set (t := suffix b (string token)) in *.
    split.
    + intros [Hall Hend]. apply idx_all_eq; [assumption| |now rewrite Hlen].
      rewrite Hlen. intros i Hi. rewrite idx_firstn by lia. apply Hall. exact Hi.
    + intros E. destruct (c_string_idx s) as [H1 H2]. rewrite E, Hlen in H1, H2.
      split; [|exact H2]. intros i Hi. rewrite <- H1 by exact Hi.
      symmetry. apply idx_firstn. lia.
Qed.

Lemma TokenMatch_compares_whole_text_witness :
  let b := input_two_vars in
  let token := GetNextTokenFromBuffer b (mkTokenizer 5 1 "input.or" 0) in
  TokenMatch b token (str "=") = true /\ TokenMatch b token (str "==") = false.
Proof.
  intros b token.
  assert (type token <> Token_None) as Hty by (vm_compute; discriminate).
  assert (0 < string_length token) as Hpos by (vm_compute; reflexivity).
  assert (Z.of_nat (length (token_text b token)) = string_length token) as Hlen
      by (vm_compute; reflexivity).
  assert (Forall (fun x => x <> 0) (token_text b token)) as Hnz
      by (vm_compute; repeat constructor; discriminate).
  split.
  - apply (proj2 (TokenMatch_compares_whole_text b token (str "=") Hty) Hpos Hlen Hnz).
    vm_compute. reflexivity.
  - destruct (TokenMatch b token (str "==")) eqn:E; [|reflexivity].
    apply (proj2 (TokenMatch_compares_whole_text b token (str "==") Hty) Hpos Hlen Hnz)
      in E.
    vm_compute in E. discriminate.
Defined.

(** ** Skipping to a comma *)

Lemma comma_scan_spec pre :
  Forall (fun c => c <> 0 /\ c <> ch ",") pre ->
  forall tail i,
    (idx tail 0 = ch "," ->
     comma_scan (pre ++ tail) i = Some (i + Z.of_nat (length pre) + 1))
    /\ (idx tail 0 = 0 -> comma_scan (pre ++ tail) i = None).
Proof.
  induction 1 as [|c pre [Hz Hc] _ IH]; intros tail i.
  - cbn [app length]. destruct tail as [|d tail].
    + split; [discriminate|reflexivity].
    + change (idx (d :: tail) 0) with d. cbn [comma_scan]. split; intros ->.
      * change (ch "," =? 0) with false. change (ch "," =? ch ",") with true.
        cbv iota. f_equal. simpl. lia.
      * reflexivity.
  - cbn [app comma_scan].
    destruct (Z.eqb_spec c 0) as [|_]; [contradiction|].
    destruct (Z.eqb_spec c (ch ",")) as [|_]; [contradiction|].
    destruct (IH tail (i + 1)) as [IH1 IH2]. split; intros Ht.
    + rewrite IH1 by assumption. f_equal. simpl length. lia.
    + now apply IH2.
Qed.

(** X16.  SkipToAfterNextComma moves the cursor just past the first comma
    that comes before the terminator and leaves it where it is when there is
    none.  The line number stays as it was, whatever newlines are skipped. *)
Theorem SkipToAfterNextComma_stops_after_first_comma :
  forall (b : list Z) (tokenizer : Tokenizer) (pre tail : list Z),
    suffix b (at_ tokenizer) = pre ++ tail ->
    Forall (fun c => c <> 0 /\ c <> ch ",") pre ->
    (idx tail 0 = ch "," ->
     SkipToAfterNextComma b tokenizer
     = mkTokenizer (at_ tokenizer + Z.of_nat (length pre) + 1) (line tokenizer)
                   (file tokenizer) (break_text_by_commas tokenizer))
    /\ (idx tail 0 = 0 -> SkipToAfterNextComma b tokenizer = tokenizer).
Proof.
  intros b tokenizer pre tail Hs Hpre. unfold SkipToAfterNextComma.
  rewrite Hs. destruct (comma_scan_spec pre Hpre tail 0) as [H1 H2].
  split; intros Ht.
  - rewrite H1 by assumption. f_equal. lia.
  - now rewrite H2.
Qed.

Lemma SkipToAfterNextComma_stops_after_first_comma_witness :
  let b := str "a" ++ [newline] ++ str "b,c,d" in
  SkipToAfterNextComma b (mkTokenizer 0 1 "input.or" 0) = mkTokenizer 4 1 "input.or" 0
  /\ SkipToAfterNextComma b (mkTokenizer 6 1 "input.or" 0) = mkTokenizer 6 1 "input.or" 0.
Proof.
  intros b. split.
  - apply (proj1 (SkipToAfterNextComma_stops_after_first_comma
                    b (mkTokenizer 0 1 "input.or" 0)
                    (str "a" ++ [newline] ++ str "b") (str ",c,d") eq_refl
                    ltac:(repeat constructor; discriminate))).
    reflexivity.
  - apply (proj2 (SkipToAfterNextComma_stops_after_first_comma
                    b (mkTokenizer 6 1 "input.or" 0)
                    (str "d") [] eq_refl
                    ltac:(repeat constructor; discriminate))).
    reflexivity.
Defined.

(** ** String copies *)

Lemma MemoryCopy_length s n : length (MemoryCopy s n) = n.
Proof. revert s. induction n as [|n IH]; intros s; [reflexivity|]. simpl. now rewrite IH. Qed.

Lemma MemoryCopy_c_string s :
  MemoryCopy s (S (Z.to_nat (CalculateCStringLength s))) = c_string s ++ [0].
Proof.
  induction s as [|c s IH]; [reflexivity|].
  cbn [CalculateCStringLength c_string].
  destruct (Z.eqb_spec c 0) as [->|Hc]; [reflexivity|].
  assert (0 <= CalculateCStringLength s) as Hn.
  { clear. induction s as [|d s IH]; cbn [CalculateCStringLength]; [lia|].
    destruct (d =? 0); lia. }
  replace (Z.to_nat (1 + CalculateCStringLength s))
    with (S (Z.to_nat (CalculateCStringLength s))) by lia.
  change (MemoryCopy (c :: s) (S (S (Z.to_nat (CalculateCStringLength s)))))
    with (c :: MemoryCopy s (S (Z.to_nat (CalculateCStringLength s)))).
  rewrite IH. reflexivity.
Qed.

Lemma CalculateCStringLength_nonneg s : 0 <= CalculateCStringLength s.
Proof.
  induction s as [|d s IH]; cbn [CalculateCStringLength]; [lia|].
  destruct (d =? 0); lia.
Qed.

Lemma c_string_snoc_0 t : Forall (fun x => x <> 0) t -> c_string (t ++ [0]) = t.
Proof.
  intros H. rewrite c_string_app by assumption. cbn [c_string].
  change (0 =? 0) with true. cbv iota. apply app_nil_r.
Qed.

Lemma c_string_nonzero s : Forall (fun x => x <> 0) (c_string s).
Proof.
  induction s as [|c s IH]; [constructor|]. cbn [c_string].
  destruct (Z.eqb_spec c 0); [constructor|]. now constructor.
Qed.

Lemma c_string_MemoryCopy_cut s n :
  c_string (<[n := 0]> (MemoryCopy s (S n))) = firstn n (c_string s).
Proof.
  revert s. induction n as [|n IH]; intros s.
  - cbn. reflexivity.
  - change (MemoryCopy s (S (S n))) with (idx s 0 :: MemoryCopy (tl s) (S n)).
    cbn [insert list_insert]. change (list_insert n 0 ?l) with (<[n := 0]> l).
    cbn [c_string]. rewrite IH. destruct s as [|c s].
    + change (idx [] 0) with 0. change (0 =? 0) with true. cbv iota.
      cbn [c_string firstn]. reflexivity.
    + change (idx (c :: s) 0) with c. cbn [tl c_string].
      destruct (c =? 0); reflexivity.
Qed.

(** X17.  The copy made by ParseContextAllocateCStringCopy is the same C
    string as the original and takes one byte more than its length.  The copy
    made by ParseContextAllocateCStringCopyN is the first [n] characters of
    the original, or all of it when it is shorter, and takes [n + 1] bytes.
    Both advance the arena by the number of bytes they take. *)
Theorem string_copies_are_terminated_prefixes :
  forall (context : ParseContext) (s : list Z),
    (let '(context', copy) := ParseContextAllocateCStringCopy context s in
     c_string copy = c_string s
     /\ Z.of_nat (length copy) = CalculateCStringLength s + 1
     /\ context' = ParseContextAllocateMemory context (CalculateCStringLength s + 1))
    /\ (forall n : Z,
           0 <= n ->
           let '(context', copy) := ParseContextAllocateCStringCopyN context s n in
           c_string copy = firstn (Z.to_nat n) (c_string s)
           /\ Z.of_nat (length copy) = n + 1
           /\ context' = ParseContextAllocateMemory context (n + 1)).
Proof.
  intros context s. pose proof (CalculateCStringLength_nonneg s) as Hn. split.
  - unfold ParseContextAllocateCStringCopy. cbv zeta.
    replace (Z.to_nat (CalculateCStringLength s + 1))
      with (S (Z.to_nat (CalculateCStringLength s))) by lia.
    rewrite MemoryCopy_c_string. repeat split.
    + apply c_string_snoc_0, c_string_nonzero.
    + rewrite <- MemoryCopy_c_string, MemoryCopy_length. lia.
  - intros n Hpos. unfold ParseContextAllocateCStringCopyN. cbv zeta.
    replace (Z.to_nat (n + 1)) with (S (Z.to_nat n)) by lia. repeat split.
    + apply c_string_MemoryCopy_cut.
    + rewrite length_insert, MemoryCopy_length. lia.
Qed.

Lemma string_copies_are_terminated_prefixes_witness :
  let s := str "page.wasm" ++ [0] ++ str "rest" in
  c_string (snd (ParseContextAllocateCStringCopy ParseContext_zero s)) = str "page.wasm"
  /\ c_string (snd (ParseContextAllocateCStringCopyN ParseContext_zero s 4)) = str "page"
  /\ c_string (snd (ParseContextAllocateCStringCopyN ParseContext_zero s 12))
     = str "page.wasm".
Proof.
  intros s.
  pose proof (string_copies_are_terminated_prefixes ParseContext_zero s) as [H1 H2].
  pose proof (H2 4 ltac:(lia)) as H4. pose proof (H2 12 ltac:(lia)) as H12.
  destruct (ParseContextAllocateCStringCopy ParseContext_zero s) as [c1 copy1].
  destruct (ParseContextAllocateCStringCopyN ParseContext_zero s 4) as [c2 copy2].
  destruct (ParseContextAllocateCStringCopyN ParseContext_zero s 12) as [c3 copy3].
  cbn [snd]. destruct H1 as [-> _], H4 as [-> _], H12 as [-> _].
  repeat split; reflexivity.
Defined.

(** ** Keyword prefix tree: single keys, splits and null result pointers *)

Lemma count_matching_bounds n :
  forall k p, 0 <= count_matching k p n <= Z.of_nat n.
Proof.
  induction n as [|n IH]; intros k p; cbn [count_matching]; [lia|].
  destruct (idx k 0 =? idx p 0); [|lia]. specialize (IH (tl k) (tl p)). lia.
Qed.

Lemma count_matching_full n :
  forall k p, count_matching k p n = Z.of_nat n <-> same_chars k p (Z.of_nat n).
Proof.
  induction n as [|n IH]; intros k p; cbn [count_matching].
  - split; [intros _ i Hi; lia|reflexivity].
  - pose proof (count_matching_bounds n (tl k) (tl p)) as Hb.
    destruct (Z.eqb_spec (idx k 0) (idx p 0)) as [E|E].
    + split.
      * intros H. assert (count_matching (tl k) (tl p) n = Z.of_nat n) as H' by lia.
        apply IH in H'. intros i Hi. destruct (Z.eq_dec i 0) as [->|Hn]; [exact E|].
        replace i with ((i - 1) + 1) by lia. rewrite <- !idx_tl by lia. apply H'. lia.
      * intros H. enough (count_matching (tl k) (tl p) n = Z.of_nat n) by lia.
        apply IH. intros i Hi. rewrite !idx_tl by lia. apply H. lia.
    + split; [lia|]. intros H. exfalso. apply E, H. lia.
Qed.

Lemma matching_key_characters_full keyword nd :
  0 <= prefix_length nd ->
  (matching_key_characters keyword (prefix_length nd) nd = prefix_length nd
   <-> same_chars keyword (prefix nd) (prefix_length nd)).
Proof.
  intros Hp. unfold matching_key_characters. rewrite Z.min_id.
  pose proof (count_matching_full (Z.to_nat (prefix_length nd)) keyword (prefix nd))
    as Hf.
  rewrite Z2Nat.id in Hf by assumption. exact Hf.
Qed.

(** X18.  Inserting a key into the empty tree makes the tree one leaf, and a
    lookup in that tree through a non-null [value_ptr] returns the stored
    value and its length exactly when the keyword has the key's length and
    characters; otherwise it returns 0 and leaves [*value_ptr] as it was. *)
Theorem prefix_tree_single_key_round_trip :
  forall (fuel : nat) (heap : list KeywordPrefixTreeNode) (context : ParseContext)
         (key : list Z) (key_length : Z) (value : option (list Z)) (value_length : Z),
    0 <= key_length ->
    let leaf := mkKeywordPrefixTreeNode key key_length value value_length None None in
    let heap' := heap ++ [leaf] in
    let tree' := Some (length heap) in
    InsertKeywordIntoTree (S fuel) heap None context key key_length value value_length
    = Returns (heap', tree',
               ParseContextAllocateMemory context sizeof_KeywordPrefixTreeNode)
    /\ forall (keyword : list Z) (keyword_length : Z) (old : option (list Z)),
        (keyword_length = key_length /\ same_chars keyword key key_length ->
         GetKeywordValueFromTree (2 + fuel) heap' tree' keyword keyword_length (Some old)
         = Returns (value_length, Some value))
        /\ (~ (keyword_length = key_length /\ same_chars keyword key key_length) ->
            GetKeywordValueFromTree (2 + fuel) heap' tree' keyword keyword_length
                                    (Some old)
            = Returns (0, Some old)).
Proof.
  intros fuel heap context key key_length v v_length Hk leaf heap' tree'.
  split; [reflexivity|].
  intros keyword keyword_length old.
  unfold GetKeywordValueFromTree, tree', heap'.
  change (2 + fuel)%nat with (S (S fuel)). cbn [GetKeywordValue_loop].
  rewrite list_lookup_middle by reflexivity. cbv zeta.
  pose proof (matching_key_characters_full keyword leaf Hk) as Hfull.
  change (prefix_length leaf) with key_length in *.
  change (prefix leaf) with key in *.
  change (value_length leaf) with v_length. change (value leaf) with v.
  change (have_child leaf) with (@None nat). change (no_have_child leaf) with (@None nat).
  destruct (Z.eq_dec keyword_length key_length) as [->|Hne].
  - destruct (Z.eqb_spec (matching_key_characters keyword key_length leaf) key_length)
      as [E|E].
    + split; [reflexivity|].
      intros Hn. exfalso. apply Hn. split; [reflexivity|]. now apply Hfull.
    + split; [|reflexivity]. intros [_ Hsame]. exfalso. now apply E, Hfull.
  - split; [intros [? _]; contradiction|]. intros _.
    destruct (Z.eqb_spec (matching_key_characters keyword keyword_length leaf) key_length)
      as [E|E]; [|reflexivity].
    rewrite E. destruct (Z.eqb_spec key_length keyword_length) as [E2|_];
      [exfalso; apply Hne; now symmetry|reflexivity].
Qed.

Lemma prefix_tree_single_key_round_trip_witness :
  let leaf := mkKeywordPrefixTreeNode (str "title") 5 (Some (str "Home")) 4 None None in
  InsertKeywordIntoTree 1 [] None ParseContext_zero (str "title") 5 (Some (str "Home")) 4
  = Returns ([leaf], Some 0%nat,
             ParseContextAllocateMemory ParseContext_zero sizeof_KeywordPrefixTreeNode)
  /\ GetKeywordValueFromTree 2 [leaf] (Some 0%nat) (str "title") 5 (Some None)
     = Returns (4, Some (Some (str "Home")))
  /\ GetKeywordValueFromTree 2 [leaf] (Some 0%nat) (str "titles") 6 (Some None)
     = Returns (0, Some None).
Proof.
  intros leaf.
  pose proof (prefix_tree_single_key_round_trip
                0 [] ParseContext_zero (str "title") 5 (Some (str "Home")) 4
                ltac:(lia)) as [H1 H2].
  split; [exact H1|]. split.
  - apply (proj1 (H2 (str "title") 5 None)). split; [reflexivity|].
    intros i Hi. reflexivity.
  - apply (proj2 (H2 (str "titles") 6 None)). intros [H _]. discriminate.
Defined.

Lemma InsertKeyword_loop_splits fuel :
  forall heap tree context node_target node key key_length value value_length
         heap' tree' context',
    node_target = target_tree /\ node <> None \/ target_of_node node_target node ->
    InsertKeyword_loop fuel heap tree context node_target node key key_length
                       value value_length
    = Returns (heap', tree', context') ->
    length heap' = (length heap + 2)%nat
    /\ (exists (matching : Z) (m : nat) (met : KeywordPrefixTreeNode),
           heap !! m = Some met
           /\ 1 < prefix_length met
           /\ matching = matching_key_characters key key_length met
           /\ 0 < matching
           /\ heap' !! length heap
              = Some (mkKeywordPrefixTreeNode key matching None 0 (Some m)
                                              (Some (S (length heap)))))
    /\ heap' !! S (length heap)
       = Some (mkKeywordPrefixTreeNode key key_length value value_length None None).
Proof.
  induction fuel as [|fuel IH];
    intros heap tree context node_target node key key_length value value_length
           heap' tree' context' Hinv Hret; [discriminate|].
  cbn [InsertKeyword_loop] in Hret. destruct node as [m|].
  - destruct (heap !! m) as [nd|] eqn:Hm; [|discriminate].
    apply lookup_lt_Some in Hm as Hlt.
    destruct (matching_key_characters key key_length nd >? 0) eqn:Hmatch.
    + destruct (Z.leb_spec (prefix_length nd) 1) as [_|Hlong].
      * eapply IH; [|exact Hret]. right. left. reflexivity.
      * cbv zeta in Hret.
        set (split_node := mkKeywordPrefixTreeNode
                             key (matching_key_characters key key_length nd)
                             None 0 (Some m) None) in *.
        assert (exists heap2 tree2,
                   store_target (heap ++ [split_node]) tree node_target
                                (Some (length heap)) = Some (heap2, tree2)
                   /\ length heap2 = S (length heap)
                   /\ heap2 !! length heap = Some split_node) as (heap2 & tree2 & Hst & Hl2 & Hn2).
        { destruct Hinv as [[-> _]|[->| ->]]; cbn [store_target].
          - eexists _, _. split; [reflexivity|]. split.
            + rewrite length_app. simpl. lia.
            + apply list_lookup_middle. reflexivity.
          - rewrite lookup_app_l, Hm by exact Hlt.
            eexists _, _. split; [reflexivity|]. split.
            + rewrite length_insert, length_app. simpl. lia.
            + rewrite list_lookup_insert_ne by lia.
              apply list_lookup_middle. reflexivity.
          - rewrite lookup_app_l, Hm by exact Hlt.
            eexists _, _. split; [reflexivity|]. split.
            + rewrite length_insert, length_app. simpl. lia.
            + rewrite list_lookup_insert_ne by lia.
              apply list_lookup_middle. reflexivity. }
        rewrite Hst in Hret. destruct fuel as [|fuel]; [discriminate|].
        cbn [InsertKeyword_loop store_target] in Hret.
        rewrite lookup_app_l in Hret by lia. rewrite Hl2, Hn2 in Hret.
        injection Hret as <- <- <-. repeat split.
        -- rewrite length_insert, length_app, Hl2. simpl. lia.
        -- exists (matching_key_characters key key_length nd), m, nd.
           split; [exact Hm|]. split; [exact Hlong|]. split; [reflexivity|]. split.
           ++ apply Z.gtb_lt in Hmatch. lia.
           ++ rewrite list_lookup_insert_eq
                by (rewrite length_app, Hl2; simpl; lia).
              reflexivity.
        -- rewrite list_lookup_insert_ne by lia.
           apply list_lookup_middle. exact (eq_sym Hl2).
    + eapply IH; [|exact Hret]. right. right. reflexivity.
  - cbv zeta in Hret.
    destruct Hinv as [[_ Hn]|[->| ->]]; [contradiction|discriminate|discriminate].
Qed.

(** X19.  On a non-empty tree InsertKeywordIntoTree returns only after a
    split: it has then allocated exactly two nodes, a split node that holds
    no value, has the key as prefix with a positive length and the node it
    met as [have_child] (a node of the tree whose prefix is longer than one
    character and shares the counted characters with the key), and after it
    the leaf with the key and the value, linked as the split node's
    [no_have_child].  A descent that ends at a null child link without a
    split does not return. *)
Theorem InsertKeywordIntoTree_returns_only_after_split :
  forall (fuel : nat) (heap : list KeywordPrefixTreeNode) (root : nat)
         (context : ParseContext) (key : list Z) (key_length : Z)
         (value : option (list Z)) (value_length : Z)
         (heap' : list KeywordPrefixTreeNode) (tree' : option nat)
         (context' : ParseContext),
    InsertKeywordIntoTree fuel heap (Some root) context key key_length value value_length
    = Returns (heap', tree', context') ->
    length heap' = (length heap + 2)%nat
    /\ (exists (matching : Z) (m : nat) (met : KeywordPrefixTreeNode),
           heap !! m = Some met
           /\ 1 < prefix_length met
           /\ matching = matching_key_characters key key_length met
           /\ 0 < matching
           /\ heap' !! length heap
              = Some (mkKeywordPrefixTreeNode key matching None 0 (Some m)
                                              (Some (S (length heap)))))
    /\ heap' !! S (length heap)
       = Some (mkKeywordPrefixTreeNode key key_length value value_length None None).
Proof.
  intros fuel heap root context key key_length value value_length heap' tree' context'.
  unfold InsertKeywordIntoTree. apply InsertKeyword_loop_splits.
  left. split; [reflexivity|discriminate].
Qed.

Lemma InsertKeywordIntoTree_returns_only_after_split_witness :
  let abc := mkKeywordPrefixTreeNode (str "abc") 3 (Some (str "1")) 1 None None in
  exists heap' tree' context',
    InsertKeywordIntoTree 2 [abc] (Some 0%nat) ParseContext_zero (str "abd") 3
                          (Some (str "2")) 1
    = Returns (heap', tree', context')
    /\ length heap' = 3%nat
    /\ heap' !! 2%nat
       = Some (mkKeywordPrefixTreeNode (str "abd") 3 (Some (str "2")) 1 None None).
Proof.
  intros abc.
  destruct (InsertKeywordIntoTree 2 [abc] (Some 0%nat) ParseContext_zero (str "abd") 3
                                  (Some (str "2")) 1)
    as [[[heap' tree'] context']| |] eqn:E;
    [|vm_compute in E; discriminate..].
  exists heap', tree', context'. split; [reflexivity|].
  destruct (InsertKeywordIntoTree_returns_only_after_split _ _ _ _ _ _ _ _ _ _ _ E)
    as (Hl & _ & Hleaf).
  split; [exact Hl|exact Hleaf].
Defined.

(** X20.  With a null [value_ptr], GetKeywordValueFromTree never returns once
    it reaches a node whose prefix is the whole keyword: the loop neither
    breaks nor moves to another node. *)
Theorem GetKeywordValueFromTree_null_value_ptr_spins :
  forall (heap : list KeywordPrefixTreeNode) (n : nat) (nd : KeywordPrefixTreeNode)
         (keyword : list Z) (keyword_length : Z),
    heap !! n = Some nd ->
    matching_key_characters keyword keyword_length nd = prefix_length nd ->
    prefix_length nd = keyword_length ->
    forall fuel : nat,
      GetKeywordValueFromTree fuel heap (Some n) keyword keyword_length None = OutOfFuel.
Proof.
  intros heap n nd keyword keyword_length Hn Hm Hl fuel.
  unfold GetKeywordValueFromTree.
  induction fuel as [|fuel IH]; [reflexivity|].
  cbn [GetKeywordValue_loop]. rewrite Hn. cbv zeta. rewrite Hm, Z.eqb_refl, Hl, Z.eqb_refl.
  exact IH.
Qed.

Lemma GetKeywordValueFromTree_null_value_ptr_spins_witness :
  let leaf := mkKeywordPrefixTreeNode (str "title") 5 (Some (str "Home")) 4 None None in
  GetKeywordValueFromTree 1000 [leaf] (Some 0%nat) (str "title") 5 None = OutOfFuel
  /\ GetKeywordValueFromTree 2 [leaf] (Some 0%nat) (str "title") 5 (Some None)
     = Returns (4, Some (Some (str "Home"))).
Proof.
  intros leaf. split; [|reflexivity].
  apply (GetKeywordValueFromTree_null_value_ptr_spins
           [leaf] 0%nat leaf (str "title") 5 eq_refl eq_refl eq_refl).
Defined.

(** ** The names derived from a file name *)

Lemma c_string_zeros k : c_string (replicate k 0) = [].
Proof. destruct k; reflexivity. Qed.

Lemma idx_zeros k : idx (replicate k 0) 0 = 0.
Proof. destruct k; reflexivity. Qed.

Lemma c_string_char_array n t :
  Forall (fun c => c <> 0) t -> c_string (char_array n t) = t.
Proof.
  intros H. unfold char_array. rewrite c_string_app by assumption.
  rewrite c_string_zeros. apply app_nil_r.
Qed.

Lemma c_string_of_chars t : Forall (fun c => c <> 0) t -> c_string t = t.
Proof.
  intros H. rewrite <- (app_nil_r t) at 1. rewrite c_string_app by assumption.
  apply app_nil_r.
Qed.

Lemma last_period_scan_none s tail :
  Forall (fun c => c <> 0 /\ c <> ch ".") s ->
  idx tail 0 = 0 ->
  forall i last, last_period_scan (s ++ tail) i last = last.
Proof.
  intros Hs Ht. induction Hs as [|c s [Hz Hp] _ IH]; intros i last.
  - cbn [app]. destruct tail as [|d tail]; [reflexivity|].
    change (d = 0) in Ht. subst d. reflexivity.
  - cbn [app last_period_scan].
    destruct (Z.eqb_spec c 0) as [|_]; [contradiction|].
    destruct (Z.eqb_spec c (ch ".")) as [|_]; [contradiction|]. apply IH.
Qed.

Lemma last_period_scan_app pre rest :
  Forall (fun c => c <> 0) pre ->
  forall i last,
  exists last',
    last_period_scan (pre ++ rest) i last
    = last_period_scan rest (i + Z.of_nat (length pre)) last'.
Proof.
  induction 1 as [|c pre Hc _ IH]; intros i last.
  - exists last. cbn [app length]. now rewrite Z.add_0_r.
  - cbn [app last_period_scan]. destruct (Z.eqb_spec c 0) as [|_]; [contradiction|].
    destruct (IH (i + 1) (if c =? ch "." then i else last)) as (last' & ->).
    exists last'. f_equal. simpl length. lia.
Qed.

Lemma firstn_short {A} (n : nat) (l : list A) : (length l <= n)%nat -> firstn n l = l.
Proof. intros H. apply firstn_all2. exact H. Qed.

Lemma c_string_snprintf_s n s sfx :
  Forall (fun x => x <> 0) sfx ->
  c_string (snprintf_s n s sfx) = firstn (n - 1) (c_string s ++ sfx).
Proof.
  intros H. unfold snprintf_s. apply c_string_char_array, Forall_take, Forall_app.
  split; [apply c_string_nonzero|exact H].
Qed.

Lemma snprintf_s_short name :
  Forall (fun x => x <> 0) name ->
  (length name < 256)%nat ->
  snprintf_s 256 name [] = name ++ replicate (256 - length name) 0.
Proof.
  intros Hnz Hlen. unfold snprintf_s. rewrite app_nil_r, (c_string_of_chars _ Hnz).
  rewrite (firstn_short (256 - 1)) by lia. reflexivity.
Qed.

(** The names for a file name that is cut at index [length stem]. *)
Lemma split_filename_cut stem c ext :
  Forall (fun x => x <> 0) (stem ++ c :: ext) ->
  (length (stem ++ c :: ext) < 256)%nat ->
  last_period_scan (snprintf_s 256 (stem ++ c :: ext) []) 0 0 = Z.of_nat (length stem) ->
  let names := split_filename (stem ++ c :: ext) in
  c_string (filename_no_extension names) = stem
  /\ c_string (extension names) = ext
  /\ c_string (wasm_output_path names) = firstn 255 (stem ++ str ".wasm")
  /\ c_string (c_output_path names) = firstn 255 (stem ++ str ".c")
  /\ c_string (js_output_path names) = firstn 255 (stem ++ str ".js").
Proof.
  intros Hnz Hlen Hscan names. subst names. unfold split_filename. rewrite Hscan.
  cbv zeta. cbn [filename_no_extension extension wasm_output_path c_output_path
                 js_output_path].
  apply Forall_app in Hnz as Hnz'. destruct Hnz' as [Hstem Hext].
  apply Forall_cons in Hext as [Hc Hext].
  rewrite (snprintf_s_short _ Hnz Hlen). rewrite <- !app_assoc. cbn [app].
  set (zeros := replicate (256 - length (stem ++ c :: ext)) 0).
  rewrite Nat2Z.id.
  assert (<[length stem := 0]> (stem ++ c :: ext ++ zeros) = stem ++ 0 :: ext ++ zeros)
    as ->.
  { rewrite insert_app_r_alt by lia. rewrite Nat.sub_diag. reflexivity. }
  assert (c_string (stem ++ 0 :: ext ++ zeros) = stem) as Hfne.
  { rewrite c_string_app by assumption. cbn [c_string]. change (0 =? 0) with true.
    cbv iota. apply app_nil_r. }
  assert (suffix (stem ++ 0 :: ext ++ zeros) (Z.of_nat (length stem) + 1) = ext ++ zeros)
    as ->.
  { unfold suffix.
    replace (Z.of_nat (length stem) + 1 <? 0) with false by (symmetry; apply Z.ltb_ge; lia).
    replace (Z.to_nat (Z.of_nat (length stem) + 1)) with (length (stem ++ [0]))
      by (rewrite length_app; simpl; lia).
    change (stem ++ 0 :: ext ++ zeros) with (stem ++ [0] ++ ext ++ zeros).
    rewrite app_assoc. apply drop_app_length. }
  assert (c_string (ext ++ zeros) = ext) as Hce.
  { rewrite c_string_app by assumption. unfold zeros. rewrite c_string_zeros.
    apply app_nil_r. }
  rewrite length_app in Hlen. simpl length in Hlen.
  rewrite !c_string_snprintf_s by (repeat constructor; discriminate).
  rewrite Hfne, Hce, app_nil_r. split; [reflexivity|].
  split; [apply firstn_short; lia|]. repeat split.
Qed.

(** X21.  For a file name of fewer than 256 characters, [main] cuts the name
    at its last period: what is before it is the name without extension, from
    which the output paths are made, and what is after it is the extension.
    A name without a period is cut at its first character, which is lost:
    the name without extension is empty and the extension is the rest of the
    name.  The input type is OR or WASM exactly when the extension is [or] or
    [wasm] in lower case. *)
Theorem split_filename_cuts_at_last_period :
  forall name : list Z,
    Forall (fun c => c <> 0) name ->
    (length name < 256)%nat ->
    let names := split_filename name in
    (forall stem ext : list Z,
        name = stem ++ ch "." :: ext ->
        Forall (fun c => c <> ch ".") ext ->
        c_string (filename_no_extension names) = stem
        /\ c_string (extension names) = ext
        /\ c_string (wasm_output_path names) = firstn 255 (stem ++ str ".wasm")
        /\ c_string (c_output_path names) = firstn 255 (stem ++ str ".c")
        /\ c_string (js_output_path names) = firstn 255 (stem ++ str ".js"))
    /\ (Forall (fun c => c <> ch ".") name ->
        c_string (filename_no_extension names) = []
        /\ c_string (extension names) = tl name
        /\ c_string (wasm_output_path names) = str ".wasm"
        /\ c_string (c_output_path names) = str ".c"
        /\ c_string (js_output_path names) = str ".js")
    /\ (input_type names = InputType_OR <-> c_string (extension names) = str "or")
    /\ (input_type names = InputType_WASM <-> c_string (extension names) = str "wasm").
Proof.
  intros name Hnz Hlen names. split; [|split].
  - intros stem ext -> Hext.
    assert (last_period_scan (snprintf_s 256 (stem ++ ch "." :: ext) []) 0 0
            = Z.of_nat (length stem)) as Hscan.
    { rewrite (snprintf_s_short _ Hnz Hlen).
      rewrite <- app_assoc. apply Forall_app in Hnz as [Hstem Hrest].
      destruct (last_period_scan_app stem ((ch "." :: ext) ++
                  replicate (256 - length (stem ++ ch "." :: ext)) 0) Hstem 0 0)
        as (last' & ->).
      cbn [app last_period_scan]. change (ch "." =? 0) with false.
      change (ch "." =? ch ".") with true. cbv iota. cbn [negb andb].
      rewrite last_period_scan_none; [lia| |apply idx_zeros].
      apply Forall_cons in Hrest as [_ Hrest].
      rewrite Forall_forall in Hrest, Hext. apply Forall_forall.
      intros x Hx. split; [now apply Hrest|now apply Hext]. }
    destruct (split_filename_cut stem (ch ".") ext Hnz Hlen Hscan)
      as (H1 & H2 & H3 & H4 & H5).
    repeat split; assumption.
  - intros Hnp. destruct name as [|c rest].
    + subst names. vm_compute. repeat split.
    + assert (last_period_scan (snprintf_s 256 ([] ++ c :: rest) []) 0 0
              = Z.of_nat (length (@nil Z))) as Hscan.
      { cbn [app]. rewrite (snprintf_s_short _ Hnz Hlen).
        rewrite last_period_scan_none; [reflexivity| |apply idx_zeros].
        rewrite Forall_forall in Hnz, Hnp. apply Forall_forall.
        intros x Hx. split; [now apply Hnz|now apply Hnp]. }
      destruct (split_filename_cut [] c rest Hnz Hlen Hscan)
        as (H1 & H2 & H3 & H4 & H5).
      repeat split; assumption.
  - subst names. unfold split_filename. cbv zeta. cbn [input_type extension].
    set (e := snprintf_s 256 _ []).
    pose proof (CStringMatchCaseInsensitive_c_string e (str "or")) as Hor.
    pose proof (CStringMatchCaseInsensitive_c_string e (str "wasm")) as Hwasm.
    change (c_string (str "or")) with (str "or") in Hor.
    change (c_string (str "wasm")) with (str "wasm") in Hwasm.
    destruct (CStringMatchCaseInsensitive e (str "or")).
    + destruct Hor as [Hor _]. rewrite (Hor eq_refl).
      split; split; intros H; try reflexivity; discriminate.
    + destruct (CStringMatchCaseInsensitive e (str "wasm")).
      * destruct Hwasm as [Hwasm _]. rewrite (Hwasm eq_refl).
        split; split; intros H; try reflexivity; discriminate.
      * split; split; intros H; try discriminate.
        -- apply Hor in H. discriminate.
        -- apply Hwasm in H. discriminate.
Qed.

Lemma split_filename_cuts_at_last_period_witness :
  c_string (filename_no_extension (split_filename (str "site/page.v2.or")))
  = str "site/page.v2"
  /\ c_string (extension (split_filename (str "site/page.v2.or"))) = str "or"
  /\ c_string (filename_no_extension (split_filename (str "xor"))) = []
  /\ c_string (extension (split_filename (str "xor"))) = str "or"
  /\ input_type (split_filename (str "xor")) = InputType_OR.
Proof.
  pose proof (split_filename_cuts_at_last_period
                (str "site/page.v2.or")
                ltac:(repeat constructor; discriminate) ltac:(simpl; lia))
    as [H1 _].
  destruct (H1 (str "site/page.v2") (str "or") eq_refl
               ltac:(repeat constructor; discriminate)) as (Ha & Hb & _).
  pose proof (split_filename_cuts_at_last_period
                (str "xor")
                ltac:(repeat constructor; discriminate) ltac:(simpl; lia))
    as (_ & H2 & H3 & _).
  destruct (H2 ltac:(repeat constructor; discriminate)) as (Hc & Hd & _).
  split; [exact Ha|]. split; [exact Hb|]. split; [exact Hc|]. split; [exact Hd|].
  apply H3. exact Hd.
Defined.

(** ** The file loop *)

Lemma file_loop_keeps_first_entries {ProcessedFile : Type}
      (process : list Z -> FileNames -> Z -> ParseContext
                 -> option (ProcessedFile * ParseContext))
      (filenames : list (option (list Z))) (flags : Z) (n : Z) (fuel : nat) :
  forall (i : Z) (st st' : FileLoop ProcessedFile),
    0 <= n <= file_count st ->
    file_count st <= MAX_FILE_COUNT ->
    (forall k, 0 <= k < n -> files st !! Z.to_nat k = Some None) ->
    file_loop process filenames flags fuel i st = Returns st' ->
    n <= file_count st' <= MAX_FILE_COUNT
    /\ (forall k, 0 <= k < n -> files st' !! Z.to_nat k = Some None).
Proof.
  unfold MAX_FILE_COUNT in *.
  induction fuel as [|fuel IH]; intros i st st' Hn Hmax Hfiles Hret; [discriminate|].
  cbn [file_loop] in Hret. unfold MAX_FILE_COUNT in Hret.
  destruct (i <? file_count st); [|injection Hret as <-; split; [lia|assumption]].
  destruct (filenames !! Z.to_nat i) as [[filename|]|]; [| |discriminate].
  - cbv zeta in Hret.
    assert (forall context processed_file,
               file_loop process filenames flags fuel (i + 1)
                         (if file_count st <? 4096
                          then mkFileLoop (file_count st + 1)
                                 (<[Z.to_nat (file_count st) := Some processed_file]>
                                    (files st)) context
                          else mkFileLoop (file_count st) (files st) context)
               = Returns st' ->
               n <= file_count st' <= MAX_FILE_COUNT
               /\ (forall k, 0 <= k < n -> files st' !! Z.to_nat k = Some None)) as Hstore.
    { intros context processed_file. destruct (Z.ltb_spec (file_count st) 4096).
      - apply IH; cbn [file_count files]; [lia|lia|].
        intros k Hk. rewrite list_lookup_insert_ne by lia. now apply Hfiles.
      - apply IH; cbn [file_count files]; [lia|lia|assumption]. }
    destruct (input_type (split_filename filename)).
    + eapply IH; eassumption.
    + destruct (process filename (split_filename filename) flags (fl_context st))
        as [[processed_file context]|]; [|discriminate].
      apply (Hstore context processed_file).
      destruct (file_count st <? 4096); exact Hret.
    + destruct (process filename (split_filename filename) flags (fl_context st))
        as [[processed_file context]|]; [|discriminate].
      apply (Hstore context processed_file).
      destruct (file_count st <? 4096); exact Hret.
  - eapply IH; eassumption.
Qed.

Lemma file_loop_returns {ProcessedFile : Type}
      (process : list Z -> FileNames -> Z -> ParseContext
                 -> option (ProcessedFile * ParseContext))
      (filenames : list (option (list Z))) (flags : Z) (fuel : nat) :
  (forall filename names flags context, process filename names flags context <> None) ->
  length filenames = Z.to_nat MAX_FILE_COUNT ->
  forall (i : Z) (st : FileLoop ProcessedFile),
    0 <= i <= MAX_FILE_COUNT ->
    file_count st <= MAX_FILE_COUNT ->
    MAX_FILE_COUNT - i < Z.of_nat fuel ->
    exists st', file_loop process filenames flags fuel i st = Returns st'.
Proof.
  intros Htotal Hlen. unfold MAX_FILE_COUNT in *.
  induction fuel as [|fuel IH]; intros i st Hi Hmax Hfuel.
  - exfalso. change (Z.of_nat 0) with 0 in Hfuel. lia.
  - cbn [file_loop]. unfold MAX_FILE_COUNT.
    destruct (Z.ltb_spec i (file_count st)) as [Hlt|_]; [|eauto].
    destruct (filenames !! Z.to_nat i) as [[filename|]|] eqn:E.
    + cbv zeta.
      destruct (process filename (split_filename filename) flags (fl_context st))
        as [[processed_file context]|] eqn:Ep; [|now apply Htotal in Ep].
      destruct (input_type (split_filename filename));
        [apply IH; lia| |];
        (destruct (Z.ltb_spec (file_count st) 4096);
         apply IH; cbn [file_count]; lia).
    + apply IH; lia.
    + exfalso. apply lookup_ge_None in E. lia.
Qed.

(** X22.  The file loop of [main] stores each processed file at index
    [file_count] and then increments [file_count], the variable that also
    holds the number of listed names and bounds the loop.  With [n] names
    listed (at most MAX_FILE_COUNT), the loop returns whenever every call of
    ProcessFile does, with [file_count] at least [n], and it has assigned
    none of the elements [files[0]] to [files[n-1]], which the code-generation
    loop goes on to read. *)
Theorem main_files_never_assigns_first_entries :
  forall (ProcessedFile : Type)
         (process : list Z -> FileNames -> Z -> ParseContext
                    -> option (ProcessedFile * ParseContext))
         (filenames : list (option (list Z))) (flags : Z) (n : Z),
    0 <= n <= MAX_FILE_COUNT ->
    length filenames = Z.to_nat MAX_FILE_COUNT ->
    ((forall filename names flags context,
         process filename names flags context <> None) ->
     exists st, main_files process filenames flags n = Returns st)
    /\ (forall st,
           main_files process filenames flags n = Returns st ->
           n <= file_count st <= MAX_FILE_COUNT
           /\ (forall i, 0 <= i < n -> files st !! Z.to_nat i = Some None)).
Proof.
  intros ProcessedFile process filenames flags n Hn Hlen. unfold main_files.
  unfold MAX_FILE_COUNT in Hn. split.
  - intros Htotal.
    apply file_loop_returns; cbn [file_count]; unfold MAX_FILE_COUNT;
      try assumption; lia.
  - intros st.
    apply file_loop_keeps_first_entries; cbn [file_count files];
      unfold MAX_FILE_COUNT; try lia.
    intros k Hk. unfold files_uninitialised, MAX_FILE_COUNT.
    apply lookup_replicate_2. lia.
Qed.

Lemma main_files_never_assigns_first_entries_witness :
  let process :=
    fun (filename : list Z) (names : FileNames) (flags : Z) (context : ParseContext) =>
      Some (c_string (wasm_output_path names), context) in
  let filenames :=
    [Some (str "a.or"); Some (str "b.txt"); Some (str "c.wasm")]
      ++ replicate 4093 None in
  exists st,
    main_files process filenames OutputFlag_WASM 3 = Returns st
    /\ file_count st = 5
    /\ firstn 5 (files st)
       = [None; None; None; Some (str "a.wasm"); Some (str "c.wasm")].
Proof.
  intros process filenames.
  destruct (main_files_never_assigns_first_entries
              (list Z) process filenames OutputFlag_WASM 3
              ltac:(vm_compute; split; discriminate) eq_refl) as [Hret Hfirst].
  destruct (Hret ltac:(discriminate)) as [st Hst].
  exists st. split; [exact Hst|].
  vm_compute in Hst. injection Hst as <-. split; reflexivity.
Defined.

(** ** The argument loop *)

Lemma argument_clear_other i k args :
  0 <= i < k -> argument (clear_argument i args) k = argument args k.
Proof.
  intros H. unfold argument, clear_argument.
  rewrite list_lookup_insert_ne by lia. reflexivity.
Qed.

Lemma arguments_loop_counts_last_only (args0 : list (option (list Z))) (n : Z) fuel :
  forall (i : Z) (st : Options),
    0 <= i ->
    (forall k, i <= k -> argument (arguments st) k = argument args0 k) ->
    let st' := arguments_loop fuel n i st in
    expected_file_count st' = expected_file_count st
    \/ (expected_file_count st' = expected_file_count st + 1
        /\ 0 <= n - 1
        /\ argument_is args0 (n - 1) "--wasm" = false
        /\ argument_is args0 (n - 1) "--c" = false
        /\ argument_is args0 (n - 1) "--js" = false).
Proof.
  induction fuel as [|fuel IH]; intros i st Hi Hargs; [now left|].
  cbn [arguments_loop]. cbv zeta.
  destruct (Z.ltb_spec i n) as [Hlt|_]; [|now left].
  assert (forall s, argument_is (arguments st) i s = argument_is args0 i s) as His.
  { intros s. unfold argument_is. rewrite Hargs by lia. reflexivity. }
  assert (forall flags source build expected,
             (forall k, i + 1 <= k ->
                        argument (arguments (mkOptions flags source build expected
                                               (clear_argument i (arguments st)))) k
                        = argument args0 k)) as Hone.
  { intros flags source build expected k Hk. cbn [arguments].
    rewrite argument_clear_other by lia. apply Hargs. lia. }
  assert (forall flags source build expected,
             (forall k, i + 1 + 1 <= k ->
                        argument (arguments
                                    (mkOptions flags source build expected
                                       (clear_argument (i + 1)
                                          (clear_argument i (arguments st))))) k
                        = argument args0 k)) as Htwo.
  { intros flags source build expected k Hk. cbn [arguments].
    rewrite !argument_clear_other by lia. apply Hargs. lia. }
  destruct (argument_is (arguments st) i "--wasm") eqn:Ewasm;
    [apply (IH (i + 1) _ ltac:(lia) (Hone _ _ _ _))|].
  destruct (argument_is (arguments st) i "--c") eqn:Ec;
    [apply (IH (i + 1) _ ltac:(lia) (Hone _ _ _ _))|].
  destruct (argument_is (arguments st) i "--js") eqn:Ejs;
    [apply (IH (i + 1) _ ltac:(lia) (Hone _ _ _ _))|].
  destruct (Z.gtb_spec n (i + 1)) as [Hgt|Hle].
  - destruct (argument_is (arguments st) i "--source" || argument_is (arguments st) i "-s");
      [apply (IH (i + 1 + 1) _ ltac:(lia) (Htwo _ _ _ _))|].
    destruct (argument_is (arguments st) i "--build_file"
              || argument_is (arguments st) i "-b");
      [apply (IH (i + 1 + 1) _ ltac:(lia) (Htwo _ _ _ _))|].
    apply IH; [lia|]. intros k Hk. apply Hargs. lia.
  - right. assert (i = n - 1) as Ei by lia.
    rewrite His in Ewasm, Ec, Ejs. rewrite Ei in Ewasm, Ec, Ejs.
    repeat split; try assumption; try lia.
    destruct fuel as [|fuel]; [reflexivity|]. cbn [arguments_loop].
    destruct (Z.ltb_spec (i + 1) n); [lia|reflexivity].
Qed.

(** X23.  The argument loop of [main] counts an argument as a file to parse
    only when it is the last argument: [expected_file_count] ends as 0 or 1,
    and as 1 only when there is an argument after the program name and the
    last one is none of [--wasm], [--c] and [--js].  Any other argument that
    is not an option is passed over. *)
Theorem main_arguments_counts_only_the_last_argument :
  forall arguments0 : list (option (list Z)),
    let st := main_arguments arguments0 in
    let last := Z.of_nat (length arguments0) - 1 in
    0 <= expected_file_count st <= 1
    /\ (expected_file_count st = 1 ->
        1 <= last
        /\ argument_is arguments0 last "--wasm" = false
        /\ argument_is arguments0 last "--c" = false
        /\ argument_is arguments0 last "--js" = false).
Proof.
  intros arguments0 st last. subst st last. unfold main_arguments.
  pose proof (arguments_loop_counts_last_only
                arguments0 (Z.of_nat (length arguments0)) (length arguments0) 1
                (mkOptions 0 None None 0 arguments0) ltac:(lia)
                ltac:(intros; reflexivity)) as H.
  cbv zeta in H.
  change (expected_file_count (mkOptions 0 None None 0 arguments0)) with 0 in H.
  set (st := arguments_loop _ _ _ _) in *.
  assert (expected_file_count st = 1 -> 1 <= Z.of_nat (length arguments0) - 1) as Hlast.
  { intros E. subst st. destruct arguments0 as [|a0 [|a1 rest]].
    - discriminate.
    - cbn in E. discriminate.
    - simpl length. lia. }
  destruct H as [H|(H & _ & H1 & H2 & H3)]; (split; [lia|]); intros E.
  - rewrite H in E. discriminate.
  - repeat split; try assumption. now apply Hlast.
Qed.

Lemma main_arguments_counts_only_the_last_argument_witness :
  let arguments0 :=
    [Some (str "ore"); Some (str "first.or"); Some (str "--wasm");
     Some (str "--source"); Some (str "site"); Some (str "last.or")] in
  expected_file_count (main_arguments arguments0) = 1
  /\ source_dir_path (main_arguments arguments0) = Some (str "site")
  /\ argument_is arguments0 5 "--wasm" = false.
Proof.
  intros arguments0.
  assert (expected_file_count (main_arguments arguments0) = 1) as E by reflexivity.
  split; [exact E|]. split; [reflexivity|].
  exact (proj1 (proj2 (proj2 (main_arguments_counts_only_the_last_argument arguments0) E))).
Defined.

(** ** The result of GetValue *)

Lemma digit_facts d :
  CharIsDigit d = true ->
  d <> 0 /\ d <> newline /\ d <> quote /\ d <> ch ";" /\ d <> ch "v" /\ d <> ch "c"
  /\ d <> ch "[" /\ d <> ch "]".
Proof.
  unfold CharIsDigit. rewrite andb_true_iff, !Z.leb_le.
  change (ch "0") with 48. change (ch "9") with 57. intros [H1 H2].
  repeat split; intros ->; vm_compute in H1, H2; try (now apply H1); now apply H2.
Qed.

Lemma scan_int_digits digits rest :
  Forall (fun c => CharIsDigit c = true) digits ->
  scan_int (digits ++ ch ";" :: rest) = Z.of_nat (length digits).
Proof.
  induction 1 as [|d digits Hd _ IH]; [reflexivity|].
  cbn [app scan_int]. destruct (digit_facts d Hd) as (Hz & _ & _ & Hs & _).
  destruct (Z.eqb_spec d (ch ";")) as [|_]; [contradiction|].
  destruct (Z.eqb_spec d 0) as [|_]; [contradiction|].
  cbn [negb andb]. rewrite Hd. cbn [orb]. rewrite IH. simpl length. lia.
Qed.

Lemma scan_tokens_blanks buffer n :
  forall s i token,
    scan_tokens buffer (replicate n (ch " ") ++ s) i token
    = scan_tokens buffer s (i + Z.of_nat n) token.
Proof.
  induction n as [|n IH]; intros s i token.
  - cbn [replicate app]. now rewrite Z.add_0_r.
  - cbn [replicate app]. rewrite scan_tokens_skip.
    + rewrite IH. f_equal. lia.
    + apply inert_no_rule; [reflexivity|discriminate].
Qed.

Lemma count_newlines_digits digits tail :
  Forall (fun c => CharIsDigit c = true) digits ->
  count_newlines (digits ++ tail) (length digits) = 0.
Proof.
  intros H. rewrite count_newlines_count_occ, take_app_length.
  induction H as [|d digits Hd _ IH]; [reflexivity|].
  cbn [count_occ]. destruct (digit_facts d Hd) as (_ & Hn & _).
  destruct (Z.eq_dec d newline); [contradiction|exact IH].
Qed.

Lemma GetNextTokenFromBuffer_blanks_digits b tokenizer n d digits rest :
  suffix b (at_ tokenizer) = replicate n (ch " ") ++ (d :: digits) ++ ch ";" :: rest ->
  Forall (fun c => CharIsDigit c = true) (d :: digits) ->
  GetNextTokenFromBuffer b tokenizer
  = mkToken Token_Int None (at_ tokenizer + Z.of_nat n) (Z.of_nat (length (d :: digits))) 0.
Proof.
  intros Hs Hd. unfold GetNextTokenFromBuffer. cbv zeta.
  assert (0 <= at_ tokenizer) as Hat.
  { unfold suffix in Hs. destruct (Z.ltb_spec (at_ tokenizer) 0); [|assumption].
    destruct n; discriminate. }
  assert (scan_tokens (at_ tokenizer) (suffix b (at_ tokenizer)) 0 Token_zero
          = mkToken Token_Int None (at_ tokenizer + Z.of_nat n)
                    (Z.of_nat (length (d :: digits))) 0) as ->.
  { rewrite Hs, scan_tokens_blanks. cbn [app scan_tokens].
    apply Forall_cons in Hd as Hd'. destruct Hd' as [Hd0 _].
    destruct (digit_facts d Hd0) as (Hz & Hn & Hq & _ & Hv & Hc & _).
    destruct (Z.eqb_spec d 0) as [|_]; [contradiction|].
    destruct (Z.eqb_spec d newline) as [|_]; [contradiction|].
    destruct (Z.eqb_spec d (ch "v")) as [|_]; [contradiction|].
    destruct (Z.eqb_spec d (ch "c")) as [|_]; [contradiction|].
    destruct (Z.eqb_spec d quote) as [|_]; [contradiction|].
    cbn [andb]. rewrite Hd0.
    change (d :: digits ++ ch ";" :: rest) with ((d :: digits) ++ ch ";" :: rest).
    rewrite scan_int_digits by assumption. reflexivity. }
  cbn [type tokens string string_length lines_traversed].
  replace (suffix b (at_ tokenizer + Z.of_nat n)) with ((d :: digits) ++ ch ";" :: rest).
  - rewrite Nat2Z.id, count_newlines_digits by assumption. reflexivity.
  - symmetry. rewrite suffix_drop by assumption. rewrite Hs.
    replace n with (length (replicate n (ch " "))) at 1 by apply length_replicate.
    apply drop_app_length.
Qed.

Lemma GetValue_loop_blanks b link n :
  forall fuel i st tail,
    suffix b (link + i) = replicate n (ch " ") ++ tail ->
    GetValue_loop b link (n + fuel) i st
    = GetValue_loop b link fuel (i + Z.of_nat n)
                    (mkGetValueState (link_length st + Z.of_nat n) (isSet st)
                                     (bracket_stack st) (gv_context st)
                                     (gv_tokenizer st) (gv_value st)).
Proof.
  induction n as [|n IH]; intros fuel i st tail Hs.
  - cbn [Nat.add]. rewrite !Z.add_0_r. now destruct st.
  - cbn [replicate app] in Hs. cbn [Nat.add GetValue_loop].
    assert (rd b (link + i) = ch " ") as Hrd by (unfold rd; now rewrite Hs).
    rewrite (GetValue_body_no_value b link i st (ch " ") Hrd)
      by (repeat split; discriminate).
    rewrite Hrd. change (ch " " =? 0) with false. cbv iota.
    change (ch " " =? ch "[") with false. change (ch " " =? ch "]") with false.
    cbv iota. apply suffix_next in Hs as [_ Hs].
    replace (link + i + 1) with (link + (i + 1)) in Hs by lia.
    rewrite (IH fuel (i + 1) _ tail Hs).
    cbn [link_length isSet bracket_stack gv_context gv_tokenizer gv_value].
    f_equal; [lia|]. f_equal. lia.
Qed.

Lemma last_default_digit d digits :
  Forall (fun c => CharIsDigit c = true) (d :: digits) ->
  CharIsDigit (List.last (d :: digits) 0) = true.
Proof.
  intros H. revert d H. induction digits as [|e digits IH]; intros d H.
  - now apply Forall_cons in H as [H _].
  - apply Forall_cons in H as [_ H]. change (List.last (d :: e :: digits) 0)
      with (List.last (e :: digits) 0). now apply IH.
Qed.

Lemma idx_app_l s t i : 0 <= i < Z.of_nat (length s) -> idx (s ++ t) i = idx s i.
Proof.
  intros H. unfold idx. replace (i <? 0) with false by (symmetry; apply Z.ltb_ge; lia).
  apply app_nth1. lia.
Qed.

Lemma idx_app_r s t i : idx (s ++ t) (Z.of_nat (length s) + i) = idx t i \/ i < 0.
Proof.
  destruct (Z.lt_ge_cases i 0) as [|Hi]; [now right|left]. unfold idx.
  replace (Z.of_nat (length s) + i <? 0) with false by (symmetry; apply Z.ltb_ge; lia).
  replace (i <? 0) with false by (symmetry; apply Z.ltb_ge; lia).
  rewrite app_nth2 by lia. f_equal. lia.
Qed.

Lemma idx_last d digits :
  idx (d :: digits) (Z.of_nat (length (d :: digits)) - 1) = List.last (d :: digits) 0.
Proof.
  revert d. induction digits as [|e digits IH]; intros d; [reflexivity|].
  change (List.last (d :: e :: digits) 0) with (List.last (e :: digits) 0).
  rewrite <- IH.
  replace (Z.of_nat (length (d :: e :: digits)) - 1)
    with (1 + (Z.of_nat (length (e :: digits)) - 1)) by (simpl length; lia).
  apply idx_cons. simpl length. lia.
Qed.

(** X24.  When the value is a run of digits that ends at a [;] and [n]
    blanks stand between [link] and its first digit, GetValue sets the value
    to the Int token of the digits, pushes no diagnostic, and returns the
    number [n + 1] of iterations of its loop narrowed to [i8], not the length
    of the span: the result is 0, the failure result, when [n + 1] is a
    multiple of 256. *)
Theorem GetValue_result_is_iterations_narrowed_to_i8 :
  forall (b : list Z) (context0 : ParseContext) (tokenizer0 : Tokenizer)
         (value : Token) (n : nat) (digits rest : list Z),
    let link := at_ tokenizer0 in
    suffix b link = replicate n (ch " ") ++ digits ++ ch ";" :: rest ->
    digits <> [] ->
    Forall (fun c => CharIsDigit c = true) digits ->
    let token :=
      mkToken Token_Int None (link + Z.of_nat n) (Z.of_nat (length digits)) 0 in
    GetValue b context0 tokenizer0 link value
    = (to_i8 (Z.of_nat n + 1), context0, advance tokenizer0 token, token)
    /\ ((Z.of_nat n + 1) mod 256 = 0 ->
        fst (fst (fst (GetValue b context0 tokenizer0 link value))) = 0).
Proof.
  intros b context0 tokenizer0 value n digits rest link Hs Hne Hd token.
  destruct digits as [|d digits]; [contradiction|]. clear Hne.
  assert (GetValue b context0 tokenizer0 link value
          = (to_i8 (Z.of_nat n + 1), context0, advance tokenizer0 token, token)) as E.
  { unfold GetValue.
    assert (0 <= link) as Hlink.
    { unfold suffix in Hs. destruct (Z.ltb_spec link 0); [|assumption].
      destruct n; discriminate. }
    assert (n + length (d :: digits) + 1 <= length b)%nat as Hlen.
    { pose proof (suffix_length b link Hlink) as Hl. rewrite Hs in Hl.
      destruct Hl as [Hl|Hl]; [|destruct n; discriminate].
      rewrite !length_app, length_replicate in Hl. cbn [length] in Hl |- *. lia. }
    replace (S (length b)) with (n + S (length b - n))%nat by lia.
    rewrite (GetValue_loop_blanks b link n _ 0 _ ((d :: digits) ++ ch ";" :: rest))
      by (rewrite Z.add_0_r; exact Hs).
    cbn [link_length isSet bracket_stack gv_context gv_tokenizer gv_value GetValue_loop].
    assert (forall k, 0 <= k ->
                      rd b (link + (0 + Z.of_nat n) + k)
                      = idx ((d :: digits) ++ ch ";" :: rest) k) as Hrd.
    { intros k Hk. replace (link + (0 + Z.of_nat n) + k) with (link + (Z.of_nat n + k))
        by lia.
      rewrite rd_offset by lia. rewrite Hs.
      replace (Z.of_nat n) with (Z.of_nat (length (replicate n (ch " "))))
        by (now rewrite length_replicate).
      destruct (idx_app_r (replicate n (ch " ")) ((d :: digits) ++ ch ";" :: rest) k)
        as [->|]; [reflexivity|lia]. }
    pose proof (Hrd 0 ltac:(lia)) as Hrd0. rewrite Z.add_0_r in Hrd0.
    change (idx ((d :: digits) ++ ch ";" :: rest) 0) with d in Hrd0.
    apply Forall_cons in Hd as Hd'. destruct Hd' as [Hd0 _].
    destruct (digit_facts d Hd0) as (Hz & _ & Hq & Hsc & _ & _ & Hlb & Hrb).
    rewrite Hrd0. destruct (Z.eqb_spec d 0) as [|_]; [contradiction|].
    unfold GetValue_body. rewrite Hrd0.
    destruct (Z.eqb_spec d quote) as [|_]; [contradiction|].
    destruct (Z.eqb_spec d (ch "[")) as [|_]; [contradiction|].
    destruct (Z.eqb_spec d (ch "]")) as [|_]; [contradiction|].
    rewrite Hd0. unfold RequireTokenType. cbn [gv_tokenizer].
    rewrite (GetNextTokenFromBuffer_blanks_digits b tokenizer0 n d digits rest Hs Hd).
    fold link. fold token. change (TokenType_eqb (type token) Token_Int) with true.
    cbv beta iota.
    assert (rd b (string token + (string_length token - 1))
            = List.last (d :: digits) 0) as Hlast.
    { cbn [token string string_length].
      replace (link + Z.of_nat n + (Z.of_nat (length (d :: digits)) - 1))
        with (link + (0 + Z.of_nat n) + (Z.of_nat (length (d :: digits)) - 1)) by lia.
      rewrite Hrd by (simpl length; lia).
      rewrite idx_app_l by (simpl length; lia). apply idx_last. }
    rewrite Hlast, (last_default_digit d digits Hd).
    cbv beta iota zeta.
    replace (link + (0 + Z.of_nat n + string_length token))
      with (link + (0 + Z.of_nat n) + Z.of_nat (length (d :: digits)))
      by (cbn [token string_length]; lia).
    rewrite Hrd by lia.
    destruct (idx_app_r (d :: digits) (ch ";" :: rest) 0) as [Hi|]; [|lia].
    rewrite Z.add_0_r in Hi. rewrite Hi.
    change (idx (ch ";" :: rest) 0 =? ch ";") with true. cbv iota.
    cbn [isSet link_length gv_context gv_tokenizer gv_value]. reflexivity. }
  split; [exact E|].
  intros Hmod. rewrite E. cbn [fst]. unfold to_i8.
  replace (Z.of_nat n + 1 + 128) with (128 + (Z.of_nat n + 1)) by lia.
  rewrite <- Zplus_mod_idemp_r, Hmod. reflexivity.
Qed.

Lemma GetValue_result_is_iterations_narrowed_to_i8_witness :
  let b := str "var a=" ++ replicate 255 (ch " ") ++ str "7;" in
  GetValue b ParseContext_zero (mkTokenizer 6 1 "input.or" 0) 6 Token_zero
  = (0, ParseContext_zero, mkTokenizer 262 1 "input.or" 0,
     mkToken Token_Int None 261 1 0).
Proof.
  intros b.
  exact (proj1 (GetValue_result_is_iterations_narrowed_to_i8
                  b ParseContext_zero (mkTokenizer 6 1 "input.or" 0) Token_zero
                  255 (str "7") [] eq_refl ltac:(discriminate)
                  ltac:(repeat constructor))).
Defined.
